(** * An open-addressing hash table with double hashing

    Shallow embedding of the C hash table of [hash_table.h] and its
    implementation file (string keys and values, open addressing, double
    hashing, tombstones, load-factor resizing), and the properties of its
    specification checked against it.

    Conventions of the embedding.
    - A C [int] (32 bits) or [long] (64 bits) is a [Z].  Signed overflow,
      a division by zero, a conversion of an out-of-range [double] and an
      access outside the bucket array are undefined behaviour in C: the
      operation that would commit one returns [None].
    - Loops that C runs until a condition holds take a [fuel : nat]; running
      out of fuel is [None] too.  So [Some x] always means: the C call
      returns, with defined behaviour, and its result is [x].
    - A C string is the Rocq [string] of its characters before the
      terminating NUL; [char] is signed, as with gcc on x86-64 (the compiler
      named in [ht_main.c]).
    - [malloc], [calloc] and [strdup] are assumed to succeed.  There is no
      heap: of [free] the model keeps that freeing the static
      [HT_DELETED_ITEM] is undefined. *)

From Stdlib Require Import ZArith Lia Ascii String.
From stdpp Require Import base option list strings.

Local Open Scope Z_scope.

(** * The program *)

(** ** C integers *)

Definition INT_MAX : Z := 2147483647.
Definition INT_MIN : Z := -2147483648.
Definition LONG_MAX : Z := 9223372036854775807.
Definition LONG_MIN : Z := -9223372036854775808.

(** The value of an [int] expression whose mathematical value is [z]. *)
Definition chk_int (z : Z) : option Z :=
  if (INT_MIN <=? z) && (z <=? INT_MAX) then Some z else None.

(** The value of a [long] expression whose mathematical value is [z]. *)
Definition chk_long (z : Z) : option Z :=
  if (LONG_MIN <=? z) && (z <=? LONG_MAX) then Some z else None.

(** [x / y] and [x % y] on [int] or [long]: truncation towards zero. *)
Definition c_div (x y : Z) : option Z :=
  if y =? 0 then None else Some (Z.quot x y).

Definition c_rem (x y : Z) : option Z :=
  if y =? 0 then None else Some (Z.rem x y).

(** The value of [s[i]], a signed [char]. *)
Definition char_val (c : ascii) : Z :=
  let n := Z.of_N (Ascii.N_of_ascii c) in
  if n <? 128 then n else n - 256.

(** ** [pow] of the C library, converted to [long]

    [pow] returns a binary64 number: the model takes the correctly rounded
    power (round to nearest, ties to even, 53 significant bits).  The
    conversion to [long] is defined when the value fits. *)

Definition round_binary64_pos (n : Z) : Z :=
  if n <? 2 ^ 53 then n
  else
    let e := Z.log2 n - 52 in
    let q := n / 2 ^ e in
    let r := n mod 2 ^ e in
    let half := 2 ^ (e - 1) in
    if r <? half then q * 2 ^ e
    else if half <? r then (q + 1) * 2 ^ e
    else if Z.even q then q * 2 ^ e else (q + 1) * 2 ^ e.

Definition round_binary64 (n : Z) : Z :=
  Z.sgn n * round_binary64_pos (Z.abs n).

(** [(long)pow(a, e)] for integers [a] and [e >= 0]. *)
Definition pow_long (a e : Z) : option Z :=
  chk_long (round_binary64 (a ^ e)).

(** ** Constants of [hash_table.h] *)

Definition HT_INITIAL_BASE_SIZE : Z := 50.
Definition HT_PRIME_1 : Z := 131.
Definition HT_PRIME_2 : Z := 151.

(** ** Hash functions *)

(** The loop of [ht_hash]: [cs] holds the characters [s[i..]], so that
    [len_s - (i+1)] is the length of the tail. *)
Fixpoint ht_hash_loop (a m : Z) (cs : list ascii) (hash : Z) : option Z :=
  match cs with
  | [] => Some hash
  | c :: rest =>
      p ← pow_long a (Z.of_nat (length rest));
      t ← chk_long (p * char_val c);
      h ← chk_long (hash + t);
      h' ← c_rem h m;
      ht_hash_loop a m rest h'
  end.

Definition ht_hash (s : string) (a m : Z) : option Z :=
  hash ← ht_hash_loop a m (list_ascii_of_string s) 0;
  chk_int hash.

Definition ht_get_hash (s : string) (num_buckets attempt : Z) : option Z :=
  hash_a ← ht_hash s HT_PRIME_1 num_buckets;
  hash_b ← ht_hash s HT_PRIME_2 num_buckets;
  step ← chk_int (hash_b + 1);
  off ← chk_int (attempt * step);
  sum ← chk_int (hash_a + off);
  c_rem sum num_buckets.

(** ** The prime-size oracle *)

(** [n] has no divisor among the [fuel] numbers from [d] on. *)
Fixpoint no_divisor_from (fuel : nat) (d n : Z) : bool :=
  match fuel with
  | O => true
  | S fuel' => if n mod d =? 0 then false else no_divisor_from fuel' (d + 1) n
  end.

(** Trial division by every [d] with [2 <= d <= sqrt n]. *)
Definition is_prime (n : Z) : bool :=
  (2 <=? n) && no_divisor_from (Z.to_nat (Z.sqrt n - 1)) 2 n.

(** The first prime among [fuel] consecutive candidates from [n] on: [inl p]
    when there is one, [inr (n + fuel)] when there is none.  The fuel is
    binary so that a search bounded by [INT_MAX] still evaluates. *)
Fixpoint first_prime_from (fuel : positive) (n : Z) : Z + Z :=
  match fuel with
  | xH => if is_prime n then inl n else inr (n + 1)
  | xO f =>
      match first_prime_from f n with
      | inl p => inl p
      | inr n' => first_prime_from f n'
      end
  | xI f =>
      match first_prime_from f n with
      | inl p => inl p
      | inr n' =>
          match first_prime_from f n' with
          | inl p => inl p
          | inr n'' => if is_prime n'' then inl n'' else inr (n'' + 1)
          end
      end
  end.

(** Modelled from the spec: [next_prime], which the table calls and whose
    source file is not part of the sources at hand.  The specification says
    it "returns the smallest prime ≥ n (for n ≤ 1, returns a defined minimum,
    e.g. 2)" and is total "up to a practical overflow bound", with an
    "undefined/overflow error" above it: here the bound is [INT_MAX]. *)
Definition next_prime (n : Z) : option Z :=
  let x := Z.max n 2 in
  if INT_MAX <? x then None
  else
    match first_prime_from (Z.to_pos (INT_MAX - x + 1)) x with
    | inl p => Some p
    | inr _ => None
    end.

(** ** Items and tables *)

Record ht_item : Type := { key : string; value : string }.

(** A bucket holds an [ht_item*]: [NULL], the address of the static
    [HT_DELETED_ITEM], or a pointer to an item of its own. *)
Inductive bucket : Type :=
  | NULL
  | HT_DELETED_ITEM
  | Ptr (i : ht_item).

#[global] Instance ht_item_eq_dec : EqDecision ht_item.
Proof. solve_decision. Defined.

#[global] Instance bucket_eq_dec : EqDecision bucket.
Proof. solve_decision. Defined.

Record ht_hash_table : Type := {
  base_size : Z;
  size : Z;
  count : Z;
  items : list bucket
}.

Definition ht_new_item (k v : string) : ht_item := {| key := k; value := v |}.

Definition ht_new_sized (base : Z) : option ht_hash_table :=
  sz ← next_prime base;
  Some {| base_size := base; size := sz; count := 0;
          items := replicate (Z.to_nat sz) NULL |}.

Definition ht_new : option ht_hash_table := ht_new_sized HT_INITIAL_BASE_SIZE.

(** [ht->items[index]]: defined inside the array only. *)
Definition get_item (ht : ht_hash_table) (index : Z) : option bucket :=
  if index <? 0 then None else items ht !! Z.to_nat index.

(** [ht->items[index] = b], for an [index] that was read before. *)
Definition set_item (ht : ht_hash_table) (index : Z) (b : bucket) : ht_hash_table :=
  {| base_size := base_size ht; size := size ht; count := count ht;
     items := <[Z.to_nat index := b]> (items ht) |}.

Definition set_count (ht : ht_hash_table) (c : Z) : ht_hash_table :=
  {| base_size := base_size ht; size := size ht; count := c; items := items ht |}.

(** [cur_item != &HT_DELETED_ITEM && strcmp(cur_item->key, key) == 0], for
    a [cur_item] that is not [NULL]. *)
Definition key_matches (b : bucket) (k : string) : bool :=
  match b with
  | Ptr i => String.eqb (key i) k
  | _ => false
  end.

(** [ht_del_item(i)] frees the strings of the item and the item.  The
    model keeps no heap, only what makes the call undefined: [free] is
    defined for a pointer that [malloc] returned, and the address of the
    static [HT_DELETED_ITEM] is not one (nor can [NULL] be dereferenced). *)
Definition ht_del_item (i : bucket) : option unit :=
  match i with
  | Ptr _ => Some ()
  | _ => None
  end.

(** The loop of [ht_del_hash_table], [n] iterations from index [i] on:
    every bucket that is not [NULL] goes to [ht_del_item]. *)
Fixpoint ht_del_hash_table_loop (n : nat) (ht : ht_hash_table) (i : Z)
    : option unit :=
  match n with
  | O => Some ()
  | S n' =>
      item ← get_item ht i;
      _ ← match item with
          | NULL => Some ()
          | _ => ht_del_item item
          end;
      ht_del_hash_table_loop n' ht (i + 1)
  end.

Definition ht_del_hash_table (ht : ht_hash_table) : option unit :=
  ht_del_hash_table_loop (Z.to_nat (size ht)) ht 0.

(** [const int load = ht->count * 100 / ht->size]. *)
Definition ht_load (ht : ht_hash_table) : option Z :=
  c ← chk_int (count ht * 100);
  c_div c (size ht).

(** ** Insert *)

(** The [while (cur_item != NULL)] loop of [ht_insert] and the two
    statements after it; [i] is the next attempt. *)
Fixpoint ht_insert_loop (fuel : nat) (ht : ht_hash_table) (item : ht_item)
    (index : Z) (cur_item : bucket) (i : Z) : option ht_hash_table :=
  match cur_item with
  | NULL =>
      c ← chk_int (count ht + 1);
      Some (set_count (set_item ht index (Ptr item)) c)
  | _ =>
      if key_matches cur_item (key item)
      then _ ← ht_del_item cur_item; Some (set_item ht index (Ptr item))
      else
        match fuel with
        | O => None
        | S fuel' =>
            index' ← ht_get_hash (key item) (size ht) i;
            cur' ← get_item ht index';
            i' ← chk_int (i + 1);
            ht_insert_loop fuel' ht item index' cur' i'
        end
  end.

(** [ht_insert] from [ht_item* item = ht_new_item(key, value)] on. *)
Definition ht_insert_place (fuel : nat) (ht : ht_hash_table) (k v : string)
    : option ht_hash_table :=
  let item := ht_new_item k v in
  index ← ht_get_hash (key item) (size ht) 0;
  cur_item ← get_item ht index;
  ht_insert_loop fuel ht item index cur_item 1.

(** ** Resize

    [ht_resize] calls [ht_insert] on the temporary table and [ht_insert]
    calls [ht_resize_up]: the resize functions take the insert function as
    an argument, and [ht_insert] below passes itself with less fuel. *)

Section Resize.
Variable insert : ht_hash_table → string → string → option ht_hash_table.

(** The [for] loop of [ht_resize], [n] iterations from index [i] on. *)
Fixpoint ht_resize_loop (n : nat) (ht : ht_hash_table) (i : Z)
    (new_ht : ht_hash_table) : option ht_hash_table :=
  match n with
  | O => Some new_ht
  | S n' =>
      item ← get_item ht i;
      new_ht' ← match item with
                | Ptr it => insert new_ht (key it) (value it)
                | _ => Some new_ht
                end;
      ht_resize_loop n' ht (i + 1) new_ht'
  end.

(** After the loop [ht] takes the base size, count, size and items of
    [new_ht]; the old size and array go to [new_ht], which
    [ht_del_hash_table] then frees. *)
Definition ht_resize (ht : ht_hash_table) (base : Z) : option ht_hash_table :=
  if base <? HT_INITIAL_BASE_SIZE then Some ht
  else
    new_ht ← ht_new_sized base;
    new_ht' ← ht_resize_loop (Z.to_nat (size ht)) ht 0 new_ht;
    _ ← ht_del_hash_table ht;
    Some new_ht'.

Definition ht_resize_up (ht : ht_hash_table) : option ht_hash_table :=
  new_size ← chk_int (base_size ht * 2);
  ht_resize ht new_size.

Definition ht_resize_down (ht : ht_hash_table) : option ht_hash_table :=
  new_size ← c_div (base_size ht) 2;
  ht_resize ht new_size.

(** The first statements of [ht_insert]: resize up above a load of 70. *)
Definition ht_insert_resize (ht : ht_hash_table) : option ht_hash_table :=
  load ← ht_load ht;
  if 70 <? load then ht_resize_up ht else Some ht.

(** The first statements of [ht_delete]: resize down below a load of 10. *)
Definition ht_delete_resize (ht : ht_hash_table) : option ht_hash_table :=
  load ← ht_load ht;
  if load <? 10 then ht_resize_down ht else Some ht.
End Resize.

Fixpoint ht_insert (fuel : nat) (ht : ht_hash_table) (k v : string)
    : option ht_hash_table :=
  match fuel with
  | O => None
  | S fuel' =>
      ht1 ← ht_insert_resize (ht_insert fuel') ht;
      ht_insert_place fuel' ht1 k v
  end.

(** ** Search *)

(** The loop of [ht_search].  The result pairs the returned [char*]
    ([None] for [NULL]) with the table after the call. *)
Fixpoint ht_search_loop (fuel : nat) (ht : ht_hash_table) (k : string)
    (item : bucket) (i : Z) : option (option string * ht_hash_table) :=
  match item with
  | NULL => Some (None, ht)
  | _ =>
      if key_matches item k
      then match item with
           | Ptr it => Some (Some (value it), ht)
           | _ => None
           end
      else
        match fuel with
        | O => None
        | S fuel' =>
            index ← ht_get_hash k (size ht) i;
            item' ← get_item ht index;
            i' ← chk_int (i + 1);
            ht_search_loop fuel' ht k item' i'
        end
  end.

Definition ht_search (fuel : nat) (ht : ht_hash_table) (k : string)
    : option (option string * ht_hash_table) :=
  index ← ht_get_hash k (size ht) 0;
  item ← get_item ht index;
  ht_search_loop fuel ht k item 1.

(** ** Delete *)

(** The loop of [ht_delete] and the decrement after it.  A match is
    replaced by [&HT_DELETED_ITEM] and the loop goes on. *)
Fixpoint ht_delete_loop (fuel : nat) (ht : ht_hash_table) (k : string)
    (index : Z) (item : bucket) (i : Z) : option ht_hash_table :=
  match item with
  | NULL =>
      c ← chk_int (count ht - 1);
      Some (set_count ht c)
  | _ =>
      ht' ← (if key_matches item k
             then _ ← ht_del_item item; Some (set_item ht index HT_DELETED_ITEM)
             else Some ht);
      match fuel with
      | O => None
      | S fuel' =>
          index' ← ht_get_hash k (size ht') i;
          item' ← get_item ht' index';
          i' ← chk_int (i + 1);
          ht_delete_loop fuel' ht' k index' item' i'
      end
  end.

(** [ht_delete] from [int index = ht_get_hash(key, ht->size, 0)] on. *)
Definition ht_delete_scan (fuel : nat) (ht : ht_hash_table) (k : string)
    : option ht_hash_table :=
  index ← ht_get_hash k (size ht) 0;
  item ← get_item ht index;
  ht_delete_loop fuel ht k index item 1.

Definition ht_delete (fuel : nat) (ht : ht_hash_table) (k : string)
    : option ht_hash_table :=
  ht1 ← ht_delete_resize (ht_insert fuel) ht;
  ht_delete_scan fuel ht1 k.

(** ** The program of [ht_main.c] *)

(** [main]: create the table, free it, return [EXIT_SUCCESS]. *)
Definition EXIT_SUCCESS : Z := 0.

Definition main : option Z :=
  ht ← ht_new;
  _ ← ht_del_hash_table ht;
  Some EXIT_SUCCESS.

(** * Predicates and invariants *)

(** ** The prime-size oracle *)

(** What [first_prime_from] returns: the first prime of the window, or the
    end of a window without primes. *)
Definition first_prime_res (fuel n : Z) (r : Z + Z) : Prop :=
  match r with
  | inl p => n ≤ p < n + fuel ∧ is_prime p = true ∧ ∀ q, n ≤ q < p → is_prime q = false
  | inr n' => n' = n + fuel ∧ ∀ q, n ≤ q < n' → is_prime q = false
  end.

(** ** The hash function *)

(** The polynomial of the specification, Σ sᵢ · a^(len − i − 1), over the
    characters of the string. *)
Fixpoint poly_hash (a : Z) (cs : list ascii) : Z :=
  match cs with
  | [] => 0
  | c :: rest => char_val c * a ^ Z.of_nat (length rest) + poly_hash a rest
  end.

(** ASCII: character codes below 128, the alphabet the source names. *)
Definition is_ascii (c : ascii) : Prop := (Ascii.N_of_ascii c < 128)%N.

(** ** Probe sequences *)

(** Attempt [n] of the probe sequence of [k] reads bucket [b] at [index],
    and the loops can get there: the index is defined and in the array and
    the attempt counter can be incremented past [n]. *)
Definition attempt (ht : ht_hash_table) (k : string) (n : nat)
    (index : Z) (b : bucket) : Prop :=
  ht_get_hash k (size ht) (Z.of_nat n) = Some index ∧
  get_item ht index = Some b ∧
  Z.of_nat n + 1 ≤ INT_MAX.

(** A bucket the loops pass over when they look for [k]: not [NULL], and
    not an item with key [k]. *)
Definition skippable (b : bucket) (k : string) : Prop :=
  b ≠ NULL ∧ key_matches b k = false.

(** The loops reach attempt [n]: every earlier attempt is passed over. *)
Definition scan (ht : ht_hash_table) (k : string) (n : nat)
    (index : Z) (b : bucket) : Prop :=
  attempt ht k n index b ∧
  ∀ j, (j < n)%nat → ∃ idx bj, attempt ht k j idx bj ∧ skippable bj k.

(** Attempt [n] reads [NULL] and no earlier attempt does: where the loop
    of [ht_delete] stops. *)
Definition null_path (ht : ht_hash_table) (k : string) (n : nat)
    (index : Z) : Prop :=
  attempt ht k n index NULL ∧
  ∀ j, (j < n)%nat → ∃ idx bj, attempt ht k j idx bj ∧ bj ≠ NULL.

(** What [ht_insert] does with the bucket [b] at [index] where its loop
    stops. *)
Inductive placed (ht : ht_hash_table) (item : ht_item) (index : Z)
    (b : bucket) (ht' : ht_hash_table) : Prop :=
  | placed_new :
      b = NULL → chk_int (count ht + 1) = Some (count ht + 1) →
      ht' = set_count (set_item ht index (Ptr item)) (count ht + 1) →
      placed ht item index b ht'
  | placed_update :
      key_matches b (key item) = true →
      ht' = set_item ht index (Ptr item) →
      placed ht item index b ht'.

(** *** The loop of [ht_search] *)

(** The answer of [ht_search] at the bucket [b] where its loop stops. *)
Inductive found (k : string) : bucket → option string → Prop :=
  | found_null : found k NULL None
  | found_item it : key it = k → found k (Ptr it) (Some (value it)).

(** ** Tables in which the same scans go through *)

(** Every bucket of [ht] that a loop passes over is still passed over in
    [ht']. *)
Definition keeps_skips (ht ht' : ht_hash_table) : Prop :=
  size ht' = size ht ∧
  ∀ k idx b, get_item ht idx = Some b → skippable b k →
    ∃ b', get_item ht' idx = Some b' ∧ skippable b' k.

(** ** The loop of [ht_delete] *)

(** [ht'] is [ht] with some of the items of key [k] replaced by
    [&HT_DELETED_ITEM]. *)
Definition tombstones (k : string) (ht ht' : ht_hash_table) : Prop :=
  base_size ht' = base_size ht ∧ size ht' = size ht ∧ count ht' = count ht ∧
  length (items ht') = length (items ht) ∧
  ∀ x b, items ht !! x = Some b →
    items ht' !! x = Some b ∨
    (key_matches b k = true ∧ items ht' !! x = Some HT_DELETED_ITEM).

(** ** Well-formed tables *)

(** The key [k] is live with value [v]: some bucket holds that item. *)
Definition live (ht : ht_hash_table) (k v : string) : Prop :=
  ∃ x : nat, items ht !! x = Some (Ptr {| key := k; value := v |}).

(** The array has [size] buckets and every item sits where the scan for
    its key stops. *)
Record ht_wf (ht : ht_hash_table) : Prop := {
  wf_length : length (items ht) = Z.to_nat (size ht);
  wf_reach : ∀ x it, items ht !! x = Some (Ptr it) →
    ∃ n, scan ht (key it) n (Z.of_nat x) (Ptr it)
}.

(** ** What insert and resize do to a well-formed table *)

(** The table after [insert k v] is well formed and holds [v] for [k] and
    what it held for the other keys. *)
Definition insert_spec (ins : ht_hash_table → string → string → option ht_hash_table) : Prop :=
  ∀ ht k v ht', ht_wf ht → ins ht k v = Some ht' →
    ht_wf ht' ∧
    ∀ k' v', live ht' k' v' ↔ (k' = k ∧ v' = v) ∨ (k' ≠ k ∧ live ht k' v').

(** ** Counting the live entries *)

Definition is_live (b : bucket) : bool :=
  match b with Ptr _ => true | _ => false end.

(** The number of buckets that hold an item. *)
Fixpoint live_entries (l : list bucket) : Z :=
  match l with
  | [] => 0
  | b :: l' => (if is_live b then 1 else 0) + live_entries l'
  end.

(** ** Invariants of insert and resize *)

(** [ins] keeps the property [P] of tables. *)
Definition preserves (P : ht_hash_table → Prop)
    (ins : ht_hash_table → string → string → option ht_hash_table) : Prop :=
  ∀ ht k v ht', P ht → ins ht k v = Some ht' → P ht'.

(** *** The size is the prime above a base size of at least 50 *)

Definition size_inv (ht : ht_hash_table) : Prop :=
  HT_INITIAL_BASE_SIZE ≤ base_size ht ∧ next_prime (base_size ht) = Some (size ht).

(** *** The count is the number of live entries *)

Definition count_inv (ht : ht_hash_table) : Prop :=
  count ht = live_entries (items ht).

(** ** Reachable tables *)

(** The tables a driver can hold: made by [ht_new], then passed through
    calls of [ht_insert], [ht_search] and [ht_delete] that return. *)
Inductive reachable : ht_hash_table → Prop :=
  | reach_new ht : ht_new = Some ht → reachable ht
  | reach_insert fuel ht k v ht' :
      reachable ht → ht_insert fuel ht k v = Some ht' → reachable ht'
  | reach_search fuel ht k r ht' :
      reachable ht → ht_search fuel ht k = Some (r, ht') → reachable ht'
  | reach_delete fuel ht k ht' :
      reachable ht → ht_delete fuel ht k = Some ht' → reachable ht'.

(** ** Concrete tables *)

(** The table [ht_new] returns. *)
Definition ht_empty : ht_hash_table :=
  {| base_size := 50; size := 53; count := 0; items := replicate 53 NULL |}.

(** [ht_empty] after [ht_insert(ht, "4", "x")]. *)
Definition ht_4 : ht_hash_table :=
  {| base_size := 50; size := 53; count := 1;
     items := <[52%nat := Ptr {| key := "4"; value := "x" |}]> (replicate 53 NULL) |}.

(** [ht_4] with its item replaced by [&HT_DELETED_ITEM]. *)
Definition ht_4_deleted : ht_hash_table := set_item ht_4 52 HT_DELETED_ITEM.

(** ** The number of live entries of well-formed tables *)

Definition item_of (b : bucket) : option ht_item :=
  match b with Ptr it => Some it | _ => None end.

Definition live_list (l : list bucket) : list ht_item := omap item_of l.

(** ** Sequences of calls for the examples *)

Fixpoint insert_all (fuel : nat) (kvs : list (string * string))
    (ht : ht_hash_table) : option ht_hash_table :=
  match kvs with
  | [] => Some ht
  | (k, v) :: kvs' => ht' ← ht_insert fuel ht k v; insert_all fuel kvs' ht'
  end.

Fixpoint delete_all (fuel : nat) (ks : list string) (ht : ht_hash_table)
    : option ht_hash_table :=
  match ks with
  | [] => Some ht
  | k :: ks' => ht' ← ht_delete fuel ht k; delete_all fuel ks' ht'
  end.

Fixpoint delete_times (fuel n : nat) (k : string) (ht : ht_hash_table)
    : option ht_hash_table :=
  match n with
  | O => Some ht
  | S n' => ht' ← ht_delete fuel ht k; delete_times fuel n' k ht'
  end.

Definition keys39 : list (string * string) :=
  (λ k, (k, "v"%string)) <$>
  ["k00"; "k01"; "k02"; "k03"; "k04"; "k05"; "k06"; "k07"; "k08"; "k09"; "k10"; "k11"; "k12"; "k13"; "k14"; "k15"; "k16"; "k17"; "k18"; "k19"; "k20"; "k21"; "k22"; "k23"; "k24"; "k25"; "k26"; "k27"; "k28"; "k29"; "k30"; "k31"; "k32"; "k33"; "k34"; "k35"; "k36"; "k37"; "k38"].

(** ** Lookups, sequences of inserts, teardown *)

(** [ht_search] returns the value [v] for the key [k]. *)
Definition ht_finds (ht : ht_hash_table) (k v : string) : Prop :=
  ∃ fuel, ht_search fuel ht k = Some (Some v, ht).

(** The value of the last pair of [kvs] whose key is [k]. *)
Fixpoint last_value (kvs : list (string * string)) (k : string) : option string :=
  match kvs with
  | [] => None
  | (k0, v0) :: kvs' =>
      match last_value kvs' k with
      | Some v => Some v
      | None => if String.eqb k0 k then Some v0 else None
      end
  end.

(** No bucket holds [&HT_DELETED_ITEM]. *)
Definition no_tombstone (ht : ht_hash_table) : Prop :=
  ∀ x, items ht !! x ≠ Some HT_DELETED_ITEM.

(** * Lemmas *)

(** ** The prime-size oracle *)

Lemma no_divisor_from_spec (fuel : nat) (d n : Z) :
  no_divisor_from fuel d n = true ↔
  ∀ x, d ≤ x < d + Z.of_nat fuel → n mod x ≠ 0.
Proof.
  revert d. induction fuel as [|fuel IH]; intros d; simpl.
  - split; [intros _ x Hx; lia | done].
  - destruct (Z.eqb_spec (n mod d) 0) as [Hd|Hd].
    + split; [done|]. intros H. exfalso. apply (H d); [lia|done].
    + rewrite IH. split; intros H x Hx.
      * destruct (decide (x = d)) as [->|]; [done|]. apply H. lia.
      * apply H. lia.
Qed.

Lemma small_divisor (n d : Z) :
  1 < d < n → (d | n) → ∃ x, 2 ≤ x ≤ Z.sqrt n ∧ (x | n).
Proof.
  intros Hd [q Hq].
  pose proof (Z.sqrt_spec n ltac:(lia)) as Hs. simpl in Hs.
  assert (0 ≤ Z.sqrt n) by apply Z.sqrt_nonneg.
  destruct (decide (d ≤ Z.sqrt n)) as [Hle|Hgt].
  - exists d. split; [lia|]. by exists q.
  - exists q. split; [|exists d; lia]. nia.
Qed.

Lemma is_prime_spec (n : Z) : is_prime n = true ↔ Z.prime n.
Proof.
  unfold is_prime. rewrite andb_true_iff, Z.leb_le, no_divisor_from_spec.
  unfold Z.prime. split.
  - intros [Hn H]. split; [lia|]. intros d Hd Hdiv.
    destruct (small_divisor n d Hd Hdiv) as (x & Hx & Hxn).
    apply (H x); [lia|]. apply Z.mod_divide; [lia|done].
  - intros [Hn H]. split; [lia|]. intros x Hx Hmod.
    pose proof (Z.sqrt_lt_lin n ltac:(lia)).
    apply (H x); [lia|]. apply Z.mod_divide; [lia|done].
Qed.

Lemma first_prime_from_spec (fuel : positive) (n : Z) :
  first_prime_res (Z.pos fuel) n (first_prime_from fuel n).
Proof.
  revert n. induction fuel as [f IH|f IH|]; intros n; simpl.
  - pose proof (IH n) as H1. destruct (first_prime_from f n) as [p|n1]; simpl in *.
    { destruct H1 as (? & ? & ?). repeat split; [lia..|done|done]. }
    destruct H1 as [-> H1]. pose proof (IH (n + Z.pos f)) as H2.
    destruct (first_prime_from f (n + Z.pos f)) as [p|n2]; simpl in *.
    { destruct H2 as (? & ? & H2). repeat split; [lia..|done|].
      intros q Hq. destruct (decide (q < n + Z.pos f)); [apply H1|apply H2]; lia. }
    destruct H2 as [-> H2].
    assert (∀ q, n ≤ q < n + Z.pos f + Z.pos f → is_prime q = false) as H3.
    { intros q Hq. destruct (decide (q < n + Z.pos f)); [apply H1|apply H2]; lia. }
    destruct (is_prime (n + Z.pos f + Z.pos f)) eqn:Hp; simpl.
    + repeat split; [lia..|done|done].
    + split; [lia|]. intros q Hq.
      destruct (decide (q = n + Z.pos f + Z.pos f)) as [->|]; [done|]. apply H3. lia.
  - pose proof (IH n) as H1. destruct (first_prime_from f n) as [p|n1]; simpl in *.
    { destruct H1 as (? & ? & ?). repeat split; [lia..|done|done]. }
    destruct H1 as [-> H1]. pose proof (IH (n + Z.pos f)) as H2.
    destruct (first_prime_from f (n + Z.pos f)) as [p|n2]; simpl in *.
    { destruct H2 as (? & ? & H2). repeat split; [lia..|done|].
      intros q Hq. destruct (decide (q < n + Z.pos f)); [apply H1|apply H2]; lia. }
    destruct H2 as [-> H2]. split; [lia|].
    intros q Hq. destruct (decide (q < n + Z.pos f)); [apply H1|apply H2]; lia.
  - destruct (is_prime n) eqn:Hp; simpl.
    + repeat split; [lia..|done|]. intros q Hq. lia.
    + split; [done|]. intros q Hq. by replace q with n by lia.
Qed.

Lemma prime_INT_MAX : is_prime INT_MAX = true.
Proof. vm_compute. reflexivity. Qed.

(** [next_prime] answers for every [n] up to [INT_MAX]: with the smallest
    prime that is at least [n] (and at least 2). *)
Lemma next_prime_spec (n p : Z) :
  next_prime n = Some p ↔
  n ≤ p ≤ INT_MAX ∧ Z.prime p ∧ ∀ q, n ≤ q < p → ¬ Z.prime q.
Proof.
  unfold next_prime.
  destruct (Z.ltb_spec INT_MAX (Z.max n 2)) as [Hbig|Hok].
  { split; [done|]. intros (Hn & Hp & _). destruct Hp. lia. }
  pose proof (first_prime_from_spec (Z.to_pos (INT_MAX - Z.max n 2 + 1)) (Z.max n 2)) as H.
  rewrite Z2Pos.id in H by lia.
  destruct (first_prime_from _ _) as [p'|n']; simpl in H.
  - destruct H as (Hr & Hp & Hmin). split.
    + intros [= <-]. split; [lia|]. split; [by apply is_prime_spec|].
      intros q Hq Hpq. assert (is_prime q = true) as Hq' by by apply is_prime_spec.
      destruct Hpq. rewrite Hmin in Hq'; [done|lia].
    + intros (Hn & Hpp & Hmin'). f_equal.
      apply is_prime_spec in Hp. destruct (Hpp) as [? _].
      destruct (Z.lt_trichotomy p p') as [Hlt|[->|Hgt]]; [|done|].
      * apply is_prime_spec in Hpp. rewrite Hmin in Hpp; [done|lia].
      * exfalso. apply (Hmin' p'); [lia|done].
  - destruct H as [-> H]. split; [done|]. exfalso.
    pose proof prime_INT_MAX as HM. rewrite H in HM; [done|]. unfold INT_MAX in *. lia.
Qed.

Lemma next_prime_total (n : Z) : n ≤ INT_MAX → is_Some (next_prime n).
Proof.
  intros Hn. unfold next_prime.
  destruct (Z.ltb_spec INT_MAX (Z.max n 2)) as [Hbig|Hok]; [unfold INT_MAX in *; lia|].
  pose proof (first_prime_from_spec (Z.to_pos (INT_MAX - Z.max n 2 + 1)) (Z.max n 2)) as H.
  rewrite Z2Pos.id in H by lia.
  destruct (first_prime_from _ _) as [p'|n']; simpl in H; [by eexists|].
  destruct H as [-> H]. exfalso.
  pose proof prime_INT_MAX as HM. rewrite H in HM; [done|]. unfold INT_MAX in *. lia.
Qed.

(** ** C arithmetic *)

Lemma chk_int_Some (z r : Z) :
  chk_int z = Some r ↔ r = z ∧ INT_MIN ≤ z ≤ INT_MAX.
Proof.
  unfold chk_int.
  destruct (Z.leb_spec INT_MIN z), (Z.leb_spec z INT_MAX); simpl;
    (split; [intros [= <-] || intros [=] | intros [-> ?]]); (done || lia).
Qed.

Lemma chk_long_Some (z r : Z) :
  chk_long z = Some r ↔ r = z ∧ LONG_MIN ≤ z ≤ LONG_MAX.
Proof.
  unfold chk_long.
  destruct (Z.leb_spec LONG_MIN z), (Z.leb_spec z LONG_MAX); simpl;
    (split; [intros [= <-] || intros [=] | intros [-> ?]]); (done || lia).
Qed.

Lemma chk_int_in (z : Z) : INT_MIN ≤ z ≤ INT_MAX → chk_int z = Some z.
Proof. intros. by apply chk_int_Some. Qed.

Lemma chk_long_in (z : Z) : LONG_MIN ≤ z ≤ LONG_MAX → chk_long z = Some z.
Proof. intros. by apply chk_long_Some. Qed.

Lemma c_rem_Some (x y r : Z) : c_rem x y = Some r ↔ y ≠ 0 ∧ r = Z.rem x y.
Proof.
  unfold c_rem. destruct (Z.eqb_spec y 0); split;
    [done | intros []; done | intros [= <-]; done | intros [_ ->]; done].
Qed.

Lemma c_div_Some (x y r : Z) : c_div x y = Some r ↔ y ≠ 0 ∧ r = Z.quot x y.
Proof.
  unfold c_div. destruct (Z.eqb_spec y 0); split;
    [done | intros []; done | intros [= <-]; done | intros [_ ->]; done].
Qed.

(** ** The hash function *)

Lemma char_val_ascii (c : ascii) : is_ascii c → 0 ≤ char_val c < 128.
Proof.
  unfold is_ascii, char_val. intros Hc.
  destruct (Z.ltb_spec (Z.of_N (Ascii.N_of_ascii c)) 128); lia.
Qed.

Lemma pow_long_exact (a e : Z) :
  0 ≤ a ^ e < 2 ^ 53 → pow_long a e = Some (a ^ e).
Proof.
  intros Hp. unfold pow_long, round_binary64, round_binary64_pos.
  rewrite Z.abs_eq by lia.
  destruct (Z.ltb_spec (a ^ e) (2 ^ 53)); [|lia].
  assert (Z.sgn (a ^ e) * a ^ e = a ^ e) as ->.
  { destruct (Z.sgn_spec (a ^ e)) as [[? ->]|[[? ->]|[? ->]]]; lia. }
  assert (2 ^ 53 = 9007199254740992) as E by reflexivity. rewrite E in *.
  apply chk_long_in. unfold LONG_MIN, LONG_MAX. lia.
Qed.

Lemma ht_hash_loop_poly (a m : Z) (cs : list ascii) (hash : Z) :
  0 < m → 0 ≤ a →
  (∀ e, 0 ≤ e < Z.of_nat (length cs) → a ^ e < 2 ^ 53) →
  Forall is_ascii cs →
  0 ≤ hash < m → m ≤ INT_MAX →
  ht_hash_loop a m cs hash = Some ((hash + poly_hash a cs) mod m).
Proof.
  intros Hm Ha. revert hash.
  induction cs as [|c rest IH]; intros hash Hpow Hasc Hh HM; simpl.
  - rewrite Z.add_0_r, Z.mod_small by lia. done.
  - apply Forall_cons in Hasc as [Hc Hrest].
    pose proof (char_val_ascii c Hc) as Hcv.
    assert (2 ^ 53 = 9007199254740992) as E by reflexivity.
    assert (0 ≤ a ^ Z.of_nat (length rest) < 2 ^ 53) as Hp.
    { split; [apply Z.pow_nonneg; lia|]. apply Hpow. simpl length. lia. }
    rewrite pow_long_exact by done. simpl.
    rewrite E in Hp. unfold INT_MAX in HM.
    rewrite chk_long_in by (unfold LONG_MIN, LONG_MAX; nia). simpl.
    rewrite chk_long_in by (unfold LONG_MIN, LONG_MAX; nia). simpl.
    unfold c_rem. destruct (Z.eqb_spec m 0); [lia|]. simpl.
    rewrite Z.rem_mod_nonneg by nia.
    rewrite IH.
    + f_equal. rewrite Z.add_mod_idemp_l by lia. f_equal. lia.
    + intros e He. apply Hpow. simpl length. lia.
    + done.
    + apply Z.mod_pos_bound. lia.
    + unfold INT_MAX. lia.
Qed.

Lemma ht_hash_ascii (s : string) (a m : Z) :
  0 < m ≤ INT_MAX → 0 ≤ a →
  a ^ (Z.of_nat (String.length s) - 1) < 2 ^ 53 →
  Forall is_ascii (list_ascii_of_string s) →
  ht_hash s a m = Some (poly_hash a (list_ascii_of_string s) mod m).
Proof.
  intros [Hm HM] Ha Hpow Hasc. unfold ht_hash.
  assert (length (list_ascii_of_string s) = String.length s) as Hlen.
  { clear. induction s as [|c s IH]; simpl; [done|]. by rewrite IH. }
  rewrite (ht_hash_loop_poly a m _ 0); try done; try lia.
  - cbn [mbind option_bind]. rewrite Z.add_0_l.
    pose proof (Z.mod_pos_bound (poly_hash a (list_ascii_of_string s)) m Hm).
    apply chk_int_in. unfold INT_MIN. lia.
  - rewrite Hlen. intros e He.
    destruct (decide (a = 0)) as [->|Hne].
    + destruct (decide (e = 0)) as [->|]; [done|]. rewrite Z.pow_0_l by lia. done.
    + eapply Z.le_lt_trans; [|exact Hpow]. apply Z.pow_le_mono_r; lia.
Qed.

(** ** The probe sequence of a key whose second hash is [m - 1] *)

Lemma ht_get_hash_zero_step (s : string) (m ha attempt : Z) :
  ht_hash s HT_PRIME_1 m = Some ha →
  ht_hash s HT_PRIME_2 m = Some (m - 1) →
  0 ≤ ha < m → 0 ≤ attempt →
  ht_get_hash s m attempt = None ∨ ht_get_hash s m attempt = Some ha.
Proof.
  intros Ha Hb Hr Hat. unfold ht_get_hash. rewrite Ha, Hb. simpl.
  replace (m - 1 + 1) with m by lia.
  destruct (chk_int m) as [step|] eqn:E1; simpl; [|by left].
  apply chk_int_Some in E1 as [-> _].
  destruct (chk_int (attempt * m)) as [off|] eqn:E2; simpl; [|by left].
  apply chk_int_Some in E2 as [-> _].
  destruct (chk_int (ha + attempt * m)) as [sum|] eqn:E3; simpl; [|by left].
  apply chk_int_Some in E3 as [-> _].
  right. apply c_rem_Some. split; [lia|].
  assert (0 ≤ attempt * m) by (apply Z.mul_nonneg_nonneg; lia).
  rewrite Z.rem_add; [symmetry; apply Z.rem_small|..]; [lia..|].
  apply Z.mul_nonneg_nonneg; lia.
Qed.

(** With a prime number of buckets the first [m] attempts give pairwise
    distinct indices, provided the second hash is not [m - 1]. *)
Lemma probe_distinct (m ha step i j : Z) :
  Z.prime m → 0 < step < m → 0 ≤ i < j → j < m →
  (ha + i * step) mod m ≠ (ha + j * step) mod m.
Proof.
  intros Hp Hs Hi Hj [n Hn]%Z.cong_iff_ex.
  assert ((m | (j - i) * step)) as Hd by (exists (- n); lia).
  apply (Z.divide_prime_mul _ _ _ Hp) in Hd as [Hd|Hd];
    apply Z.divide_pos_le in Hd; lia.
Qed.

Lemma ht_get_hash_distinct (s : string) (m ha hb i j x y : Z) :
  Z.prime m →
  ht_hash s HT_PRIME_1 m = Some ha → ht_hash s HT_PRIME_2 m = Some hb →
  0 ≤ ha → 0 ≤ hb < m - 1 → 0 ≤ i < j → j < m →
  ht_get_hash s m i = Some x → ht_get_hash s m j = Some y → x ≠ y.
Proof.
  intros Hp Ha Hb Hha Hhb Hi Hj. unfold ht_get_hash. rewrite Ha, Hb.
  cbn [mbind option_bind].
  destruct (chk_int (hb + 1)) as [step|] eqn:E0; [|done].
  apply chk_int_Some in E0 as [-> _]. cbn [mbind option_bind].
  intros Hx Hy.
  destruct (chk_int (i * (hb + 1))) as [oi|] eqn:E1; simplify_eq/=.
  destruct (chk_int (j * (hb + 1))) as [oj|] eqn:E2; simplify_eq/=.
  apply chk_int_Some in E1 as [-> _]. apply chk_int_Some in E2 as [-> _].
  destruct (chk_int (ha + i * (hb + 1))) as [si|] eqn:E3; simplify_eq/=.
  destruct (chk_int (ha + j * (hb + 1))) as [sj|] eqn:E4; simplify_eq/=.
  apply chk_int_Some in E3 as [-> _]. apply chk_int_Some in E4 as [-> _].
  apply c_rem_Some in Hx as [Hm ->]. apply c_rem_Some in Hy as [_ ->].
  destruct Hp as [Hm1 Hp'].
  rewrite !Z.rem_mod_nonneg by nia.
  apply probe_distinct; [by split|lia..].
Qed.

(** ** Probe sequences *)

Lemma attempt_fun ht k n i1 b1 i2 b2 :
  attempt ht k n i1 b1 → attempt ht k n i2 b2 → i1 = i2 ∧ b1 = b2.
Proof.
  intros (H1 & G1 & _) (H2 & G2 & _).
  assert (i1 = i2) as -> by congruence. split; congruence.
Qed.

Lemma scan_fun ht k n i1 b1 i2 b2 :
  scan ht k n i1 b1 → scan ht k n i2 b2 → i1 = i2 ∧ b1 = b2.
Proof. intros [H1 _] [H2 _]. eapply attempt_fun; eauto. Qed.

Lemma scan_0 ht k index b :
  ht_get_hash k (size ht) 0 = Some index → get_item ht index = Some b →
  scan ht k 0 index b.
Proof.
  intros H1 H2. split; [|intros j Hj; lia].
  split; [done|]. split; [done|]. unfold INT_MAX. simpl. lia.
Qed.

Lemma scan_S ht k n index b index' b' :
  scan ht k n index b → skippable b k →
  ht_get_hash k (size ht) (Z.of_nat n + 1) = Some index' →
  get_item ht index' = Some b' →
  Z.of_nat n + 1 + 1 ≤ INT_MAX →
  scan ht k (S n) index' b'.
Proof.
  intros [Ha Hpre] Hskip H1 H2 H3.
  replace (Z.of_nat n + 1) with (Z.of_nat (S n)) in * by lia.
  split; [done|]. intros j Hj.
  destruct (decide (j = n)) as [->|]; [eauto|]. apply Hpre. lia.
Qed.

Lemma scan_prefix ht k n index b j :
  scan ht k n index b → (j < n)%nat →
  ∃ idx bj, scan ht k j idx bj ∧ skippable bj k.
Proof.
  intros [_ Hpre] Hj. destruct (Hpre j Hj) as (idx & bj & Ha & Hs).
  exists idx, bj. split; [|done]. split; [done|]. intros j' Hj'. apply Hpre. lia.
Qed.

(** Two scans for the same key that both stop (at [NULL] or at the key)
    stop at the same attempt. *)
Lemma scan_stop_unique ht k n1 i1 b1 n2 i2 b2 :
  scan ht k n1 i1 b1 → ¬ skippable b1 k →
  scan ht k n2 i2 b2 → ¬ skippable b2 k →
  n1 = n2 ∧ i1 = i2 ∧ b1 = b2.
Proof.
  intros H1 S1 H2 S2.
  assert (n1 = n2) as ->.
  { destruct (Nat.lt_trichotomy n1 n2) as [Hlt|[->|Hlt]]; [|done|]; exfalso.
    - destruct (scan_prefix _ _ _ _ _ _ H2 Hlt) as (i & b & H & Hs).
      destruct (scan_fun _ _ _ _ _ _ _ H1 H) as [_ ->]. done.
    - destruct (scan_prefix _ _ _ _ _ _ H1 Hlt) as (i & b & H & Hs).
      destruct (scan_fun _ _ _ _ _ _ _ H2 H) as [_ ->]. done. }
  split; [done|]. eapply scan_fun; eauto.
Qed.

Lemma skippable_dec b k : skippable b k ∨ b = NULL ∨ key_matches b k = true.
Proof.
  unfold skippable. destruct b; simpl; auto.
  destruct (String.eqb (key i) k); auto.
Qed.

(** *** The loop of [ht_insert] *)

Lemma ht_insert_loop_inv fuel ht item n index cur ht' :
  scan ht (key item) n index cur →
  ht_insert_loop fuel ht item index cur (Z.of_nat n + 1) = Some ht' →
  ∃ n' index' b, (n ≤ n' ≤ n + fuel)%nat ∧
    scan ht (key item) n' index' b ∧ placed ht item index' b ht'.
Proof.
  revert n index cur. induction fuel as [|fuel IH]; intros n index cur Hscan Hrun.
  - exists n, index, cur. split; [lia|]. split; [done|].
    destruct cur; simpl in Hrun.
    + destruct (chk_int (count ht + 1)) as [c|] eqn:Hc; simplify_eq/=.
      pose proof Hc as Hc'. apply chk_int_Some in Hc' as [-> _]. by apply placed_new.
    + done.
    + destruct (String.eqb (key i) (key item)) eqn:E; simplify_eq/=. by apply placed_update.
  - destruct (skippable_dec cur (key item)) as [Hskip|[->|Hm]].
    + assert (ht_insert_loop (S fuel) ht item index cur (Z.of_nat n + 1) =
        index' ← ht_get_hash (key item) (size ht) (Z.of_nat n + 1);
        cur' ← get_item ht index';
        i' ← chk_int (Z.of_nat n + 1 + 1);
        ht_insert_loop fuel ht item index' cur' i') as E.
      { destruct Hskip as [Hn Hk]. destruct cur; [done|done|]. simpl in *. by rewrite Hk. }
      rewrite E in Hrun. clear E.
      destruct (ht_get_hash _ _ _) as [index'|] eqn:E1; simplify_eq/=.
      destruct (get_item ht index') as [cur'|] eqn:E2; simplify_eq/=.
      destruct (chk_int _) as [i'|] eqn:E3; simplify_eq/=.
      apply chk_int_Some in E3 as [-> E3].
      assert (scan ht (key item) (S n) index' cur') as Hscan'.
      { eapply scan_S; eauto. lia. }
      replace (Z.of_nat n + 1 + 1) with (Z.of_nat (S n) + 1) in Hrun by lia.
      destruct (IH _ _ _ Hscan' Hrun) as (n' & idx & b & Hn' & Hs & Hp).
      exists n', idx, b. split; [lia|done].
    + exists n, index, NULL. split; [lia|]. split; [done|]. simpl in Hrun.
      destruct (chk_int (count ht + 1)) as [c|] eqn:Hc; simplify_eq/=.
      pose proof Hc as Hc'. apply chk_int_Some in Hc' as [-> _]. by apply placed_new.
    + exists n, index, cur. split; [lia|]. split; [done|].
      destruct cur; [done|done|]. simpl in *. rewrite Hm in Hrun. simplify_eq.
      by apply placed_update.
Qed.

Lemma ht_insert_place_inv fuel ht k v ht' :
  ht_insert_place fuel ht k v = Some ht' →
  ∃ n index b, (n ≤ fuel)%nat ∧ scan ht k n index b ∧
    placed ht (ht_new_item k v) index b ht'.
Proof.
  unfold ht_insert_place. intros Hrun.
  destruct (ht_get_hash _ _ _) as [index|] eqn:E1; simplify_eq/=.
  destruct (get_item ht index) as [cur|] eqn:E2; simplify_eq/=.
  pose proof (scan_0 ht k index cur E1 E2) as Hscan.
  destruct (ht_insert_loop_inv fuel ht (ht_new_item k v) 0 index cur ht' Hscan Hrun)
    as (n & idx & b & Hn & Hs & Hp).
  exists n, idx, b. split; [lia|done].
Qed.

(** Conversely the loop stops where the scan does. *)
Lemma ht_insert_loop_run ht item n index b ht' :
  scan ht (key item) n index b → placed ht item index b ht' →
  ∀ j idx bj, (j ≤ n)%nat → scan ht (key item) j idx bj →
  ht_insert_loop (n - j) ht item idx bj (Z.of_nat j + 1) = Some ht'.
Proof.
  intros Hscan Hp j. remember (n - j)%nat as d eqn:Hd.
  revert j Hd. induction d as [|d IH]; intros j Hd idx bj Hj Hs.
  - assert (j = n) as -> by lia.
    destruct (scan_fun _ _ _ _ _ _ _ Hscan Hs) as [-> ->].
    destruct Hp as [-> Hc ->| Hm ->]; simpl.
    + by rewrite Hc.
    + destruct bj; [done|done|]. simpl in *. by rewrite Hm.
  - assert (j < n)%nat as Hlt by lia.
    destruct (scan_prefix _ _ _ _ _ _ Hscan Hlt) as (idx0 & b0 & Hs0 & [Hnn Hk]).
    destruct (scan_fun _ _ _ _ _ _ _ Hs Hs0) as [-> ->].
    destruct (decide (S j = n)) as [En|En].
    + assert (∃ i' b', scan ht (key item) (S j) i' b') as (i' & b' & Hs').
      { subst n. eauto. }
      pose proof Hs' as [(G1 & G2 & G3) _].
      replace (Z.of_nat (S j)) with (Z.of_nat j + 1) in G1, G3 by lia.
      assert (ht_insert_loop (S d) ht item idx0 b0 (Z.of_nat j + 1) =
        ht_insert_loop d ht item i' b' (Z.of_nat j + 1 + 1)) as ->.
      { destruct b0; [done| |]; simpl in *; rewrite ?Hk, G1; simpl; rewrite G2; simpl;
          rewrite chk_int_in by (unfold INT_MIN; lia); done. }
      replace (Z.of_nat j + 1 + 1) with (Z.of_nat (S j) + 1) by lia.
      apply IH; [lia..|done].
    + assert (S j < n)%nat as Hlt' by lia.
      destruct (scan_prefix _ _ _ _ _ _ Hscan Hlt') as (i' & b' & Hs' & _).
      pose proof Hs' as [(G1 & G2 & G3) _].
      replace (Z.of_nat (S j)) with (Z.of_nat j + 1) in G1, G3 by lia.
      assert (ht_insert_loop (S d) ht item idx0 b0 (Z.of_nat j + 1) =
        ht_insert_loop d ht item i' b' (Z.of_nat j + 1 + 1)) as ->.
      { destruct b0; [done| |]; simpl in *; rewrite ?Hk, G1; simpl; rewrite G2; simpl;
          rewrite chk_int_in by (unfold INT_MIN; lia); done. }
      replace (Z.of_nat j + 1 + 1) with (Z.of_nat (S j) + 1) by lia.
      apply IH; [lia..|done].
Qed.

Lemma ht_insert_place_run ht k v n index b ht' :
  scan ht k n index b → placed ht (ht_new_item k v) index b ht' →
  ht_insert_place n ht k v = Some ht'.
Proof.
  intros Hscan Hp.
  assert (∃ i0 b0, scan ht k 0 i0 b0) as (i0 & b0 & H0).
  { destruct n; [eauto|]. destruct (scan_prefix _ _ _ _ _ 0%nat Hscan ltac:(lia)) as (?&?&?&?); eauto. }
  pose proof H0 as [(G1 & G2 & _) _]. unfold ht_insert_place.
  change (Z.of_nat 0) with 0 in G1. cbn [key ht_new_item].
  rewrite G1. cbn [mbind option_bind]. rewrite G2. cbn [mbind option_bind].
  pose proof (ht_insert_loop_run ht (ht_new_item k v) n index b ht' Hscan Hp 0 i0 b0) as H.
  rewrite Nat.sub_0_r in H. apply H; [lia|done].
Qed.

(** *** The loop of [ht_search] *)


Lemma key_matches_Ptr b k :
  key_matches b k = true ↔ ∃ it, b = Ptr it ∧ key it = k.
Proof.
  destruct b as [| |it]; simpl.
  - split; [done|]. by intros (? & ? & ?).
  - split; [done|]. by intros (? & ? & ?).
  - rewrite String.eqb_eq. split; [eauto|]. by intros (? & [= <-] & ?).
Qed.

Lemma ht_search_loop_inv fuel ht k n index item r ht' :
  scan ht k n index item →
  ht_search_loop fuel ht k item (Z.of_nat n + 1) = Some (r, ht') →
  ht' = ht ∧ ∃ n' index' b, (n ≤ n' ≤ n + fuel)%nat ∧
    scan ht k n' index' b ∧ found k b r.
Proof.
  revert n index item. induction fuel as [|fuel IH]; intros n index item Hscan Hrun.
  - destruct item as [| |it]; simpl in Hrun; simplify_eq.
    + split; [done|]. exists n, index, NULL. split; [lia|]. split; [done|]. constructor.
    + destruct (String.eqb (key it) k) eqn:E; simplify_eq.
      split; [done|]. exists n, index, (Ptr it). split; [lia|]. split; [done|].
      constructor. by apply String.eqb_eq.
  - destruct (skippable_dec item k) as [Hskip|[->|Hm]].
    + assert (ht_search_loop (S fuel) ht k item (Z.of_nat n + 1) =
        index' ← ht_get_hash k (size ht) (Z.of_nat n + 1);
        item' ← get_item ht index';
        i' ← chk_int (Z.of_nat n + 1 + 1);
        ht_search_loop fuel ht k item' i') as E.
      { destruct Hskip as [Hn Hk]. destruct item; [done|done|]. simpl in *. by rewrite Hk. }
      rewrite E in Hrun. clear E.
      destruct (ht_get_hash _ _ _) as [index'|] eqn:E1; simplify_eq/=.
      destruct (get_item ht index') as [item'|] eqn:E2; simplify_eq/=.
      destruct (chk_int _) as [i'|] eqn:E3; simplify_eq/=.
      apply chk_int_Some in E3 as [-> E3].
      assert (scan ht k (S n) index' item') as Hscan'.
      { eapply scan_S; eauto. lia. }
      replace (Z.of_nat n + 1 + 1) with (Z.of_nat (S n) + 1) in Hrun by lia.
      destruct (IH _ _ _ Hscan' Hrun) as (-> & n' & idx & b & Hn' & Hs & Hp).
      split; [done|]. exists n', idx, b. split; [lia|done].
    + simpl in Hrun. simplify_eq. split; [done|].
      exists n, index, NULL. split; [lia|]. split; [done|]. constructor.
    + pose proof Hm as (it & -> & Hk)%key_matches_Ptr. simpl in Hrun, Hm.
      rewrite Hm in Hrun. simplify_eq. split; [done|].
      exists n, index, (Ptr it). split; [lia|]. split; [done|]. by constructor.
Qed.

Lemma ht_search_inv fuel ht k r ht' :
  ht_search fuel ht k = Some (r, ht') →
  ht' = ht ∧ ∃ n index b, (n ≤ fuel)%nat ∧ scan ht k n index b ∧ found k b r.
Proof.
  unfold ht_search. intros Hrun.
  destruct (ht_get_hash _ _ _) as [index|] eqn:E1; simplify_eq/=.
  destruct (get_item ht index) as [item|] eqn:E2; simplify_eq/=.
  pose proof (scan_0 ht k index item E1 E2) as Hscan.
  destruct (ht_search_loop_inv fuel ht k 0 index item r ht' Hscan Hrun)
    as (-> & n & idx & b & Hn & Hs & Hp).
  split; [done|]. exists n, idx, b. split; [lia|done].
Qed.

Lemma ht_search_loop_run ht k n index b r :
  scan ht k n index b → found k b r →
  ∀ j idx bj, (j ≤ n)%nat → scan ht k j idx bj →
  ht_search_loop (n - j) ht k bj (Z.of_nat j + 1) = Some (r, ht).
Proof.
  intros Hscan Hf j. remember (n - j)%nat as d eqn:Hd.
  revert j Hd. induction d as [|d IH]; intros j Hd idx bj Hj Hs.
  - assert (j = n) as -> by lia.
    destruct (scan_fun _ _ _ _ _ _ _ Hscan Hs) as [-> ->].
    destruct Hf as [|it <-]; simpl; [done|]. by rewrite String.eqb_refl.
  - assert (j < n)%nat as Hlt by lia.
    destruct (scan_prefix _ _ _ _ _ _ Hscan Hlt) as (idx0 & b0 & Hs0 & [Hnn Hk]).
    destruct (scan_fun _ _ _ _ _ _ _ Hs Hs0) as [-> ->].
    assert (∃ i' b', scan ht k (S j) i' b') as (i' & b' & Hs').
    { destruct (decide (S j = n)) as [En|En]; [subst n; eauto|].
      destruct (scan_prefix _ _ _ _ _ (S j) Hscan ltac:(lia)) as (?&?&?&?); eauto. }
    pose proof Hs' as [(G1 & G2 & G3) _].
    replace (Z.of_nat (S j)) with (Z.of_nat j + 1) in G1, G3 by lia.
    assert (ht_search_loop (S d) ht k b0 (Z.of_nat j + 1) =
      ht_search_loop d ht k b' (Z.of_nat j + 1 + 1)) as ->.
    { destruct b0; [done| |]; simpl in *; rewrite ?Hk, G1; simpl; rewrite G2; simpl;
        rewrite chk_int_in by (unfold INT_MIN; lia); done. }
    replace (Z.of_nat j + 1 + 1) with (Z.of_nat (S j) + 1) by lia.
    apply IH with i'; [lia..|done].
Qed.

Lemma ht_search_run ht k n index b r :
  scan ht k n index b → found k b r → ht_search n ht k = Some (r, ht).
Proof.
  intros Hscan Hf.
  assert (∃ i0 b0, scan ht k 0 i0 b0) as (i0 & b0 & H0).
  { destruct n; [eauto|]. destruct (scan_prefix _ _ _ _ _ 0%nat Hscan ltac:(lia)) as (?&?&?&?); eauto. }
  pose proof H0 as [(G1 & G2 & _) _]. unfold ht_search.
  change (Z.of_nat 0) with 0 in G1.
  rewrite G1. cbn [mbind option_bind]. rewrite G2. cbn [mbind option_bind].
  pose proof (ht_search_loop_run ht k n index b r Hscan Hf 0 i0 b0) as H.
  rewrite Nat.sub_0_r in H. apply H; [lia|done].
Qed.

(** ** Reading and writing buckets *)

Lemma get_item_Some ht index b :
  get_item ht index = Some b ↔ 0 ≤ index ∧ items ht !! Z.to_nat index = Some b.
Proof.
  unfold get_item. destruct (Z.ltb_spec index 0) as [Hneg|Hpos].
  - split; [done|]. intros [? _]. lia.
  - split; [done|]. by intros [_ ?].
Qed.

Lemma get_item_of_nat ht (x : nat) : get_item ht (Z.of_nat x) = items ht !! x.
Proof.
  unfold get_item. destruct (Z.ltb_spec (Z.of_nat x) 0); [lia|]. by rewrite Nat2Z.id.
Qed.

Lemma get_item_set_item_eq ht index b0 b :
  get_item ht index = Some b0 → get_item (set_item ht index b) index = Some b.
Proof.
  intros [H0 H]%get_item_Some. apply get_item_Some. split; [done|]. simpl.
  apply list_lookup_insert_eq. by eapply lookup_lt_Some.
Qed.

Lemma get_item_set_item_ne ht index b j :
  0 ≤ index → j ≠ index → get_item (set_item ht index b) j = get_item ht j.
Proof.
  intros H0 Hne. unfold get_item. destruct (Z.ltb_spec j 0); [done|]. simpl.
  apply list_lookup_insert_ne. lia.
Qed.

Lemma get_item_set_count ht c j : get_item (set_count ht c) j = get_item ht j.
Proof. done. Qed.

(** ** Tables in which the same scans go through *)

Lemma keeps_skips_refl ht : keeps_skips ht ht.
Proof. split; [done|]. eauto. Qed.

Lemma keeps_skips_trans ht1 ht2 ht3 :
  keeps_skips ht1 ht2 → keeps_skips ht2 ht3 → keeps_skips ht1 ht3.
Proof.
  intros [S1 H1] [S2 H2]. split; [congruence|].
  intros k idx b Hb Hs. destruct (H1 k idx b Hb Hs) as (b' & Hb' & Hs'). eauto.
Qed.

Lemma keeps_skips_set_count ht c : keeps_skips ht (set_count ht c).
Proof. split; [done|]. eauto. Qed.

Lemma scan_keeps ht ht' k n index b b' :
  keeps_skips ht ht' → scan ht k n index b → get_item ht' index = Some b' →
  scan ht' k n index b'.
Proof.
  intros [Hsz Hk] [(G1 & G2 & G3) Hpre] Hb'. split.
  - split; [by rewrite Hsz|done].
  - intros j Hj. destruct (Hpre j Hj) as (idx & bj & (A1 & A2 & A3) & Hs).
    destruct (Hk k idx bj A2 Hs) as (bj' & ? & ?).
    exists idx, bj'. split; [|done]. split; [by rewrite Hsz|done].
Qed.

(** Writing an item over [NULL] or over an item with the same key. *)
Lemma keeps_skips_place ht item index b :
  get_item ht index = Some b →
  b = NULL ∨ key_matches b (key item) = true →
  keeps_skips ht (set_item ht index (Ptr item)).
Proof.
  intros Hb Hcase. split; [done|]. intros k idx b0 Hb0 [Hn Hk].
  pose proof Hb as [H0 _]%get_item_Some.
  destruct (decide (idx = index)) as [->|Hne].
  - rewrite Hb in Hb0. simplify_eq. exists (Ptr item).
    split; [by eapply get_item_set_item_eq|].
    destruct Hcase as [->|Hm]; [done|].
    apply key_matches_Ptr in Hm as (it & -> & Hit). split; [done|].
    simpl in *. by rewrite <- Hit.
  - exists b0. by rewrite get_item_set_item_ne.
Qed.

(** Writing [&HT_DELETED_ITEM] over a bucket that is not [NULL]. *)
Lemma keeps_skips_tombstone ht index b :
  get_item ht index = Some b → keeps_skips ht (set_item ht index HT_DELETED_ITEM).
Proof.
  intros Hb. split; [done|]. intros k idx b0 Hb0 Hs.
  pose proof Hb as [H0 _]%get_item_Some.
  destruct (decide (idx = index)) as [->|Hne].
  - exists HT_DELETED_ITEM. split; [by eapply get_item_set_item_eq|done].
  - exists b0. by rewrite get_item_set_item_ne.
Qed.

(** ** The loop of [ht_delete] *)

Lemma tombstones_refl k ht : tombstones k ht ht.
Proof. repeat split; auto. Qed.

Lemma tombstones_trans k ht1 ht2 ht3 :
  tombstones k ht1 ht2 → tombstones k ht2 ht3 → tombstones k ht1 ht3.
Proof.
  intros (A1 & A2 & A3 & A4 & A5) (B1 & B2 & B3 & B4 & B5).
  repeat split; [congruence..|].
  intros x b Hb. destruct (A5 x b Hb) as [H|[Hm H]].
  - destruct (B5 x b H) as [H'|[Hm' H']]; auto.
  - destruct (B5 x _ H) as [H'|[Hm' H']]; [auto|done].
Qed.

Lemma tombstones_step k ht index b :
  get_item ht index = Some b → key_matches b k = true →
  tombstones k ht (set_item ht index HT_DELETED_ITEM).
Proof.
  intros [H0 Hb]%get_item_Some Hm. repeat split; simpl; [by rewrite length_insert|].
  intros x b0 Hb0. destruct (decide (x = Z.to_nat index)) as [->|Hne].
  - right. simplify_eq. split; [done|]. apply list_lookup_insert_eq. by eapply lookup_lt_Some.
  - left. by rewrite list_lookup_insert_ne.
Qed.

Lemma tombstones_keeps_skips k ht ht' : tombstones k ht ht' → keeps_skips ht ht'.
Proof.
  intros (_ & Hsz & _ & _ & H). split; [done|].
  intros k0 idx b [H0 Hb]%get_item_Some Hs.
  destruct (H _ _ Hb) as [Hb'|[_ Hb']].
  - exists b. split; [|done]. by apply get_item_Some.
  - exists HT_DELETED_ITEM. split; [|done]. by apply get_item_Some.
Qed.


Lemma ht_delete_loop_0 ht k index item i :
  item ≠ NULL → ht_delete_loop 0 ht k index item i = None.
Proof.
  intros Hn. destruct item as [| |it]; [done|done|]. simpl.
  by destruct (String.eqb (key it) k).
Qed.

Lemma ht_delete_loop_S fuel ht k index item i :
  item ≠ NULL →
  ht_delete_loop (S fuel) ht k index item i =
    let ht1 := if key_matches item k then set_item ht index HT_DELETED_ITEM else ht in
    index' ← ht_get_hash k (size ht1) i;
    item' ← get_item ht1 index';
    i' ← chk_int (i + 1);
    ht_delete_loop fuel ht1 k index' item' i'.
Proof.
  intros Hn. destruct item as [| |it]; [done|done|]. simpl.
  by destruct (String.eqb (key it) k).
Qed.

Lemma ht_delete_loop_inv fuel ht k n index item ht' :
  scan ht k n index item →
  ht_delete_loop fuel ht k index item (Z.of_nat n + 1) = Some ht' →
  ∃ ht2 n' index', tombstones k ht ht2 ∧ scan ht2 k n' index' NULL ∧
    chk_int (count ht - 1) = Some (count ht - 1) ∧
    ht' = set_count ht2 (count ht - 1).
Proof.
  revert ht n index item.
  induction fuel as [|fuel IH]; intros ht n index item Hscan Hrun.
  - destruct (decide (item = NULL)) as [->|Hnn];
      [|by rewrite ht_delete_loop_0 in Hrun]. simpl in Hrun.
    destruct (chk_int (count ht - 1)) as [c|] eqn:Hc; simplify_eq/=.
    pose proof Hc as [-> _]%chk_int_Some.
    exists ht, n, index. split; [apply tombstones_refl|done].
  - destruct (decide (item = NULL)) as [->|Hnn].
    { simpl in Hrun.
      destruct (chk_int (count ht - 1)) as [c|] eqn:Hc; simplify_eq/=.
      pose proof Hc as [-> _]%chk_int_Some.
      exists ht, n, index. split; [apply tombstones_refl|done]. }
    set (ht1 := if key_matches item k then set_item ht index HT_DELETED_ITEM else ht).
    assert (ht_delete_loop (S fuel) ht k index item (Z.of_nat n + 1) =
      index' ← ht_get_hash k (size ht1) (Z.of_nat n + 1);
      item' ← get_item ht1 index';
      i' ← chk_int (Z.of_nat n + 1 + 1);
      ht_delete_loop fuel ht1 k index' item' i') as E.
    { by rewrite ht_delete_loop_S. }
    rewrite E in Hrun. clear E.
    pose proof Hscan as [(_ & Hget & _) _].
    assert (tombstones k ht ht1) as Ht.
    { unfold ht1. destruct (key_matches item k) eqn:Hm;
        [by eapply tombstones_step|apply tombstones_refl]. }
    assert (∃ item1, get_item ht1 index = Some item1 ∧ skippable item1 k) as (item1 & Hget1 & Hskip1).
    { unfold ht1. destruct (key_matches item k) eqn:Hm.
      - exists HT_DELETED_ITEM. split; [by eapply get_item_set_item_eq|done].
      - exists item. done. }
    pose proof (scan_keeps _ _ _ _ _ _ _ (tombstones_keeps_skips _ _ _ Ht) Hscan Hget1) as Hscan1.
    destruct (ht_get_hash _ _ _) as [index'|] eqn:E1; simplify_eq/=.
    destruct (get_item ht1 index') as [item'|] eqn:E2; simplify_eq/=.
    destruct (chk_int _) as [i'|] eqn:E3; simplify_eq/=.
    apply chk_int_Some in E3 as [-> E3].
    assert (scan ht1 k (S n) index' item') as Hscan'.
    { eapply scan_S; eauto. lia. }
    replace (Z.of_nat n + 1 + 1) with (Z.of_nat (S n) + 1) in Hrun by lia.
    destruct (IH _ _ _ _ Hscan' Hrun) as (ht2 & n' & idx & Ht2 & Hs & Hc & ->).
    destruct Ht as (T1 & T2 & T3 & T4 & T5).
    rewrite T3 in *.
    exists ht2, n', idx. split; [|done].
    eapply tombstones_trans; [|done]. repeat split; done.
Qed.

Lemma ht_delete_scan_inv fuel ht k ht' :
  ht_delete_scan fuel ht k = Some ht' →
  ∃ ht2 n index, tombstones k ht ht2 ∧ scan ht2 k n index NULL ∧
    chk_int (count ht - 1) = Some (count ht - 1) ∧
    ht' = set_count ht2 (count ht - 1).
Proof.
  unfold ht_delete_scan. intros Hrun.
  destruct (ht_get_hash _ _ _) as [index|] eqn:E1; simplify_eq/=.
  destruct (get_item ht index) as [item|] eqn:E2; simplify_eq/=.
  pose proof (scan_0 ht k index item E1 E2) as Hscan.
  exact (ht_delete_loop_inv fuel ht k 0 index item ht' Hscan Hrun).
Qed.


(** ** Well-formed tables *)

Lemma Ptr_not_skippable it : ¬ skippable (Ptr it) (key it).
Proof. intros [_ H]. simpl in H. by rewrite String.eqb_refl in H. Qed.

(** In a well-formed table a key is live in at most one bucket. *)
Lemma wf_unique ht x y it it' :
  ht_wf ht → items ht !! x = Some (Ptr it) → items ht !! y = Some (Ptr it') →
  key it = key it' → x = y.
Proof.
  intros Hwf Hx Hy Hk.
  destruct (wf_reach _ Hwf _ _ Hx) as [n Hn].
  destruct (wf_reach _ Hwf _ _ Hy) as [m Hm]. rewrite <- Hk in Hm.
  destruct (scan_stop_unique _ _ _ _ _ _ _ _ Hn (Ptr_not_skippable it) Hm) as (_ & E & _).
  - rewrite Hk. apply Ptr_not_skippable.
  - lia.
Qed.

Lemma live_fun ht k v v' : ht_wf ht → live ht k v → live ht k v' → v = v'.
Proof.
  intros Hwf [x Hx] [y Hy].
  assert (x = y) as -> by (by eapply wf_unique). congruence.
Qed.

(** A scan that stops at [NULL] shows that the key is not live. *)
Lemma scan_null_not_live ht k n index v :
  ht_wf ht → scan ht k n index NULL → ¬ live ht k v.
Proof.
  intros Hwf Hs [x Hx].
  destruct (wf_reach _ Hwf _ _ Hx) as [m Hm]. simpl in Hm.
  destruct (scan_stop_unique _ _ _ _ _ _ _ _ Hs ltac:(by intros []) Hm
    (Ptr_not_skippable {| key := k; value := v |})) as (_ & _ & ?). done.
Qed.

Lemma placed_cases ht item index b ht' :
  placed ht item index b ht' →
  (b = NULL ∨ key_matches b (key item) = true) ∧
  size ht' = size ht ∧ base_size ht' = base_size ht ∧
  items ht' = <[Z.to_nat index := Ptr item]> (items ht).
Proof. intros [-> _ ->|Hm ->]; simpl; auto. Qed.

Lemma placed_not_skippable ht item index b ht' :
  placed ht item index b ht' → ¬ skippable b (key item).
Proof. intros [-> _ _|Hm _] [Hn Hk]; congruence. Qed.

Lemma placed_keeps_skips ht item index b ht' :
  get_item ht index = Some b → placed ht item index b ht' → keeps_skips ht ht'.
Proof.
  intros Hb [-> _ ->|Hm ->].
  - eapply keeps_skips_trans; [|apply keeps_skips_set_count].
    eapply keeps_skips_place; eauto.
  - eapply keeps_skips_place; eauto.
Qed.

Lemma placed_get_item ht item index b ht' :
  get_item ht index = Some b → placed ht item index b ht' →
  get_item ht' index = Some (Ptr item).
Proof.
  intros Hb [-> _ ->|Hm ->]; [rewrite get_item_set_count|]; by eapply get_item_set_item_eq.
Qed.

(** Well-formedness and the live items after the last step of an insert. *)
Lemma placed_spec ht item n index b ht' :
  ht_wf ht → scan ht (key item) n index b → placed ht item index b ht' →
  ht_wf ht' ∧
  ∀ k v, live ht' k v ↔
    (k = key item ∧ v = value item) ∨ (k ≠ key item ∧ live ht k v).
Proof.
  intros Hwf Hscan Hp.
  pose proof Hscan as [(_ & Hb & _) _].
  pose proof Hb as [H0 Hb']%get_item_Some.
  pose proof (placed_cases _ _ _ _ _ Hp) as (Hcase & Hsz & _ & Hit).
  pose proof (placed_keeps_skips _ _ _ _ _ Hb Hp) as Hks.
  pose proof (placed_get_item _ _ _ _ _ Hb Hp) as Hnew.
  pose proof (lookup_lt_Some _ _ _ Hb') as Hlt.
  split; [split|].
  - rewrite Hit, length_insert, Hsz. apply Hwf.
  - intros x it Hx. rewrite Hit in Hx.
    destruct (decide (x = Z.to_nat index)) as [->|Hne].
    + rewrite list_lookup_insert_eq in Hx by done. simplify_eq.
      exists n. rewrite Z2Nat.id by done. by eapply scan_keeps.
    + rewrite list_lookup_insert_ne in Hx by done.
      destruct (wf_reach _ Hwf _ _ Hx) as [m Hm]. exists m.
      eapply scan_keeps; [done..|].
      rewrite get_item_of_nat, Hit. by rewrite list_lookup_insert_ne.
  - intros k v. unfold live. rewrite Hit. split.
    + intros [x Hx]. destruct (decide (x = Z.to_nat index)) as [->|Hne].
      * rewrite list_lookup_insert_eq in Hx by done. simplify_eq. by left.
      * rewrite list_lookup_insert_ne in Hx by done. right. split; [|eauto].
        intros ->. destruct (wf_reach _ Hwf _ _ Hx) as [m Hm]. simpl in Hm.
        destruct (scan_stop_unique _ _ _ _ _ _ _ _ Hscan
          (placed_not_skippable _ _ _ _ _ Hp) Hm
          (Ptr_not_skippable {| key := key item; value := v |})) as (_ & E & _).
        lia.
    + intros [[-> ->]|[Hne [x Hx]]].
      * exists (Z.to_nat index). rewrite list_lookup_insert_eq by done. by destruct item.
      * exists x. rewrite list_lookup_insert_ne; [done|]. intros <-.
        rewrite Hb' in Hx. simplify_eq.
        destruct Hcase as [?|(it & ? & ?)%key_matches_Ptr]; simplify_eq/=.
Qed.

Lemma tombstones_wf k ht ht' : ht_wf ht → tombstones k ht ht' → ht_wf ht'.
Proof.
  intros Hwf Ht. pose proof (tombstones_keeps_skips _ _ _ Ht) as Hks.
  destruct Ht as (_ & Hsz & _ & Hlen & H). split.
  - rewrite Hlen, Hsz. apply Hwf.
  - intros x it Hx.
    assert (is_Some (items ht !! x)) as [b Hb].
    { apply lookup_lt_is_Some. rewrite <- Hlen. by eapply lookup_lt_Some. }
    assert (b = Ptr it) as -> by (destruct (H _ _ Hb) as [?|[_ ?]]; congruence).
    destruct (wf_reach _ Hwf _ _ Hb) as [m Hm]. exists m.
    eapply scan_keeps; [done..|]. by rewrite get_item_of_nat.
Qed.

Lemma set_count_wf ht c : ht_wf ht → ht_wf (set_count ht c).
Proof. intros [H1 H2]. split; [done|]. intros x it Hx. exact (H2 x it Hx). Qed.

Lemma ht_new_sized_wf base ht :
  ht_new_sized base = Some ht → ht_wf ht ∧ ∀ k v, ¬ live ht k v.
Proof.
  unfold ht_new_sized. intros H.
  destruct (next_prime base) as [sz|]; simplify_eq/=. split; [split|]; simpl.
  - by rewrite length_replicate.
  - intros x it [? _]%lookup_replicate. done.
  - intros k v [x [? _]%lookup_replicate]. done.
Qed.

(** ** What insert and resize do to a well-formed table *)

Lemma ht_resize_inv ins ht base ht' :
  ht_resize ins ht base = Some ht' →
  (base < HT_INITIAL_BASE_SIZE ∧ ht' = ht) ∨
  (HT_INITIAL_BASE_SIZE ≤ base ∧
   ∃ new_ht, ht_new_sized base = Some new_ht ∧
     ht_resize_loop ins (Z.to_nat (size ht)) ht 0 new_ht = Some ht' ∧
     ht_del_hash_table ht = Some ()).
Proof.
  unfold ht_resize. destruct (Z.ltb_spec base HT_INITIAL_BASE_SIZE) as [Hlt|Hge].
  - intros [= <-]. by left.
  - intros Hrun. right. split; [done|].
    destruct (ht_new_sized base) as [new_ht|]; simplify_eq/=.
    destruct (ht_resize_loop _ _ _ _ _) as [new_ht'|] eqn:Hloop; simplify_eq/=.
    destruct (ht_del_hash_table ht) as [[]|]; simplify_eq/=.
    exists new_ht. done.
Qed.

Lemma ht_insert_place_spec fuel : insert_spec (ht_insert_place fuel).
Proof.
  intros ht k v ht' Hwf Hrun.
  destruct (ht_insert_place_inv _ _ _ _ _ Hrun) as (n & index & b & _ & Hs & Hp).
  exact (placed_spec ht (ht_new_item k v) n index b ht' Hwf Hs Hp).
Qed.

Section ResizeSpec.
Variable ins : ht_hash_table → string → string → option ht_hash_table.
Hypothesis ins_spec : insert_spec ins.

Lemma ht_resize_loop_spec n ht (i : nat) new_ht new_ht' :
  ht_wf ht → ht_wf new_ht →
  (∀ k v, live new_ht k v ↔
     ∃ x, (x < i)%nat ∧ items ht !! x = Some (Ptr {| key := k; value := v |})) →
  ht_resize_loop ins n ht (Z.of_nat i) new_ht = Some new_ht' →
  ht_wf new_ht' ∧
  ∀ k v, live new_ht' k v ↔
     ∃ x, (x < i + n)%nat ∧ items ht !! x = Some (Ptr {| key := k; value := v |}).
Proof.
  intros Hwf. revert i new_ht.
  induction n as [|n IH]; intros i new_ht Hnew Hlive Hrun; simpl in Hrun.
  - simplify_eq. rewrite Nat.add_0_r. done.
  - rewrite get_item_of_nat in Hrun.
    destruct (items ht !! i) as [item|] eqn:Hi; simplify_eq/=.
    destruct (match item with Ptr it => ins new_ht (key it) (value it) | _ => Some new_ht end)
      as [new1|] eqn:Hins; simplify_eq/=.
    replace (Z.of_nat i + 1) with (Z.of_nat (S i)) in Hrun by lia.
    replace (i + S n)%nat with (S i + n)%nat by lia.
    assert (ht_wf new1 ∧ ∀ k v, live new1 k v ↔
      ∃ x, (x < S i)%nat ∧ items ht !! x = Some (Ptr {| key := k; value := v |}))
      as [Hwf1 Hlive1]; [|by eapply IH].
    assert ((∃ it, item = Ptr it) ∨ (∀ it, item ≠ Ptr it)) as [[it ->]|Hnp]
      by (destruct item; eauto).
    + destruct (ins_spec _ _ _ _ Hnew Hins) as [Hwf1 Hl1]. split; [done|].
      intros k v. rewrite Hl1, Hlive. split.
      * intros [[-> ->]|[Hne (x & Hx & Hit)]].
        -- exists i. split; [lia|]. by destruct it.
        -- exists x. split; [lia|done].
      * intros (x & Hx & Hit). destruct (decide (x = i)) as [->|Hxi].
        -- left. rewrite Hi in Hit. by simplify_eq.
        -- right. split; [|exists x; split; [lia|done]].
           intros ->. apply Hxi. exact (wf_unique ht x i _ _ Hwf Hit Hi eq_refl).
    + assert (new1 = new_ht) as ->.
      { destruct item as [| |it]; [by simplify_eq..|]. by destruct (Hnp it). }
      split; [done|]. intros k v. rewrite Hlive. split.
      * intros (x & Hx & Hit). exists x. split; [lia|done].
      * intros (x & Hx & Hit). exists x. split; [|done].
        destruct (decide (x = i)) as [->|]; [|lia].
        rewrite Hi in Hit. simplify_eq. by destruct (Hnp {| key := k; value := v |}).
Qed.

(** A resize keeps the live items. *)
Lemma ht_resize_spec ht base ht' :
  ht_wf ht → ht_resize ins ht base = Some ht' →
  ht_wf ht' ∧ ∀ k v, live ht' k v ↔ live ht k v.
Proof.
  intros Hwf [[_ ->]|(_ & new_ht & Hnew & Hrun & _)]%ht_resize_inv; [done|].
  destruct (ht_new_sized_wf _ _ Hnew) as [Hwfn Hempty].
  destruct (ht_resize_loop_spec (Z.to_nat (size ht)) ht 0 new_ht ht' Hwf Hwfn) as [Hwf' Hl].
  - intros k v. split; [by intros ?%Hempty|]. intros (x & ? & _). lia.
  - done.
  - split; [done|]. intros k v. rewrite Hl. unfold live. split.
    + intros (x & _ & Hx). eauto.
    + intros [x Hx]. exists x. split; [|done].
      rewrite <- (wf_length _ Hwf). by eapply lookup_lt_Some.
Qed.

Lemma ht_insert_resize_spec ht ht' :
  ht_wf ht → ht_insert_resize ins ht = Some ht' →
  ht_wf ht' ∧ ∀ k v, live ht' k v ↔ live ht k v.
Proof.
  intros Hwf. unfold ht_insert_resize, ht_resize_up. intros Hrun.
  destruct (ht_load ht) as [load|]; simplify_eq/=.
  destruct (70 <? load); [|by simplify_eq].
  destruct (chk_int _) as [new_size|]; simplify_eq/=.
  by eapply ht_resize_spec.
Qed.

Lemma ht_delete_resize_spec ht ht' :
  ht_wf ht → ht_delete_resize ins ht = Some ht' →
  ht_wf ht' ∧ ∀ k v, live ht' k v ↔ live ht k v.
Proof.
  intros Hwf. unfold ht_delete_resize, ht_resize_down. intros Hrun.
  destruct (ht_load ht) as [load|]; simplify_eq/=.
  destruct (load <? 10); [|by simplify_eq].
  by eapply ht_resize_spec.
Qed.
End ResizeSpec.

Lemma ht_insert_spec fuel : insert_spec (ht_insert fuel).
Proof.
  induction fuel as [|fuel IH]; intros ht k v ht' Hwf Hrun; [done|].
  simpl in Hrun.
  destruct (ht_insert_resize (ht_insert fuel) ht) as [ht1|] eqn:Hres; simplify_eq/=.
  destruct (ht_insert_resize_spec _ IH _ _ Hwf Hres) as [Hwf1 Hl1].
  destruct (ht_insert_place_spec _ _ _ _ _ Hwf1 Hrun) as [Hwf' Hl'].
  split; [done|]. intros k' v'. rewrite Hl'. by setoid_rewrite Hl1.
Qed.

(** ** What search and delete do to a well-formed table *)

Lemma ht_search_live ht k v :
  ht_wf ht → live ht k v → ∃ fuel, ht_search fuel ht k = Some (Some v, ht).
Proof.
  intros Hwf [x Hx]. destruct (wf_reach _ Hwf _ _ Hx) as [n Hn]. exists n.
  eapply ht_search_run; [exact Hn|].
  by apply (found_item k {| key := k; value := v |}).
Qed.

Lemma ht_search_Some_live fuel ht k v ht' :
  ht_search fuel ht k = Some (Some v, ht') → live ht k v.
Proof.
  intros (-> & n & index & b & _ & Hs & Hf)%ht_search_inv.
  inversion Hf as [|it Hk Hb Hv]; subst.
  destruct Hs as [(_ & [H0 Hb]%get_item_Some & _) _].
  exists (Z.to_nat index). by destruct it.
Qed.

Lemma ht_search_None_not_live fuel ht k v ht' :
  ht_wf ht → ht_search fuel ht k = Some (None, ht') → ¬ live ht k v.
Proof.
  intros Hwf (-> & n & index & b & _ & Hs & Hf)%ht_search_inv.
  inversion Hf; subst. by eapply scan_null_not_live.
Qed.

Lemma ht_delete_scan_spec fuel ht k ht' :
  ht_wf ht → ht_delete_scan fuel ht k = Some ht' →
  ht_wf ht' ∧ ∀ k' v', live ht' k' v' ↔ k' ≠ k ∧ live ht k' v'.
Proof.
  intros Hwf (ht2 & n & index & Ht & Hs & _ & ->)%ht_delete_scan_inv.
  pose proof (tombstones_wf _ _ _ Hwf Ht) as Hwf2.
  split; [by apply set_count_wf|].
  destruct Ht as (_ & _ & _ & Hlen & H).
  intros k' v'. change (live (set_count ht2 (count ht - 1)) k' v') with (live ht2 k' v').
  split.
  - intros Hl. split.
    + intros ->. by eapply scan_null_not_live.
    + destruct Hl as [x Hx]. exists x.
      assert (is_Some (items ht !! x)) as [b Hb].
      { apply lookup_lt_is_Some. rewrite <- Hlen. by eapply lookup_lt_Some. }
      destruct (H _ _ Hb) as [?|[_ ?]]; congruence.
  - intros [Hne [x Hx]]. exists x. destruct (H _ _ Hx) as [?|[Hm _]]; [done|].
    simpl in Hm. by apply String.eqb_eq in Hm.
Qed.

Lemma ht_delete_spec fuel ht k ht' :
  ht_wf ht → ht_delete fuel ht k = Some ht' →
  ht_wf ht' ∧ ∀ k' v', live ht' k' v' ↔ k' ≠ k ∧ live ht k' v'.
Proof.
  unfold ht_delete. intros Hwf Hrun.
  destruct (ht_delete_resize _ ht) as [ht1|] eqn:Hres; simplify_eq/=.
  destruct (ht_delete_resize_spec _ (ht_insert_spec fuel) _ _ Hwf Hres) as [Hwf1 Hl1].
  destruct (ht_delete_scan_spec _ _ _ _ Hwf1 Hrun) as [Hwf' Hl'].
  split; [done|]. intros k' v'. rewrite Hl'. by rewrite Hl1.
Qed.

(** ** Counting the live entries *)

Lemma live_entries_replicate n : live_entries (replicate n NULL) = 0.
Proof. induction n as [|n IH]; simpl; lia. Qed.

Lemma live_entries_insert l i b b' :
  l !! i = Some b →
  live_entries (<[i:=b']> l) =
  live_entries l - (if is_live b then 1 else 0) + (if is_live b' then 1 else 0).
Proof.
  revert i. induction l as [|a l IH]; intros i Hi; [done|].
  destruct i as [|i]; simpl in *.
  - simplify_eq. lia.
  - rewrite (IH i Hi). lia.
Qed.

Lemma live_entries_nonneg l : 0 ≤ live_entries l.
Proof. induction l as [|b l IH]; simpl; [lia|]. destruct (is_live b); lia. Qed.

(** ** Invariants of insert and resize *)

Section Invariant.
Variable P : ht_hash_table → Prop.
Hypothesis P_new : ∀ base ht,
  HT_INITIAL_BASE_SIZE ≤ base → ht_new_sized base = Some ht → P ht.
Hypothesis P_placed : ∀ ht item index b ht',
  P ht → get_item ht index = Some b → placed ht item index b ht' → P ht'.

Lemma ht_insert_place_preserves fuel : preserves P (ht_insert_place fuel).
Proof.
  intros ht k v ht' HP Hrun.
  destruct (ht_insert_place_inv _ _ _ _ _ Hrun) as (n & index & b & _ & Hs & Hp).
  destruct Hs as [(_ & Hb & _) _]. eauto.
Qed.

Lemma ht_resize_loop_preserves ins n ht i new_ht new_ht' :
  preserves P ins → P new_ht →
  ht_resize_loop ins n ht i new_ht = Some new_ht' → P new_ht'.
Proof.
  intros Hins. revert i new_ht.
  induction n as [|n IH]; intros i new_ht HP Hrun; simpl in Hrun; [by simplify_eq|].
  destruct (get_item ht i) as [item|]; simplify_eq/=.
  destruct (match item with Ptr it => ins new_ht (key it) (value it) | _ => Some new_ht end)
    as [new1|] eqn:E; simplify_eq/=.
  apply (IH (i + 1) new1); [|done]. destruct item; simplify_eq; eauto.
Qed.

(** A resize that takes effect establishes the invariant, whatever the
    table was. *)
Lemma ht_resize_establishes ins ht base ht' :
  preserves P ins → HT_INITIAL_BASE_SIZE ≤ base →
  ht_resize ins ht base = Some ht' → P ht'.
Proof.
  intros Hins Hbase [[? _]|(_ & new_ht & Hnew & Hrun & _)]%ht_resize_inv; [lia|].
  eapply ht_resize_loop_preserves; eauto.
Qed.

Lemma ht_resize_preserves ins ht base ht' :
  preserves P ins → P ht → ht_resize ins ht base = Some ht' → P ht'.
Proof.
  intros Hins HP Hrun. destruct (Z.ltb_spec base HT_INITIAL_BASE_SIZE) as [Hlt|Hge].
  - unfold ht_resize in Hrun. apply Z.ltb_lt in Hlt. rewrite Hlt in Hrun. by simplify_eq.
  - by eapply ht_resize_establishes.
Qed.

Lemma ht_insert_resize_preserves ins ht ht' :
  preserves P ins → P ht → ht_insert_resize ins ht = Some ht' → P ht'.
Proof.
  intros Hins HP. unfold ht_insert_resize, ht_resize_up. intros Hrun.
  destruct (ht_load ht) as [load|]; simplify_eq/=.
  destruct (70 <? load); [|by simplify_eq].
  destruct (chk_int _) as [new_size|]; simplify_eq/=.
  by eapply ht_resize_preserves.
Qed.

Lemma ht_delete_resize_preserves ins ht ht' :
  preserves P ins → P ht → ht_delete_resize ins ht = Some ht' → P ht'.
Proof.
  intros Hins HP. unfold ht_delete_resize, ht_resize_down. intros Hrun.
  destruct (ht_load ht) as [load|]; simplify_eq/=.
  destruct (load <? 10); [|by simplify_eq].
  by eapply ht_resize_preserves.
Qed.

Lemma ht_insert_preserves fuel : preserves P (ht_insert fuel).
Proof.
  induction fuel as [|fuel IH]; intros ht k v ht' HP Hrun; [done|].
  simpl in Hrun.
  destruct (ht_insert_resize (ht_insert fuel) ht) as [ht1|] eqn:Hres; simplify_eq/=.
  eapply ht_insert_place_preserves; [|done].
  by eapply ht_insert_resize_preserves.
Qed.
End Invariant.

(** *** The size is the prime above a base size of at least 50 *)

Lemma size_inv_new base ht :
  HT_INITIAL_BASE_SIZE ≤ base → ht_new_sized base = Some ht → size_inv ht.
Proof.
  unfold ht_new_sized. intros Hb H.
  destruct (next_prime base) as [sz|] eqn:E; simplify_eq/=. done.
Qed.

Lemma size_inv_placed ht item index b ht' :
  size_inv ht → get_item ht index = Some b → placed ht item index b ht' → size_inv ht'.
Proof.
  intros HP _ Hp. destruct (placed_cases _ _ _ _ _ Hp) as (_ & Hs & Hb & _).
  unfold size_inv. by rewrite Hs, Hb.
Qed.

Lemma size_inv_delete fuel ht k ht' :
  size_inv ht → ht_delete fuel ht k = Some ht' → size_inv ht'.
Proof.
  unfold ht_delete. intros HP Hrun.
  destruct (ht_delete_resize _ ht) as [ht1|] eqn:Hres; simplify_eq/=.
  assert (size_inv ht1) as HP1.
  { eapply (ht_delete_resize_preserves size_inv size_inv_new); [|done..].
    apply ht_insert_preserves; [apply size_inv_new|apply size_inv_placed]. }
  apply ht_delete_scan_inv in Hrun as (ht2 & n & index & Ht & _ & _ & ->).
  destruct Ht as (Hb & Hs & _). unfold size_inv. simpl. by rewrite Hb, Hs.
Qed.

Lemma size_inv_prime ht : size_inv ht → Z.prime (size ht) ∧ 53 ≤ size ht.
Proof.
  intros [Hb (Hr & Hp & Hmin)%next_prime_spec]. split; [done|].
  unfold HT_INITIAL_BASE_SIZE in Hb.
  destruct (decide (53 ≤ size ht)) as [|Hlt]; [done|]. exfalso.
  destruct Hp as [H1 Hp].
  assert (size ht = 50 ∨ size ht = 51 ∨ size ht = 52) as [E|[E|E]] by lia.
  - apply (Hp 2); [lia|]. rewrite E. by exists 25.
  - apply (Hp 3); [lia|]. rewrite E. by exists 17.
  - apply (Hp 2); [lia|]. rewrite E. by exists 26.
Qed.

(** *** The count is the number of live entries *)

Lemma count_inv_new base ht :
  HT_INITIAL_BASE_SIZE ≤ base → ht_new_sized base = Some ht → count_inv ht.
Proof.
  unfold ht_new_sized. intros _ H.
  destruct (next_prime base) as [sz|] eqn:E; simplify_eq/=.
  unfold count_inv. simpl. by rewrite live_entries_replicate.
Qed.

Lemma count_inv_placed ht item index b ht' :
  count_inv ht → get_item ht index = Some b → placed ht item index b ht' → count_inv ht'.
Proof.
  unfold count_inv. intros HP [_ Hb]%get_item_Some [-> _ ->|Hm ->]; simpl.
  - rewrite (live_entries_insert _ _ _ _ Hb). simpl. lia.
  - apply key_matches_Ptr in Hm as (it & -> & _).
    rewrite (live_entries_insert _ _ _ _ Hb). simpl. lia.
Qed.

(** ** Reachable tables *)

Lemma reachable_wf ht : reachable ht → ht_wf ht.
Proof.
  induction 1 as [ht H|fuel ht k v ht' _ IH H|fuel ht k r ht' _ IH H|fuel ht k ht' _ IH H].
  - by apply ht_new_sized_wf in H as [? _].
  - by destruct (ht_insert_spec _ _ _ _ _ IH H).
  - by apply ht_search_inv in H as [-> _].
  - by destruct (ht_delete_spec _ _ _ _ IH H).
Qed.

Lemma reachable_size_inv ht : reachable ht → size_inv ht.
Proof.
  induction 1 as [ht H|fuel ht k v ht' _ IH H|fuel ht k r ht' _ IH H|fuel ht k ht' _ IH H].
  - by apply size_inv_new in H.
  - eapply (ht_insert_preserves size_inv size_inv_new size_inv_placed); eauto.
  - by apply ht_search_inv in H as [-> _].
  - by eapply size_inv_delete.
Qed.

(** ** Concrete tables *)

Lemma ht_new_empty : ht_new = Some ht_empty.
Proof. vm_compute. reflexivity. Qed.

Lemma ht_insert_4 : ht_insert 1 ht_empty "4" "x" = Some ht_4.
Proof. vm_compute. reflexivity. Qed.

(** One more turn of each loop at a bucket that is passed over. *)
Lemma ht_insert_loop_skip fuel ht item index cur i :
  skippable cur (key item) →
  ht_insert_loop (S fuel) ht item index cur i =
    index' ← ht_get_hash (key item) (size ht) i;
    cur' ← get_item ht index';
    i' ← chk_int (i + 1);
    ht_insert_loop fuel ht item index' cur' i'.
Proof. intros [Hn Hk]. destruct cur; [done|done|]. simpl in *. by rewrite Hk. Qed.

Lemma ht_delete_loop_skip fuel ht k index item i :
  skippable item k →
  ht_delete_loop (S fuel) ht k index item i =
    index' ← ht_get_hash k (size ht) i;
    item' ← get_item ht index';
    i' ← chk_int (i + 1);
    ht_delete_loop fuel ht k index' item' i'.
Proof. intros [Hn Hk]. destruct item; [done|done|]. simpl in *. by rewrite Hk. Qed.

Lemma hash_4 :
  ht_hash "4" HT_PRIME_1 53 = Some 52 ∧ ht_hash "4" HT_PRIME_2 53 = Some (53 - 1).
Proof. split; vm_compute; reflexivity. Qed.

Lemma hash_i :
  ht_hash "i" HT_PRIME_1 53 = Some 52 ∧ ht_hash "i" HT_PRIME_2 53 = Some (53 - 1).
Proof. split; vm_compute; reflexivity. Qed.

Lemma ht_insert_loop_stuck fuel i :
  0 ≤ i →
  ht_insert_loop fuel ht_4 (ht_new_item "i" "y") 52 (Ptr {| key := "4"; value := "x" |}) i
  = None.
Proof.
  revert i. induction fuel as [|fuel IH]; intros i Hi; [done|].
  rewrite ht_insert_loop_skip by done.
  destruct hash_i as [Ha Hb].
  destruct (ht_get_hash_zero_step "i" 53 52 i Ha Hb ltac:(lia) Hi) as [E|E];
    cbn [key ht_new_item]; change (size ht_4) with 53; rewrite E; [done|].
  change (get_item ht_4 52) with (Some (Ptr {| key := "4"; value := "x" |})).
  cbn [mbind option_bind].
  destruct (chk_int (i + 1)) as [i'|] eqn:E'; [|done].
  apply chk_int_Some in E' as [-> _]. apply IH. lia.
Qed.

Lemma ht_delete_loop_stuck fuel i :
  0 ≤ i → ht_delete_loop fuel ht_4_deleted "4" 52 HT_DELETED_ITEM i = None.
Proof.
  revert i. induction fuel as [|fuel IH]; intros i Hi; [done|].
  rewrite ht_delete_loop_skip by done.
  destruct hash_4 as [Ha Hb].
  destruct (ht_get_hash_zero_step "4" 53 52 i Ha Hb ltac:(lia) Hi) as [E|E];
    change (size ht_4_deleted) with 53; rewrite E; [done|].
  change (get_item ht_4_deleted 52) with (Some HT_DELETED_ITEM).
  cbn [mbind option_bind].
  destruct (chk_int (i + 1)) as [i'|] eqn:E'; [|done].
  apply chk_int_Some in E' as [-> _]. apply IH. lia.
Qed.

(** ** The number of live entries of well-formed tables *)

Lemma live_entries_length l : live_entries l = Z.of_nat (length (live_list l)).
Proof.
  induction l as [|b l IH]; [done|]. simpl. rewrite IH.
  destruct b; simpl; lia.
Qed.

Lemma elem_of_live_list l it : it ∈ live_list l ↔ ∃ x, l !! x = Some (Ptr it).
Proof.
  unfold live_list. rewrite list_elem_of_omap. split.
  - intros (b & [x Hx]%list_elem_of_lookup & Hb). exists x.
    destruct b; simplify_eq/=. done.
  - intros [x Hx]. exists (Ptr it). split; [|done]. apply list_elem_of_lookup. eauto.
Qed.

Lemma NoDup_live_list l :
  (∀ x y it, l !! x = Some (Ptr it) → l !! y = Some (Ptr it) → x = y) →
  NoDup (live_list l).
Proof.
  induction l as [|b l IH]; intros Hinj; [constructor|].
  assert (NoDup (live_list l)) as Hl.
  { apply IH. intros x y it Hx Hy. by injection (Hinj (S x) (S y) it Hx Hy). }
  destruct b as [| |it]; simpl; [done..|]. constructor; [|done].
  intros [x Hx]%elem_of_live_list. by specialize (Hinj 0%nat (S x) it eq_refl Hx).
Qed.

Lemma wf_NoDup_live_list ht : ht_wf ht → NoDup (live_list (items ht)).
Proof.
  intros Hwf. apply NoDup_live_list. intros x y it Hx Hy. by eapply wf_unique.
Qed.

(** Two well-formed tables with the same live items have the same number
    of live entries. *)
Lemma live_entries_same ht ht' :
  ht_wf ht → ht_wf ht' → (∀ k v, live ht' k v ↔ live ht k v) →
  live_entries (items ht') = live_entries (items ht).
Proof.
  intros Hwf Hwf' Hl. rewrite !live_entries_length. f_equal.
  apply Permutation_length, NoDup_Permutation; [by apply wf_NoDup_live_list..|].
  intros [k v]. rewrite !elem_of_live_list. apply Hl.
Qed.

(** ** The two resize preludes *)

Lemma ht_insert_resize_cases ins ht ht1 :
  ht_insert_resize ins ht = Some ht1 →
  ∃ load, ht_load ht = Some load ∧
    ((load ≤ 70 ∧ ht1 = ht) ∨
     (70 < load ∧ ht_resize ins ht (base_size ht * 2) = Some ht1)).
Proof.
  unfold ht_insert_resize, ht_resize_up. intros Hrun.
  destruct (ht_load ht) as [load|]; simplify_eq/=. exists load. split; [done|].
  destruct (Z.ltb_spec 70 load); [|left; by simplify_eq].
  destruct (chk_int _) as [new_size|] eqn:E; simplify_eq/=.
  apply chk_int_Some in E as [-> _]. by right.
Qed.

Lemma ht_delete_resize_cases ins ht ht1 :
  ht_delete_resize ins ht = Some ht1 →
  ∃ load, ht_load ht = Some load ∧
    ((10 ≤ load ∧ ht1 = ht) ∨
     (load < 10 ∧ ht_resize ins ht (Z.quot (base_size ht) 2) = Some ht1)).
Proof.
  unfold ht_delete_resize, ht_resize_down. intros Hrun.
  destruct (ht_load ht) as [load|]; simplify_eq/=. exists load. split; [done|].
  destruct (Z.ltb_spec load 10); [by right|left; by simplify_eq].
Qed.

Lemma ht_resize_small ins ht base ht' :
  base < HT_INITIAL_BASE_SIZE → ht_resize ins ht base = Some ht' → ht' = ht.
Proof.
  intros Hlt%Z.ltb_lt. unfold ht_resize. rewrite Hlt. by intros [= <-].
Qed.

Lemma ht_insert_count_inv fuel : preserves count_inv (ht_insert fuel).
Proof. apply ht_insert_preserves; [apply count_inv_new|apply count_inv_placed]. Qed.

(** What a resize does to the count and to the number of live entries. *)
Lemma ht_resize_count fuel ht base ht' :
  ht_resize (ht_insert fuel) ht base = Some ht' →
  (base < HT_INITIAL_BASE_SIZE → ht' = ht) ∧
  (HT_INITIAL_BASE_SIZE ≤ base →
     count ht' = live_entries (items ht') ∧
     (ht_wf ht → live_entries (items ht') = live_entries (items ht))).
Proof.
  intros Hrun. split; [intros; by eapply ht_resize_small|]. intros Hb. split.
  - eapply (ht_resize_establishes count_inv count_inv_new); [|done..].
    apply ht_insert_count_inv.
  - intros Hwf. destruct (ht_resize_spec _ (ht_insert_spec fuel) _ _ _ Hwf Hrun).
    by apply live_entries_same.
Qed.

Lemma reachable_ht_4 : reachable ht_4.
Proof.
  eapply reach_insert; [apply reach_new, ht_new_empty|apply ht_insert_4].
Defined.

(** ** Sequences of calls for the examples *)

Lemma ht_insert_unfold fuel ht k v ht' :
  ht_insert fuel ht k v = Some ht' →
  ∃ ht1, ht_insert_resize (ht_insert (pred fuel)) ht = Some ht1 ∧
    ht_insert_place (pred fuel) ht1 k v = Some ht'.
Proof.
  destruct fuel as [|fuel]; [done|]. simpl. intros Hrun.
  destruct (ht_insert_resize (ht_insert fuel) ht) as [ht1|]; simplify_eq/=. eauto.
Qed.


Lemma ht_4_live : live ht_4 "4" "x".
Proof. by exists 52%nat. Qed.

(** ** Inserts followed by searches *)

Lemma insert_all_live fuel kvs ht ht' :
  ht_wf ht → NoDup (kvs.*1) → insert_all fuel kvs ht = Some ht' →
  ht_wf ht' ∧
  ∀ k v, (k, v) ∈ kvs ∨ (¬ k ∈ kvs.*1 ∧ live ht k v) → live ht' k v.
Proof.
  revert ht. induction kvs as [|[k0 v0] kvs IH]; intros ht Hwf Hnd Hrun; simpl in Hrun.
  - simplify_eq. split; [done|]. intros k v [[]%elem_of_nil|[_ ?]]. done.
  - destruct (ht_insert fuel ht k0 v0) as [ht1|] eqn:Hins; simplify_eq/=.
    apply NoDup_cons in Hnd as [Hk0 Hnd].
    destruct (ht_insert_spec _ _ _ _ _ Hwf Hins) as [Hwf1 Hl1].
    destruct (IH ht1 Hwf1 Hnd Hrun) as [Hwf' Hl']. split; [done|].
    intros k v Hcase. apply Hl'.
    destruct Hcase as [[[= -> ->]|Hin]%elem_of_cons|[Hnin Hlive]].
    + right. split; [done|]. apply Hl1. by left.
    + by left.
    + right. apply not_elem_of_cons in Hnin as [Hne Hnin]. split; [done|].
      apply Hl1. by right.
Qed.

(** Whenever the inserts of pairwise distinct keys into a fresh table all
    return, a search for each of the keys returns the value inserted with
    it. *)
Lemma ht_search_after_inserts fuel kvs ht0 ht k v :
  ht_new = Some ht0 → NoDup (kvs.*1) → insert_all fuel kvs ht0 = Some ht →
  (k, v) ∈ kvs →
  ∃ fuel', ht_search fuel' ht k = Some (Some v, ht).
Proof.
  intros Hnew Hnd Hrun Hin.
  destruct (insert_all_live fuel kvs ht0 ht) as [Hwf Hl]; [|done..|].
  { by apply ht_new_sized_wf in Hnew as [? _]. }
  apply ht_search_live; [done|]. apply Hl. by left.
Qed.

(** ** When the loops stop *)

Lemma ht_hash_loop_bound a m cs hash r :
  0 < m → - m < hash < m → ht_hash_loop a m cs hash = Some r → - m < r < m.
Proof.
  intros Hm. revert hash. induction cs as [|c rest IH]; intros hash Hh Hrun; simpl in Hrun.
  - by simplify_eq.
  - destruct (pow_long _ _) as [p|]; simplify_eq/=.
    destruct (chk_long (p * _)) as [t|]; simplify_eq/=.
    destruct (chk_long (hash + t)) as [h|]; simplify_eq/=.
    destruct (c_rem h m) as [h'|] eqn:E; simplify_eq/=.
    apply c_rem_Some in E as [_ ->]. apply (IH (Z.rem h m)); [|done].
    pose proof (Z.rem_bound_abs h m ltac:(lia)). lia.
Qed.

Lemma ht_hash_bound s a m h : 0 < m → ht_hash s a m = Some h → - m < h < m.
Proof.
  intros Hm. unfold ht_hash. intros Hrun.
  destruct (ht_hash_loop _ _ _ _) as [r|] eqn:E; simplify_eq/=.
  apply chk_int_Some in Hrun as [-> _].
  eapply ht_hash_loop_bound; [done| |done]. lia.
Qed.

(** The index of attempt [j] in closed form, for a number of buckets up to
    46340, below which [attempt * step] fits an [int] for every attempt
    below the number of buckets. *)
Lemma ht_get_hash_mod s m ha hb j :
  0 < m ≤ 46340 →
  ht_hash s HT_PRIME_1 m = Some ha → ht_hash s HT_PRIME_2 m = Some hb →
  0 ≤ ha → 0 ≤ hb → 0 ≤ j < m →
  ht_get_hash s m j = Some ((ha + j * (hb + 1)) mod m).
Proof.
  intros Hm Ha Hb Hha Hhb Hj.
  assert (0 < m) as Hm0 by lia.
  pose proof (ht_hash_bound _ _ _ _ Hm0 Ha).
  pose proof (ht_hash_bound _ _ _ _ Hm0 Hb).
  unfold ht_get_hash. rewrite Ha, Hb. cbn [mbind option_bind].
  assert (0 ≤ j * (hb + 1) ≤ 46339 * 46340).
  { split; [apply Z.mul_nonneg_nonneg; lia|].
    apply Z.mul_le_mono_nonneg; lia. }
  rewrite chk_int_in by (unfold INT_MIN, INT_MAX; lia). cbn [mbind option_bind].
  rewrite chk_int_in by (unfold INT_MIN, INT_MAX; lia). cbn [mbind option_bind].
  rewrite chk_int_in by (unfold INT_MIN, INT_MAX; lia). cbn [mbind option_bind].
  unfold c_rem. destruct (Z.eqb_spec m 0); [lia|].
  by rewrite Z.rem_mod_nonneg by lia.
Qed.

(** With a prime number of buckets and a step that is not zero modulo it,
    the first [m] attempts reach every bucket. *)
Lemma probe_surjective (m ha step x : Z) :
  Z.prime m → 0 < step < m → 0 ≤ x < m →
  ∃ j, 0 ≤ j < m ∧ (ha + j * step) mod m = x.
Proof.
  intros Hp Hs Hx. pose proof Hp as [Hm _].
  set (f := λ j : nat, Z.to_nat ((ha + Z.of_nat j * step) mod m)).
  set (M := Z.to_nat m).
  assert (NoDup (f <$> seq 0 M)) as Hnd.
  { apply NoDup_fmap_2_strong; [|apply NoDup_seq].
    intros a b [_ Ha]%elem_of_seq [_ Hb]%elem_of_seq Hab. unfold f in Hab.
    pose proof (Z.mod_pos_bound (ha + Z.of_nat a * step) m ltac:(lia)).
    pose proof (Z.mod_pos_bound (ha + Z.of_nat b * step) m ltac:(lia)).
    apply Z2Nat.inj in Hab; [|lia..].
    destruct (Nat.lt_trichotomy a b) as [Hlt|[->|Hlt]]; [|done|]; exfalso.
    - apply (probe_distinct m ha step (Z.of_nat a) (Z.of_nat b)); [done|done|lia|lia|done].
    - apply (probe_distinct m ha step (Z.of_nat b) (Z.of_nat a)); [done|done|lia|lia|done]. }
  assert (f <$> seq 0 M ⊆+ seq 0 M) as Hsub.
  { apply NoDup_submseteq; [done|]. intros y (j & -> & _)%list_elem_of_fmap.
    apply elem_of_seq. unfold f.
    pose proof (Z.mod_pos_bound (ha + Z.of_nat j * step) m ltac:(lia)). lia. }
  apply submseteq_length_Permutation in Hsub;
    [|by rewrite length_fmap].
  assert (Z.to_nat x ∈ f <$> seq 0 M) as (j & Hj & [_ Hin]%elem_of_seq)%list_elem_of_fmap.
  { rewrite Hsub. apply elem_of_seq. lia. }
  exists (Z.of_nat j). split; [lia|]. unfold f in Hj.
  pose proof (Z.mod_pos_bound (ha + Z.of_nat j * step) m ltac:(lia)). lia.
Qed.

(** Among the attempts up to [n], either there is a least one whose bucket
    has the property [Q], or none has it. *)
Lemma least_attempt_or_none (Q : bucket → Prop) ht k n :
  (∀ b, Q b ∨ ¬ Q b) →
  (∀ j, (j ≤ n)%nat → ∃ idx b, attempt ht k j idx b) →
  (∃ j idx b, (j ≤ n)%nat ∧ attempt ht k j idx b ∧ Q b ∧
     ∀ j', (j' < j)%nat → ∃ idx' b', attempt ht k j' idx' b' ∧ ¬ Q b') ∨
  (∀ j, (j ≤ n)%nat → ∃ idx b, attempt ht k j idx b ∧ ¬ Q b).
Proof.
  intros Qdec. induction n as [|n IH]; intros Hall.
  - destruct (Hall 0%nat ltac:(lia)) as (idx & b & Ha). destruct (Qdec b) as [Hb|Hb].
    + left. exists 0%nat, idx, b. repeat split; [lia|apply Ha..|done|]. intros j' Hj'. lia.
    + right. intros j Hj. assert (j = 0)%nat as -> by lia. eauto.
  - destruct IH as [(j & idx & b & Hj & H)|Hnone]; [intros; apply Hall; lia| |].
    + left. exists j, idx, b. split; [lia|done].
    + destruct (Hall (S n) ltac:(lia)) as (idx & b & Ha). destruct (Qdec b) as [Hb|Hb].
      * left. exists (S n), idx, b. split; [lia|]. split; [done|]. split; [done|].
        intros j' Hj'. apply Hnone. lia.
      * right. intros j Hj. destruct (decide (j = S n)) as [->|]; [eauto|].
        apply Hnone. lia.
Qed.

Lemma least_attempt (Q : bucket → Prop) ht k n idx b :
  (∀ b, Q b ∨ ¬ Q b) →
  (∀ j, (j < n)%nat → ∃ idx b, attempt ht k j idx b) →
  attempt ht k n idx b → Q b →
  ∃ j idx b, (j ≤ n)%nat ∧ attempt ht k j idx b ∧ Q b ∧
    ∀ j', (j' < j)%nat → ∃ idx' b', attempt ht k j' idx' b' ∧ ¬ Q b'.
Proof.
  intros Qdec Hall Ha Hb.
  destruct (least_attempt_or_none Q ht k n Qdec) as [H|Hnone]; [|done|].
  - intros j Hj. destruct (decide (j = n)) as [->|]; [eauto|]. apply Hall. lia.
  - destruct (Hnone n ltac:(lia)) as (idx' & b' & Ha' & Hb').
    destruct (attempt_fun _ _ _ _ _ _ _ Ha Ha') as [_ ->]. done.
Qed.

(** The scan for a key stops at or before the first [NULL] of its probe
    sequence. *)
Lemma null_path_scan ht k n index :
  null_path ht k n index →
  ∃ j idx b, (j ≤ n)%nat ∧ scan ht k j idx b ∧ ¬ skippable b k.
Proof.
  intros [Hn Hpre].
  destruct (least_attempt (λ b, ¬ skippable b k) ht k n index NULL)
    as (j & idx & b & Hj & Ha & Hb & Hleast).
  - intros b. destruct (skippable_dec b k) as [?|[->|Hm]]; [right; tauto|left..].
    + by intros [].
    + intros [_ ?]. congruence.
  - intros j Hj. destruct (Hpre j Hj) as (? & ? & ? & _). eauto.
  - done.
  - by intros [].
  - exists j, idx, b. split; [done|]. split; [|done]. split; [done|].
    intros j' Hj'. destruct (Hleast j' Hj') as (idx' & b' & Ha' & Hb').
    exists idx', b'. split; [done|].
    destruct (skippable_dec b' k) as [?|[->|Hm]]; [done|exfalso; apply Hb'..].
    + by intros [].
    + intros [_ ?]. congruence.
Qed.

(** The probe sequence of a key reaches a [NULL] bucket when there is one,
    the number of buckets is a prime small enough for the index arithmetic,
    the hashes are not negative and the second hash is not [size - 1]. *)
Lemma null_path_exists ht k ha hb :
  length (items ht) = Z.to_nat (size ht) →
  Z.prime (size ht) → size ht ≤ 46340 →
  ht_hash k HT_PRIME_1 (size ht) = Some ha → 0 ≤ ha →
  ht_hash k HT_PRIME_2 (size ht) = Some hb → 0 ≤ hb → hb ≠ size ht - 1 →
  (∃ x, items ht !! x = Some NULL) →
  ∃ n index, null_path ht k n index.
Proof.
  intros Hlen Hp Hmax Ha Hha Hb Hhb Hne [x Hx]. pose proof Hp as [Hm _].
  assert (0 < size ht) as Hm0 by lia.
  pose proof (ht_hash_bound _ _ _ _ Hm0 Hb) as Hbb.
  assert (∀ j, (j < Z.to_nat (size ht))%nat → ∃ b,
    attempt ht k j ((ha + Z.of_nat j * (hb + 1)) mod size ht) b) as Hall.
  { intros j Hj.
    pose proof (Z.mod_pos_bound (ha + Z.of_nat j * (hb + 1)) (size ht) ltac:(lia)) as Hr.
    assert (is_Some (items ht !! Z.to_nat ((ha + Z.of_nat j * (hb + 1)) mod size ht)))
      as [b Hb'] by (apply lookup_lt_is_Some; lia).
    exists b. split; [|split].
    - apply (ht_get_hash_mod k (size ht) ha hb); (done || lia).
    - apply get_item_Some. split; [lia|done].
    - unfold INT_MAX. lia. }
  pose proof (lookup_lt_Some _ _ _ Hx) as Hxlt.
  destruct (probe_surjective (size ht) ha (hb + 1) (Z.of_nat x)) as (j0 & Hj0 & Hidx);
    [done|lia|lia|].
  destruct (Hall (Z.to_nat j0) ltac:(lia)) as (b0 & Hb0).
  rewrite Z2Nat.id, Hidx in Hb0 by lia.
  assert (b0 = NULL) as ->.
  { destruct Hb0 as (_ & Hg & _). rewrite get_item_of_nat in Hg. congruence. }
  destruct (least_attempt (λ b, b = NULL) ht k (Z.to_nat j0) (Z.of_nat x) NULL)
    as (j & idx & b & Hj & Hat & -> & Hleast); [|intros; edestruct Hall; eauto; lia|done..|].
  { intros b. destruct (decide (b = NULL)); auto. }
  exists j, idx. split; [done|]. intros j' Hj'. exact (Hleast j' Hj').
Qed.

(** *** [ht_insert] and [ht_search] return when the probe sequence reaches
    [NULL] *)

Lemma ht_insert_place_returns ht k v n index :
  null_path ht k n index → count ht + 1 ≤ INT_MAX → INT_MIN ≤ count ht + 1 →
  ∃ fuel ht', ht_insert_place fuel ht k v = Some ht'.
Proof.
  intros (j & idx & b & _ & Hs & Hb)%null_path_scan Hc1 Hc2.
  destruct (skippable_dec b k) as [?|[->|Hm]]; [done|..].
  - exists j. eexists. eapply ht_insert_place_run; [exact Hs|].
    apply placed_new; [done| |done]. by apply chk_int_in.
  - exists j. eexists. eapply ht_insert_place_run; [exact Hs|].
    by apply placed_update.
Qed.

Lemma ht_search_returns ht k n index :
  null_path ht k n index → ∃ fuel r, ht_search fuel ht k = Some (r, ht).
Proof.
  intros (j & idx & b & _ & Hs & Hb)%null_path_scan.
  destruct (skippable_dec b k) as [?|[->|(it & -> & Hk)%key_matches_Ptr]]; [done|..].
  - exists j, None. eapply ht_search_run; [exact Hs|constructor].
  - exists j, (Some (value it)). eapply ht_search_run; [exact Hs|by constructor].
Qed.

(** *** [ht_delete] returns when the probe sequence reaches [NULL] *)

Lemma null_path_tombstone ht k n index x b :
  get_item ht x = Some b → b ≠ NULL → null_path ht k n index →
  null_path (set_item ht x HT_DELETED_ITEM) k n index.
Proof.
  intros Hb Hnn [(G1 & G2 & G3) Hpre].
  pose proof Hb as [H0 _]%get_item_Some. split.
  - split; [done|]. split; [|done].
    rewrite get_item_set_item_ne; [done..|]. intros ->. congruence.
  - intros j Hj. destruct (Hpre j Hj) as (idx & bj & (A1 & A2 & A3) & Hbj).
    destruct (decide (idx = x)) as [->|Hne].
    + exists x, HT_DELETED_ITEM. split; [|done].
      split; [done|]. split; [|done]. by eapply get_item_set_item_eq.
    + exists idx, bj. split; [|done]. split; [done|]. split; [|done].
      by rewrite get_item_set_item_ne.
Qed.

Lemma ht_delete_loop_returns k n index d :
  ∀ ht j idx b,
    null_path ht k n index → (j + d = n)%nat → attempt ht k j idx b →
    INT_MIN ≤ count ht - 1 ≤ INT_MAX →
    is_Some (ht_delete_loop d ht k idx b (Z.of_nat j + 1)).
Proof.
  induction d as [|d IH]; intros ht j idx b Hnp Hjd Ha Hc.
  - assert (j = n) as -> by lia. destruct Hnp as [Hn _].
    destruct (attempt_fun _ _ _ _ _ _ _ Ha Hn) as [-> ->]. simpl.
    rewrite chk_int_in by done. by eexists.
  - pose proof Hnp as [Hn Hpre].
    destruct (Hpre j ltac:(lia)) as (idx0 & b0 & Ha0 & Hb0).
    destruct (attempt_fun _ _ _ _ _ _ _ Ha Ha0) as [-> ->].
    rewrite ht_delete_loop_S by done. cbn zeta.
    set (ht1 := if key_matches b0 k then set_item ht idx0 HT_DELETED_ITEM else ht).
    pose proof Ha0 as (_ & Hg0 & _).
    assert (null_path ht1 k n index) as Hnp1.
    { unfold ht1. destruct (key_matches b0 k); [|done]. by eapply null_path_tombstone. }
    assert (count ht1 = count ht) as Hc1 by (unfold ht1; by destruct (key_matches b0 k)).
    assert (∃ idx' b', attempt ht1 k (S j) idx' b') as (idx' & b' & Ha').
    { destruct Hnp1 as [Hn1 Hpre1]. destruct (decide (S j = n)) as [<-|]; [eauto|].
      destruct (Hpre1 (S j) ltac:(lia)) as (? & ? & ? & _). eauto. }
    pose proof Ha' as (G1 & G2 & G3).
    replace (Z.of_nat (S j)) with (Z.of_nat j + 1) in G1, G3 by lia.
    rewrite G1. cbn [mbind option_bind]. rewrite G2. cbn [mbind option_bind].
    rewrite chk_int_in by (unfold INT_MIN; lia). cbn [mbind option_bind].
    replace (Z.of_nat j + 1 + 1) with (Z.of_nat (S j) + 1) by lia.
    apply (IH ht1 (S j) idx' b'); [done|lia|done|lia].
Qed.

Lemma ht_delete_scan_returns ht k n index :
  null_path ht k n index → INT_MIN ≤ count ht - 1 ≤ INT_MAX →
  ∃ fuel ht', ht_delete_scan fuel ht k = Some ht'.
Proof.
  intros Hnp Hc. exists n.
  assert (∃ i0 b0, attempt ht k 0 i0 b0) as (i0 & b0 & H0).
  { destruct Hnp as [Hn Hpre]. destruct n; [eauto|].
    destruct (Hpre 0%nat ltac:(lia)) as (? & ? & ? & _). eauto. }
  pose proof H0 as (G1 & G2 & _). unfold ht_delete_scan.
  change (Z.of_nat 0) with 0 in G1.
  rewrite G1. cbn [mbind option_bind]. rewrite G2. cbn [mbind option_bind].
  destruct (ht_delete_loop_returns k n index n ht 0 i0 b0 Hnp) as [ht' Hr];
    [lia|done..|]. eauto.
Qed.

(** *** The three operations on a table that is not resized *)

Lemma ht_insert_resize_none ins ht load :
  ht_load ht = Some load → load ≤ 70 → ht_insert_resize ins ht = Some ht.
Proof.
  intros Hl Hle. unfold ht_insert_resize. rewrite Hl. cbn [mbind option_bind].
  destruct (Z.ltb_spec 70 load); [lia|done].
Qed.

Lemma ht_delete_resize_none ins ht load :
  ht_load ht = Some load →
  10 ≤ load ∨ Z.quot (base_size ht) 2 < HT_INITIAL_BASE_SIZE →
  ht_delete_resize ins ht = Some ht.
Proof.
  intros Hl Hc. unfold ht_delete_resize. rewrite Hl. cbn [mbind option_bind].
  destruct (Z.ltb_spec load 10) as [Hlt|]; [|done].
  destruct Hc as [?|Hb]; [lia|]. unfold ht_resize_down. cbn [c_div Z.eqb mbind option_bind].
  unfold ht_resize. apply Z.ltb_lt in Hb. by rewrite Hb.
Qed.

(** [ht_insert] returns when the table has an empty bucket and is not
    resized, unless the second hash of the key is [size - 1]. *)
Lemma ht_insert_returns ht k v ha hb load :
  length (items ht) = Z.to_nat (size ht) →
  Z.prime (size ht) → size ht ≤ 46340 →
  ht_hash k HT_PRIME_1 (size ht) = Some ha → 0 ≤ ha →
  ht_hash k HT_PRIME_2 (size ht) = Some hb → 0 ≤ hb → hb ≠ size ht - 1 →
  (∃ x, items ht !! x = Some NULL) →
  ht_load ht = Some load → load ≤ 70 →
  INT_MIN ≤ count ht + 1 ≤ INT_MAX →
  ∃ fuel ht', ht_insert fuel ht k v = Some ht'.
Proof.
  intros Hlen Hp Hmax Ha Hha Hb Hhb Hne Hnull Hl Hle Hc.
  destruct (null_path_exists ht k ha hb) as (n & index & Hnp); [done..|].
  destruct (ht_insert_place_returns ht k v n index Hnp) as (fuel & ht' & Hrun); [lia..|].
  exists (S fuel), ht'. simpl. rewrite (ht_insert_resize_none _ _ _ Hl Hle). done.
Qed.

(** [ht_search] returns when the table has an empty bucket, unless the
    second hash of the key is [size - 1]. *)
Lemma ht_search_returns_null ht k ha hb :
  length (items ht) = Z.to_nat (size ht) →
  Z.prime (size ht) → size ht ≤ 46340 →
  ht_hash k HT_PRIME_1 (size ht) = Some ha → 0 ≤ ha →
  ht_hash k HT_PRIME_2 (size ht) = Some hb → 0 ≤ hb → hb ≠ size ht - 1 →
  (∃ x, items ht !! x = Some NULL) →
  ∃ fuel r, ht_search fuel ht k = Some (r, ht).
Proof.
  intros Hlen Hp Hmax Ha Hha Hb Hhb Hne Hnull.
  destruct (null_path_exists ht k ha hb) as (n & index & Hnp); [done..|].
  by eapply ht_search_returns.
Qed.

(** [ht_delete] returns when the table has an empty bucket and is not
    resized, unless the second hash of the key is [size - 1]. *)
Lemma ht_delete_returns ht k ha hb load :
  length (items ht) = Z.to_nat (size ht) →
  Z.prime (size ht) → size ht ≤ 46340 →
  ht_hash k HT_PRIME_1 (size ht) = Some ha → 0 ≤ ha →
  ht_hash k HT_PRIME_2 (size ht) = Some hb → 0 ≤ hb → hb ≠ size ht - 1 →
  (∃ x, items ht !! x = Some NULL) →
  ht_load ht = Some load →
  10 ≤ load ∨ Z.quot (base_size ht) 2 < HT_INITIAL_BASE_SIZE →
  INT_MIN ≤ count ht - 1 ≤ INT_MAX →
  ∃ fuel ht', ht_delete fuel ht k = Some ht'.
Proof.
  intros Hlen Hp Hmax Ha Hha Hb Hhb Hne Hnull Hl Hcase Hc.
  destruct (null_path_exists ht k ha hb) as (n & index & Hnp); [done..|].
  destruct (ht_delete_scan_returns ht k n index Hnp Hc) as (fuel & ht' & Hrun).
  exists fuel, ht'. unfold ht_delete.
  rewrite (ht_delete_resize_none _ _ _ Hl Hcase). done.
Qed.

(** The two hashes of an ASCII key of at most eight characters are defined
    and not negative. *)
Lemma ht_hash_short_key k m :
  0 < m ≤ INT_MAX → Forall is_ascii (list_ascii_of_string k) →
  (String.length k ≤ 8)%nat →
  ∃ ha hb, ht_hash k HT_PRIME_1 m = Some ha ∧ ht_hash k HT_PRIME_2 m = Some hb ∧
    0 ≤ ha < m ∧ 0 ≤ hb < m.
Proof.
  intros Hm Hasc Hlen.
  assert (∀ a, 1 ≤ a ≤ 151 → a ^ (Z.of_nat (String.length k) - 1) < 2 ^ 53) as Hpow.
  { intros a Ha. destruct (decide (String.length k = 0)%nat) as [->|].
    - simpl. rewrite Z.pow_neg_r by lia. done.
    - eapply Z.le_lt_trans; [apply Z.pow_le_mono_r; [lia|]|].
      + instantiate (1 := 7). lia.
      + eapply Z.le_lt_trans; [apply Z.pow_le_mono_l|]; [split; [lia|apply Ha]|done]. }
  exists (poly_hash HT_PRIME_1 (list_ascii_of_string k) mod m),
    (poly_hash HT_PRIME_2 (list_ascii_of_string k) mod m).
  split; [|split; [|split]].
  - apply ht_hash_ascii; [done|done| |done]. apply Hpow. done.
  - apply ht_hash_ascii; [done|done| |done]. apply Hpow. done.
  - apply Z.mod_pos_bound. lia.
  - apply Z.mod_pos_bound. lia.
Qed.

(** ** A resize of a table that holds a tombstone

    [ht_resize] ends with [ht_del_hash_table] on the old array, which passes
    every bucket that is not [NULL] to [ht_del_item], the static
    [HT_DELETED_ITEM] included. *)

Lemma ht_resize_frees_tombstone ins ht base :
  HT_INITIAL_BASE_SIZE ≤ base → ht_del_hash_table ht = None →
  ht_resize ins ht base = None.
Proof.
  intros Hbase Hdel. unfold ht_resize.
  destruct (Z.ltb_spec base HT_INITIAL_BASE_SIZE); [lia|].
  destruct (ht_new_sized base) as [new_ht|]; [|done]. cbn [mbind option_bind].
  destruct (ht_resize_loop _ _ _ _ _) as [new_ht'|]; [|done]. cbn [mbind option_bind].
  by rewrite Hdel.
Qed.

Lemma ht_delete_frees_tombstone fuel ht k load :
  ht_load ht = Some load → load < 10 →
  HT_INITIAL_BASE_SIZE ≤ Z.quot (base_size ht) 2 →
  ht_del_hash_table ht = None →
  ht_delete fuel ht k = None.
Proof.
  intros Hl Hlt Hbase Hdel. unfold ht_delete, ht_delete_resize. rewrite Hl.
  cbn [mbind option_bind]. destruct (Z.ltb_spec load 10); [|lia].
  unfold ht_resize_down. cbn [c_div Z.eqb mbind option_bind].
  by rewrite ht_resize_frees_tombstone.
Qed.

(** After 39 inserts (the table then has 101 buckets) and the deletes of
    29 of the keys, the count is 10 and the delete of one more key resizes
    down: the call is undefined, whatever the fuel. *)
Lemma delete_with_tombstones_undefined :
  ∃ ht,
    (ht1 ← insert_all 60 keys39 ht_empty; delete_all 60 (take 29 keys39.*1) ht1)
      = Some ht ∧
    count ht = 10 ∧
    ht_search 60 ht "k29" = Some (Some "v"%string, ht) ∧
    ∀ fuel, ht_delete fuel ht "k29" = None.
Proof.
  eexists. split; [vm_compute; reflexivity|].
  split; [vm_compute; reflexivity|].
  split; [vm_compute; reflexivity|].
  intros fuel. apply (ht_delete_frees_tombstone fuel _ "k29" 9).
  - vm_compute. reflexivity.
  - lia.
  - vm_compute. discriminate.
  - vm_compute. reflexivity.
Qed.

(** * The claims *)

(** C1 (at its failing input).  From a fresh table, [ht_insert(ht, "4", "x")]
    returns and the following [ht_insert(ht, "i", "y")] never does, whatever
    the fuel: both keys hash to bucket 52 of 53 with a probe step of 53, so
    the loop reads bucket 52 forever (until its counter overflows).  The claim
    that every sequence of inserts with distinct keys can be followed by
    successful searches fails there. *)
Theorem insert_distinct_keys_never_returns :
  ht_new = Some ht_empty ∧
  ht_insert 1 ht_empty "4" "x" = Some ht_4 ∧
  ∀ fuel, ht_insert fuel ht_4 "i" "y" = None.
Proof.
  split; [apply ht_new_empty|]. split; [apply ht_insert_4|].
  intros [|fuel]; [done|].
  change (ht_insert (S fuel) ht_4 "i" "y") with
    (ht1 ← ht_insert_resize (ht_insert fuel) ht_4; ht_insert_place fuel ht1 "i" "y").
  change (ht_insert_resize (ht_insert fuel) ht_4) with (Some ht_4).
  cbn [mbind option_bind]. unfold ht_insert_place.
  cbn [key ht_new_item].
  assert (ht_get_hash "i" (size ht_4) 0 = Some 52) as -> by (vm_compute; reflexivity).
  cbn [mbind option_bind].
  change (get_item ht_4 52) with (Some (Ptr {| key := "4"; value := "x" |})).
  cbn [mbind option_bind]. by apply ht_insert_loop_stuck.
Qed.




(** C3 (at its failing input).  [ht_delete(ht, "4")] on the table that holds
    only the key "4" never returns: the loop of [ht_delete] goes on after
    the match until it reads [NULL], and the probe sequence of "4" only ever
    reads bucket 52.  No search can follow. *)
Theorem delete_inserted_key_never_returns :
  ht_insert 1 ht_empty "4" "x" = Some ht_4 ∧
  ∀ fuel, ht_delete fuel ht_4 "4" = None.
Proof.
  split; [apply ht_insert_4|]. intros fuel. unfold ht_delete.
  change (ht_delete_resize (ht_insert fuel) ht_4) with (Some ht_4).
  cbn [mbind option_bind]. unfold ht_delete_scan.
  assert (ht_get_hash "4" (size ht_4) 0 = Some 52) as -> by (vm_compute; reflexivity).
  cbn [mbind option_bind].
  change (get_item ht_4 52) with (Some (Ptr {| key := "4"; value := "x" |})).
  cbn [mbind option_bind].
  destruct fuel as [|fuel]; [done|].
  change (ht_delete_loop (S fuel) ht_4 "4" 52 (Ptr {| key := "4"; value := "x" |}) 1)
    with (index' ← ht_get_hash "4" (size ht_4_deleted) 1;
          item' ← get_item ht_4_deleted index';
          i' ← chk_int (1 + 1);
          ht_delete_loop fuel ht_4_deleted "4" index' item' i').
  assert (ht_get_hash "4" (size ht_4_deleted) 1 = Some 52) as -> by (vm_compute; reflexivity).
  cbn [mbind option_bind].
  change (get_item ht_4_deleted 52) with (Some HT_DELETED_ITEM).
  cbn [mbind option_bind]. change (chk_int (1 + 1)) with (Some 2).
  cbn [mbind option_bind]. by apply ht_delete_loop_stuck.
Qed.

(** C4 (counterexample).  Insert 39 keys into a fresh table (the 39th
    insert resizes it to 101 buckets) and delete the absent key "zz" 29
    times: the count is 10 for 39 live entries.  One more [ht_delete] of
    "zz" sees a load of 9, resizes, which sets the count to 39, and
    decrements: the count goes from 10 to 38. *)
Lemma delete_raises_count :
  ∃ ht ht',
    (ht1 ← insert_all 60 keys39 ht_empty; delete_times 60 29 "zz" ht1) = Some ht ∧
    count ht = 10 ∧
    ht_delete 60 ht "zz" = Some ht' ∧
    count ht' = 38.
Proof.
  eexists. eexists. split; [vm_compute; reflexivity|].
  split; [vm_compute; reflexivity|].
  split; vm_compute; reflexivity.
Qed.

(** C4 (amended).  A [ht_delete] that returns leaves the count one below
    the count its resize-down prelude left, whether or not a bucket held
    the key.  The prelude changes nothing when the load is at least 10 or
    half the base size is below 50; otherwise it sets the count to the
    number of live entries.  So the count goes down by exactly one when no
    resize takes effect, and when the count was the number of live entries
    of a well-formed table. *)
Theorem ht_delete_count (fuel : nat) (ht : ht_hash_table) (k : string)
    (ht' : ht_hash_table) :
  ht_delete fuel ht k = Some ht' →
  ∃ ht1, ht_delete_resize (ht_insert fuel) ht = Some ht1 ∧
    count ht' = count ht1 - 1 ∧
    (∀ load, ht_load ht = Some load →
       10 ≤ load ∨ Z.quot (base_size ht) 2 < HT_INITIAL_BASE_SIZE → ht1 = ht) ∧
    (ht1 = ht ∨ count ht1 = live_entries (items ht1)) ∧
    (ht1 = ht ∨ (ht_wf ht ∧ count ht = live_entries (items ht)) →
       count ht' = count ht - 1).
Proof.
  unfold ht_delete. intros Hrun.
  destruct (ht_delete_resize _ ht) as [ht1|] eqn:Hres; simplify_eq/=.
  exists ht1. split; [done|].
  apply ht_delete_scan_inv in Hrun as (ht2 & n & index & Ht & _ & _ & ->).
  split; [done|].
  destruct (ht_delete_resize_cases _ _ _ Hres) as (load & Hload & Hcase).
  assert (ht1 = ht ∨ (load < 10 ∧ HT_INITIAL_BASE_SIZE ≤ Z.quot (base_size ht) 2 ∧
    count ht1 = live_entries (items ht1) ∧
    (ht_wf ht → live_entries (items ht1) = live_entries (items ht)))) as Hc.
  { destruct Hcase as [[_ ->]|[Hlt Hrs]]; [by left|].
    destruct (Z.ltb_spec (Z.quot (base_size ht) 2) HT_INITIAL_BASE_SIZE) as [Hs|Hs].
    - left. by eapply ht_resize_small.
    - right. destruct (ht_resize_count _ _ _ _ Hrs) as [_ H]. destruct (H Hs). done. }
  split; [|split].
  - intros load' Hl' Hcond. rewrite Hload in Hl'. simplify_eq.
    destruct Hc as [->|(? & ? & _)]; [done|]. lia.
  - destruct Hc as [->|(_ & _ & ? & _)]; auto.
  - simpl. intros [->|[Hwf Hci]]; [done|].
    destruct Hc as [->|(_ & _ & E1 & E2)]; [done|]. rewrite E1, (E2 Hwf). lia.
Qed.

Lemma ht_delete_count_witness :
  ∃ ht', ht_delete 1 ht_4 "zz" = Some ht' ∧
  ∃ ht1, ht_delete_resize (ht_insert 1) ht_4 = Some ht1 ∧
    count ht' = count ht1 - 1 ∧
    (∀ load, ht_load ht_4 = Some load →
       10 ≤ load ∨ Z.quot (base_size ht_4) 2 < HT_INITIAL_BASE_SIZE → ht1 = ht_4) ∧
    (ht1 = ht_4 ∨ count ht1 = live_entries (items ht1)) ∧
    (ht1 = ht_4 ∨ (ht_wf ht_4 ∧ count ht_4 = live_entries (items ht_4)) →
       count ht' = count ht_4 - 1).
Proof.
  eexists. split; [vm_compute; reflexivity|].
  apply (ht_delete_count 1 ht_4 "zz"). vm_compute. reflexivity.
Defined.




(** C6 (at its failing input).  For the key "4" and 53 buckets the second
    hash is 52, so the probe step [hash_b + 1] is 53, zero modulo the number
    of buckets: the attempts 0 to 52 all give index 52, and so does every
    later attempt whose arithmetic stays within [int]. *)
Theorem probe_step_zero :
  ht_hash "4" HT_PRIME_2 53 = Some 52 ∧
  (52 + 1) mod 53 = 0 ∧
  Forall (λ attempt, ht_get_hash "4" 53 attempt = Some 52) (seqZ 0 53) ∧
  ∀ attempt : nat,
    ht_get_hash "4" 53 (Z.of_nat attempt) = Some 52 ∨
    ht_get_hash "4" 53 (Z.of_nat attempt) = None.
Proof.
  split; [vm_compute; reflexivity|]. split; [reflexivity|]. split.
  - apply Forall_forall. intros a Ha%elem_of_seqZ.
    destruct hash_4 as [H1 H2].
    destruct (ht_get_hash_zero_step "4" 53 52 a H1 H2 ltac:(lia) ltac:(lia)) as [E|E]; [|done].
    exfalso. revert E. unfold ht_get_hash. rewrite H1, H2. cbn [mbind option_bind].
    change (chk_int (53 - 1 + 1)) with (Some 53). cbn [mbind option_bind].
    rewrite chk_int_in by (unfold INT_MIN, INT_MAX; lia). cbn [mbind option_bind].
    rewrite chk_int_in by (unfold INT_MIN, INT_MAX; lia). done.
  - intros a. destruct hash_4 as [H1 H2].
    destruct (ht_get_hash_zero_step "4" 53 52 (Z.of_nat a) H1 H2 ltac:(lia) ltac:(lia)); auto.
Qed.

(** C7.  After any sequence of create, insert, search and delete calls
    that return, the size of the table is a prime and at least 53, the prime
    [next_prime] gives for the initial base size 50. *)
Theorem reachable_size_prime (ht : ht_hash_table) :
  reachable ht →
  Z.prime (size ht) ∧ 53 ≤ size ht ∧ next_prime HT_INITIAL_BASE_SIZE = Some 53.
Proof.
  intros [Hp Hs]%reachable_size_inv%size_inv_prime.
  split; [done|]. split; [done|]. vm_compute. reflexivity.
Qed.

Lemma reachable_size_prime_witness :
  reachable ht_4 ∧
  Z.prime (size ht_4) ∧ 53 ≤ size ht_4 ∧ next_prime HT_INITIAL_BASE_SIZE = Some 53.
Proof. split; [apply reachable_ht_4|]. apply (reachable_size_prime ht_4), reachable_ht_4. Defined.

(** C8 (counterexample).  For nine letters "a", base 131 and modulus 53
    the polynomial is 11 modulo 53 and [ht_hash] returns 20: 131^8 has 57
    bits, [pow] returns the nearest binary64 number, 131^8 - 1 (the other
    neighbour, 131^8 + 15, would give 35).  And for the one character of
    code 200, which is -56 as a signed [char], [ht_hash] returns -3, the
    remainder of the C division, not a residue between 0 and 52. *)
Lemma ht_hash_not_polynomial :
  ht_hash "aaaaaaaaa" 131 53 = Some 20 ∧
  poly_hash 131 (list_ascii_of_string "aaaaaaaaa") mod 53 = 11 ∧
  pow_long 131 8 = Some (131 ^ 8 - 1) ∧
  ht_hash "aaaaaaaaa" 131 53 ≠
    Some (poly_hash 131 (list_ascii_of_string "aaaaaaaaa") mod 53) ∧
  ht_hash (String (ascii_of_nat 200) EmptyString) 131 53 = Some (-3).
Proof. repeat split; vm_compute; (reflexivity || discriminate). Qed.

(** C8 (amended).  For a string of ASCII characters, a base [a >= 0] whose
    highest power used, [a ^ (len - 1)], is below 2^53 (so that [pow] is
    exact), and a modulus [0 < m], [ht_hash] returns the polynomial
    Σ sᵢ · a^(len − i − 1) reduced modulo [m]. *)
Theorem ht_hash_polynomial (s : string) (a m : Z) :
  0 < m ≤ INT_MAX → 0 ≤ a →
  a ^ (Z.of_nat (String.length s) - 1) < 2 ^ 53 →
  Forall is_ascii (list_ascii_of_string s) →
  ht_hash s a m = Some (poly_hash a (list_ascii_of_string s) mod m).
Proof.
  intros [Hm HM] Ha Hpow Hasc. unfold ht_hash.
  assert (length (list_ascii_of_string s) = String.length s) as Hlen.
  { clear. induction s as [|c s IH]; simpl; [done|]. by rewrite IH. }
  assert (∀ e, 0 ≤ e < Z.of_nat (length (list_ascii_of_string s)) → a ^ e < 2 ^ 53)
    as Hpows.
  { rewrite Hlen. intros e He. destruct (decide (a = 0)) as [->|Hne].
    - destruct (decide (e = 0)) as [->|]; [done|]. by rewrite Z.pow_0_l by lia.
    - eapply Z.le_lt_trans; [|exact Hpow]. apply Z.pow_le_mono_r; lia. }
  rewrite (ht_hash_loop_poly a m _ 0 Hm Ha Hpows Hasc) by lia.
  cbn [mbind option_bind]. rewrite Z.add_0_l.
  pose proof (Z.mod_pos_bound (poly_hash a (list_ascii_of_string s)) m Hm).
  apply chk_int_in. unfold INT_MIN. lia.
Qed.

Lemma ht_hash_polynomial_witness :
  ht_hash "cat" 131 53 = Some (poly_hash 131 (list_ascii_of_string "cat") mod 53).
Proof.
  apply (ht_hash_polynomial "cat" 131 53).
  - unfold INT_MAX. lia.
  - lia.
  - vm_compute. reflexivity.
  - repeat constructor.
Defined.

(** C9 (counterexample).  Delete the absent key "zz" from a fresh table and
    insert 39 keys: the count is 38 for 39 live entries.  The next insert
    sees a load of 71 and resizes up to 101 buckets: after the resize the
    count is 39, the number of live entries.  The offset -1 is gone. *)
Lemma resize_drops_offset :
  ∃ ht ht1,
    (ht0 ← ht_delete 1 ht_empty "zz"; insert_all 60 keys39 ht0) = Some ht ∧
    count ht - live_entries (items ht) = -1 ∧
    ht_insert_resize (ht_insert 60) ht = Some ht1 ∧
    size ht1 = 101 ∧
    count ht1 - live_entries (items ht1) = 0.
Proof.
  eexists. eexists. split; [vm_compute; reflexivity|].
  split; [vm_compute; reflexivity|].
  split; [vm_compute; reflexivity|].
  split; vm_compute; reflexivity.
Qed.

(** C9 (amended).  A resize to a base size below 50 changes nothing.  A
    resize that takes effect leaves a count equal to the number of live
    entries of the table, whatever the count was before; on a well-formed
    table that number is the number of live entries before the resize. *)
Theorem ht_resize_resets_count (fuel : nat) (ht : ht_hash_table) (base : Z)
    (ht' : ht_hash_table) :
  ht_resize (ht_insert fuel) ht base = Some ht' →
  (base < HT_INITIAL_BASE_SIZE → ht' = ht) ∧
  (HT_INITIAL_BASE_SIZE ≤ base →
     count ht' = live_entries (items ht') ∧
     (ht_wf ht → live_entries (items ht') = live_entries (items ht))).
Proof.
  intros Hrun. split.
  - intros Hlt%Z.ltb_lt. unfold ht_resize in Hrun. rewrite Hlt in Hrun. by simplify_eq.
  - intros Hbase. split.
    + apply ht_resize_inv in Hrun as [[? _]|(_ & new_ht & Hnew & Hloop & _)]; [lia|].
      assert (count_inv new_ht) as Hinv by by eapply count_inv_new.
      eapply (ht_resize_loop_preserves count_inv); [|exact Hinv|exact Hloop].
      apply ht_insert_count_inv.
    + intros Hwf.
      destruct (ht_resize_spec _ (ht_insert_spec fuel) _ _ _ Hwf Hrun) as [Hwf' Hlive].
      by apply live_entries_same.
Qed.

Lemma ht_resize_resets_count_witness :
  ∃ ht', ht_resize (ht_insert 1) ht_4 100 = Some ht' ∧
    (100 < HT_INITIAL_BASE_SIZE → ht' = ht_4) ∧
    (HT_INITIAL_BASE_SIZE ≤ 100 →
       count ht' = live_entries (items ht') ∧
       (ht_wf ht_4 → live_entries (items ht') = live_entries (items ht_4))).
Proof.
  eexists. split; [vm_compute; reflexivity|].
  apply (ht_resize_resets_count 1 ht_4 100). vm_compute. reflexivity.
Defined.

(** C10.  [ht_search] leaves the table as it found it: when it returns,
    the size, the base size, the count and the bucket array are those of
    before the call. *)
Theorem ht_search_frame (fuel : nat) (ht : ht_hash_table) (k : string)
    (r : option string) (ht' : ht_hash_table) :
  ht_search fuel ht k = Some (r, ht') →
  size ht' = size ht ∧ base_size ht' = base_size ht ∧
  count ht' = count ht ∧ items ht' = items ht.
Proof.
  assert (∀ fuel item i, ht_search_loop fuel ht k item i = Some (r, ht') → ht' = ht)
    as Hloop.
  { clear. intros fuel. induction fuel as [|fuel IH]; intros item i Hrun.
    - destruct item as [| |it]; simpl in Hrun; simplify_eq; [done|].
      destruct (String.eqb (key it) k); by simplify_eq.
    - destruct item as [| |it]; simpl in Hrun.
      + by simplify_eq.
      + destruct (ht_get_hash k (size ht) i) as [index|]; simplify_eq/=.
        destruct (get_item ht index) as [item'|]; simplify_eq/=.
        destruct (chk_int (i + 1)) as [i'|]; simplify_eq/=. eauto.
      + destruct (String.eqb (key it) k); [by simplify_eq|].
        destruct (ht_get_hash k (size ht) i) as [index|]; simplify_eq/=.
        destruct (get_item ht index) as [item'|]; simplify_eq/=.
        destruct (chk_int (i + 1)) as [i'|]; simplify_eq/=. eauto. }
  unfold ht_search. intros Hrun.
  destruct (ht_get_hash k (size ht) 0) as [index|]; simplify_eq/=.
  destruct (get_item ht index) as [item|]; simplify_eq/=.
  by rewrite (Hloop _ _ _ Hrun).
Qed.

Lemma ht_search_frame_witness :
  ht_search 1 ht_4 "4" = Some (Some "x"%string, ht_4) ∧
  size ht_4 = size ht_4 ∧ base_size ht_4 = base_size ht_4 ∧
  count ht_4 = count ht_4 ∧ items ht_4 = items ht_4.
Proof.
  assert (ht_search 1 ht_4 "4" = Some (Some "x"%string, ht_4)) as H
    by (vm_compute; reflexivity).
  split; [exact H|]. exact (ht_search_frame 1 ht_4 "4" _ _ H).
Defined.

(** * Further properties *)

(** ** Searches *)

Lemma live_iff_finds ht k v : ht_wf ht → live ht k v ↔ ht_finds ht k v.
Proof.
  intros Hwf. split.
  - by apply ht_search_live.
  - intros [fuel H]. by eapply ht_search_Some_live.
Qed.

Lemma live_get_item ht k v :
  live ht k v ↔ ∃ index, get_item ht index = Some (Ptr {| key := k; value := v |}).
Proof.
  split.
  - intros [x Hx]. exists (Z.of_nat x). by rewrite get_item_of_nat.
  - intros [index [_ H]%get_item_Some]. by eexists.
Qed.

(** X1.  [ht_search] only returns a value that the table holds for the
    key: when it returns [v] for [k], some bucket holds the item of key [k]
    and value [v]. *)
Theorem ht_search_sound (fuel : nat) (ht : ht_hash_table) (k v : string)
    (ht' : ht_hash_table) :
  ht_search fuel ht k = Some (Some v, ht') →
  ∃ index, get_item ht index = Some (Ptr {| key := k; value := v |}).
Proof.
  intros (-> & n & index & b & _ & Hs & Hf)%ht_search_inv.
  inversion Hf as [|it Hk Hb Hv]; subst.
  destruct Hs as [(_ & Hget & _) _]. exists index. by destruct it.
Qed.

Lemma ht_search_sound_witness :
  ∃ index, get_item ht_4 index = Some (Ptr {| key := "4"; value := "x" |}).
Proof.
  apply (ht_search_sound 1 ht_4 "4" "x" ht_4). vm_compute. reflexivity.
Defined.

(** X2.  On a well-formed table [ht_search] does not miss a key: when it
    returns [NULL] for [k], no bucket holds an item of key [k]. *)
Theorem ht_search_complete (fuel : nat) (ht : ht_hash_table) (k : string)
    (ht' : ht_hash_table) :
  ht_wf ht → ht_search fuel ht k = Some (None, ht') →
  ∀ index it, get_item ht index = Some (Ptr it) → key it ≠ k.
Proof.
  intros Hwf Hrun index [k0 v0] Hget Hk. simpl in Hk. subst k0.
  apply (ht_search_None_not_live _ _ _ v0 _ Hwf Hrun), live_get_item. eauto.
Qed.

Lemma ht_search_complete_witness :
  ht_search 1 ht_4 "cat" = Some (None, ht_4) ∧
  ∀ index it, get_item ht_4 index = Some (Ptr it) → key it ≠ "cat"%string.
Proof.
  split; [vm_compute; reflexivity|].
  apply (ht_search_complete 1 ht_4 "cat" ht_4).
  - apply reachable_wf, reachable_ht_4.
  - vm_compute. reflexivity.
Defined.

(** ** Inserts followed by searches *)

Lemma insert_all_spec fuel kvs : ∀ ht ht',
  ht_wf ht → insert_all fuel kvs ht = Some ht' →
  ht_wf ht' ∧
  ∀ k v, live ht' k v ↔
    match last_value kvs k with Some v' => v = v' | None => live ht k v end.
Proof.
  induction kvs as [|[k0 v0] kvs IH]; intros ht ht' Hwf Hrun; simplify_eq/=.
  { done. }
  destruct (ht_insert fuel ht k0 v0) as [ht1|] eqn:Hins; simplify_eq/=.
  destruct (ht_insert_spec fuel ht k0 v0 ht1 Hwf Hins) as [Hwf1 Hlive1].
  destruct (IH ht1 ht' Hwf1 Hrun) as [Hwf' Hlive'].
  split; [done|]. intros k v. rewrite Hlive'.
  destruct (last_value kvs k) as [v'|]; [done|].
  rewrite Hlive1. destruct (String.eqb_spec k0 k) as [->|Hne].
  - split; [intros [[_ ->]|[? _]]; done | intros ->; by left].
  - split; [intros [[-> _]|[_ ?]]; done | intros ?; right; split; [congruence|done]].
Qed.

(** X3.  The last write wins, and an insert leaves the other keys alone:
    after a sequence of inserts (keys may repeat) into a well-formed table,
    a search for a key of the sequence returns the value of the last insert
    of that key, and a search for a key outside the sequence returns a
    value exactly when it did before the inserts. *)
Theorem insert_all_last_write (fuel : nat) (kvs : list (string * string))
    (ht ht' : ht_hash_table) (k : string) :
  ht_wf ht → insert_all fuel kvs ht = Some ht' →
  match last_value kvs k with
  | Some v => ht_finds ht' k v
  | None => ∀ v, ht_finds ht' k v ↔ ht_finds ht k v
  end.
Proof.
  intros Hwf Hrun.
  destruct (insert_all_spec fuel kvs ht ht' Hwf Hrun) as [Hwf' Hlive].
  pose proof (Hlive k) as Hk.
  destruct (last_value kvs k) as [v|].
  - apply live_iff_finds, Hk; done.
  - intros v. by rewrite <-!live_iff_finds, Hk.
Qed.

Lemma insert_all_last_write_witness :
  ∃ ht', insert_all 3 [("cat", "feline"); ("dog", "canine"); ("cat", "lion")]%string
           ht_4 = Some ht' ∧
         ht_finds ht' "cat" "lion".
Proof.
  eexists. split; [vm_compute; reflexivity|].
  apply (insert_all_last_write 3
    [("cat", "feline"); ("dog", "canine"); ("cat", "lion")]%string ht_4 _ "cat").
  - apply reachable_wf, reachable_ht_4.
  - vm_compute. reflexivity.
Defined.

(** ** Deletes followed by searches *)



(** X5.  A delete leaves the other keys alone: on a well-formed table, a
    search for a key other than the deleted one returns a value after the
    delete exactly when it returned that value before. *)
Theorem ht_delete_other_keys (fuel : nat) (ht : ht_hash_table) (k : string)
    (ht' : ht_hash_table) (k' v : string) :
  ht_wf ht → ht_delete fuel ht k = Some ht' → k' ≠ k →
  ht_finds ht' k' v ↔ ht_finds ht k' v.
Proof.
  intros Hwf Hdel Hne.
  destruct (ht_delete_spec _ _ _ _ Hwf Hdel) as [Hwf' Hlive].
  rewrite <-!live_iff_finds, Hlive by done. tauto.
Qed.

Lemma ht_delete_other_keys_witness :
  ∃ ht', ht_delete 4 ht_4 "a" = Some ht' ∧
         (ht_finds ht' "4" "x" ↔ ht_finds ht_4 "4" "x").
Proof.
  eexists. split; [vm_compute; reflexivity|].
  apply (ht_delete_other_keys 4 ht_4 "a").
  - apply reachable_wf, reachable_ht_4.
  - vm_compute. reflexivity.
  - discriminate.
Defined.

(** ** One bucket per key *)

(** X6.  No table a driver can hold has the same key in two buckets: if
    two buckets of a reachable table hold items with equal keys, they are
    the same bucket. *)
Theorem reachable_unique_key (ht : ht_hash_table) (i j : Z) (it it' : ht_item) :
  reachable ht →
  get_item ht i = Some (Ptr it) → get_item ht j = Some (Ptr it') →
  key it = key it' → i = j.
Proof.
  intros Hr [Hi Hit]%get_item_Some [Hj Hit']%get_item_Some Hk.
  pose proof (wf_unique ht _ _ _ _ (reachable_wf _ Hr) Hit Hit' Hk). lia.
Qed.

Lemma reachable_unique_key_witness :
  get_item ht_4 52 = Some (Ptr {| key := "4"; value := "x" |}) ∧ 52 = 52.
Proof.
  split; [reflexivity|].
  apply (reachable_unique_key ht_4 52 52
           {| key := "4"; value := "x" |} {| key := "4"; value := "x" |}).
  - apply reachable_ht_4.
  - reflexivity.
  - reflexivity.
  - reflexivity.
Defined.

(** ** The number of live entries *)

Lemma elem_of_live_list_live ht it :
  it ∈ live_list (items ht) ↔ live ht (key it) (value it).
Proof. rewrite elem_of_live_list. by destruct it. Qed.

Lemma live_dec ht k : (∃ v, live ht k v) ∨ (∀ v, ¬ live ht k v).
Proof.
  destruct (decide (Exists (λ it, key it = k) (live_list (items ht)))) as [H|H].
  - left. apply Exists_exists in H as (it & Hin & <-).
    exists (value it). by apply elem_of_live_list_live.
  - right. intros v Hl. apply H, Exists_exists.
    exists {| key := k; value := v |}. split; [|done].
    by apply elem_of_live_list_live.
Qed.

(** The live items of a well-formed table, without those of key [k]: one
    less when [k] is live, as many when it is not. *)
Lemma live_list_without ht k :
  ht_wf ht →
  (∀ v, live ht k v →
     length (live_list (items ht)) =
     S (length (filter (λ it, key it ≠ k) (live_list (items ht))))) ∧
  ((∀ v, ¬ live ht k v) →
     length (live_list (items ht)) =
     length (filter (λ it, key it ≠ k) (live_list (items ht)))).
Proof.
  intros Hwf. pose proof (wf_NoDup_live_list _ Hwf) as Hnd. split.
  - intros v Hl.
    change (S (length ?l)) with (length ({| key := k; value := v |} :: l)).
    apply Permutation_length, NoDup_Permutation; [done| |].
    + apply NoDup_cons. split; [|by apply NoDup_filter].
      rewrite list_elem_of_filter. simpl. tauto.
    + intros it. rewrite elem_of_cons, list_elem_of_filter. split.
      * intros Hin. destruct (decide (key it = k)) as [Hk|Hk]; [left|by right].
        destruct it as [k0 v0]. simpl in Hk. subst k0.
        apply elem_of_live_list_live in Hin. simpl in Hin.
        by rewrite (live_fun _ _ _ _ Hwf Hl Hin).
      * intros [->|[_ ?]]; [by apply elem_of_live_list_live|done].
  - intros Hnl. apply Permutation_length, NoDup_Permutation;
      [done|by apply NoDup_filter|].
    intros it. rewrite list_elem_of_filter. split; [|tauto].
    intros Hin. split; [|done]. intros <-.
    by apply (Hnl (value it)), elem_of_live_list_live.
Qed.

(** A table that holds what [ht] holds for the keys other than [k]. *)
Lemma live_list_removed ht ht' k :
  ht_wf ht → ht_wf ht' →
  (∀ k' v', live ht' k' v' ↔ k' ≠ k ∧ live ht k' v') →
  length (live_list (items ht')) =
  length (filter (λ it, key it ≠ k) (live_list (items ht))).
Proof.
  intros Hwf Hwf' Hlive. apply Permutation_length, NoDup_Permutation.
  - by apply wf_NoDup_live_list.
  - by apply NoDup_filter, wf_NoDup_live_list.
  - intros it. by rewrite list_elem_of_filter, !elem_of_live_list_live, Hlive.
Qed.

(** A table that holds [v] for [k] and what [ht] holds for the other keys. *)
Lemma live_list_added ht ht' k v :
  ht_wf ht → ht_wf ht' →
  (∀ k' v', live ht' k' v' ↔ (k' = k ∧ v' = v) ∨ (k' ≠ k ∧ live ht k' v')) →
  length (live_list (items ht')) =
  S (length (filter (λ it, key it ≠ k) (live_list (items ht)))).
Proof.
  intros Hwf Hwf' Hlive.
  change (S (length ?l)) with (length ({| key := k; value := v |} :: l)).
  apply Permutation_length, NoDup_Permutation.
  - by apply wf_NoDup_live_list.
  - apply NoDup_cons. split; [|by apply NoDup_filter, wf_NoDup_live_list].
    rewrite list_elem_of_filter. simpl. tauto.
  - intros it.
    rewrite elem_of_cons, list_elem_of_filter, !elem_of_live_list_live, Hlive.
    destruct it as [k0 v0]. simpl. split.
    + intros [[-> ->]|?]; [by left|by right].
    + intros [[= -> ->]|?]; [by left|by right].
Qed.

(** X7.  An insert into a well-formed table adds one live entry when the
    key is new and none when the key is already there (whether or not the
    table is resized on the way): the table never holds two items for one
    key. *)
Theorem ht_insert_live_entries (fuel : nat) (ht : ht_hash_table) (k v : string)
    (ht' : ht_hash_table) :
  ht_wf ht → ht_insert fuel ht k v = Some ht' →
  ((∃ v0, live ht k v0) → live_entries (items ht') = live_entries (items ht)) ∧
  ((∀ v0, ¬ live ht k v0) → live_entries (items ht') = live_entries (items ht) + 1).
Proof.
  intros Hwf Hins.
  destruct (ht_insert_spec fuel ht k v ht' Hwf Hins) as [Hwf' Hlive].
  pose proof (live_list_added _ _ _ _ Hwf Hwf' Hlive) as Hadd.
  destruct (live_list_without ht k Hwf) as [Hin Hout].
  rewrite !live_entries_length. split.
  - intros [v0 Hv0]. rewrite Hadd, (Hin v0 Hv0). done.
  - intros Hnl. rewrite Hadd, (Hout Hnl). lia.
Qed.

Lemma ht_insert_live_entries_witness :
  ∃ ht', ht_insert 2 ht_4 "4" "y" = Some ht' ∧
         live_entries (items ht') = live_entries (items ht_4).
Proof.
  eexists. split; [vm_compute; reflexivity|].
  apply (ht_insert_live_entries 2 ht_4 "4" "y").
  - apply reachable_wf, reachable_ht_4.
  - vm_compute. reflexivity.
  - exists "x"%string. apply ht_4_live.
Defined.

(** X8.  A delete on a well-formed table removes one live entry when the
    key is there and none when it is not (the count field is decremented in
    both cases). *)
Theorem ht_delete_live_entries (fuel : nat) (ht : ht_hash_table) (k : string)
    (ht' : ht_hash_table) :
  ht_wf ht → ht_delete fuel ht k = Some ht' →
  ((∃ v0, live ht k v0) → live_entries (items ht') = live_entries (items ht) - 1) ∧
  ((∀ v0, ¬ live ht k v0) → live_entries (items ht') = live_entries (items ht)).
Proof.
  intros Hwf Hdel.
  destruct (ht_delete_spec fuel ht k ht' Hwf Hdel) as [Hwf' Hlive].
  pose proof (live_list_removed _ _ _ Hwf Hwf' Hlive) as Hrem.
  destruct (live_list_without ht k Hwf) as [Hin Hout].
  rewrite !live_entries_length. split.
  - intros [v0 Hv0]. rewrite Hrem, (Hin v0 Hv0). lia.
  - intros Hnl. rewrite Hrem, (Hout Hnl). done.
Qed.

Lemma ht_delete_live_entries_witness :
  ∃ ht ht', ht_insert 2 ht_empty "a" "x" = Some ht ∧
            ht_delete 4 ht "a" = Some ht' ∧
            live_entries (items ht') = live_entries (items ht) - 1.
Proof.
  eexists. eexists. split; [vm_compute; reflexivity|].
  split; [vm_compute; reflexivity|].
  eapply (ht_delete_live_entries 4 _ "a").
  - apply reachable_wf.
    apply (reach_insert 2 ht_empty "a" "x"); [|vm_compute; reflexivity].
    apply reach_new, ht_new_empty.
  - vm_compute. reflexivity.
  - exists "x"%string, 44%nat. vm_compute. reflexivity.
Defined.

Lemma live_entries_le_length l : live_entries l ≤ Z.of_nat (length l).
Proof. induction l as [|[] l IH]; simpl; lia. Qed.

Lemma count_le_live_new base ht :
  ht_new_sized base = Some ht → count ht ≤ live_entries (items ht).
Proof.
  unfold ht_new_sized. intros H. simplify_option_eq.
  simpl. apply live_entries_nonneg.
Qed.

Lemma count_le_live_placed ht item index b ht' :
  count ht ≤ live_entries (items ht) → get_item ht index = Some b →
  placed ht item index b ht' → count ht' ≤ live_entries (items ht').
Proof.
  intros Hle [_ Hget]%get_item_Some [-> _ ->| Hm ->]; simpl;
    rewrite (live_entries_insert _ _ _ _ Hget); simpl.
  - lia.
  - destruct b; try done. simpl. lia.
Qed.

Lemma count_le_live_delete_scan fuel ht k ht' :
  ht_wf ht → count ht ≤ live_entries (items ht) →
  ht_delete_scan fuel ht k = Some ht' → count ht' ≤ live_entries (items ht').
Proof.
  intros Hwf Hle Hdel.
  destruct (ht_delete_scan_spec _ _ _ _ Hwf Hdel) as [Hwf' Hlive].
  pose proof (live_list_removed _ _ _ Hwf Hwf' Hlive) as Hrem.
  destruct (live_list_without ht k Hwf) as [Hin Hout].
  destruct (ht_delete_scan_inv _ _ _ _ Hdel)
    as (ht2 & n & index & (_ & _ & Hc & _) & _ & _ & ->).
  revert Hle. rewrite !live_entries_length, Hrem. simpl.
  destruct (live_dec ht k) as [[v0 Hv0]|Hnl].
  - rewrite (Hin v0 Hv0). lia.
  - rewrite (Hout Hnl). lia.
Qed.

(** X9.  In every table a driver can hold, the count field is at most the
    number of buckets that hold an item, and that number is at most the
    number of buckets: [count <= size] throughout, although a delete of an
    absent key lowers the count below the number of items. *)
Theorem reachable_count_bound (ht : ht_hash_table) :
  reachable ht →
  count ht ≤ live_entries (items ht) ∧ live_entries (items ht) ≤ size ht.
Proof.
  intros Hr. split.
  - induction Hr as [ht Hnew|fuel ht k v ht' Hr IH Hins
                     |fuel ht k r ht' Hr IH Hs|fuel ht k ht' Hr IH Hdel].
    + by apply (count_le_live_new HT_INITIAL_BASE_SIZE).
    + revert IH Hins.
      apply (ht_insert_preserves (λ ht, count ht ≤ live_entries (items ht))).
      * intros base h _. apply count_le_live_new.
      * apply count_le_live_placed.
    + by apply ht_search_inv in Hs as [-> _].
    + unfold ht_delete in Hdel.
      destruct (ht_delete_resize (ht_insert fuel) ht) as [ht1|] eqn:Hres;
        simplify_eq/=.
      pose proof (reachable_wf _ Hr) as Hwf.
      destruct (ht_delete_resize_spec _ (ht_insert_spec fuel) _ _ Hwf Hres)
        as [Hwf1 _].
      apply (count_le_live_delete_scan fuel ht1 k); [done| |done].
      revert Hres.
      apply (ht_delete_resize_preserves (λ ht, count ht ≤ live_entries (items ht)));
        [intros base h _; apply count_le_live_new| |done].
      apply ht_insert_preserves;
        [intros base h _; apply count_le_live_new|apply count_le_live_placed].
  - pose proof (wf_length _ (reachable_wf _ Hr)) as Hlen.
    destruct (size_inv_prime _ (reachable_size_inv _ Hr)) as [_ Hsz].
    pose proof (live_entries_le_length (items ht)). lia.
Qed.

Lemma reachable_count_bound_witness :
  count ht_4 ≤ live_entries (items ht_4) ∧ live_entries (items ht_4) ≤ size ht_4.
Proof. apply (reachable_count_bound ht_4), reachable_ht_4. Defined.

(** ** Freeing the table *)

Lemma ht_del_hash_table_loop_spec ht n : ∀ i : nat,
  ht_del_hash_table_loop n ht (Z.of_nat i) = Some () ↔
  ∀ x, (i ≤ x < i + n)%nat →
    ∃ b, items ht !! x = Some b ∧ b ≠ HT_DELETED_ITEM.
Proof.
  induction n as [|n IH]; intros i; simpl.
  { split; [intros _ x ?; lia|done]. }
  rewrite get_item_of_nat.
  replace (Z.of_nat i + 1) with (Z.of_nat (S i)) by lia. split.
  - intros Hrun x Hx.
    destruct (items ht !! i) as [b|] eqn:Hb; simplify_eq/=.
    destruct (decide (x = i)) as [->|Hne].
    + exists b. split; [done|]. intros ->. done.
    + apply (proj1 (IH (S i))); [|lia]. by destruct b; simplify_eq/=.
  - intros Hall. destruct (Hall i ltac:(lia)) as (b & -> & Hb). simpl.
    assert (ht_del_hash_table_loop n ht (Z.of_nat (S i)) = Some ()) as ->.
    { apply IH. intros x Hx. apply Hall. lia. }
    by destruct b.
Qed.

Lemma ht_del_hash_table_spec ht :
  length (items ht) = Z.to_nat (size ht) →
  ht_del_hash_table ht = Some () ↔ no_tombstone ht.
Proof.
  intros Hlen. unfold ht_del_hash_table.
  rewrite (ht_del_hash_table_loop_spec ht _ 0). split.
  - intros Hall x Hx.
    destruct (Hall x) as (b & Hb & Hne); [|congruence].
    apply lookup_lt_Some in Hx. lia.
  - intros Hnt x Hx.
    destruct (lookup_lt_is_Some_2 (items ht) x) as [b Hb]; [lia|].
    exists b. split; [done|]. intros ->. by apply (Hnt x).
Qed.

(** X10.  [ht_del_hash_table] is defined exactly for the tables without a
    tombstone: it passes every bucket that is not [NULL] to [ht_del_item],
    which frees it, and the tombstone is the address of a static object. *)
Theorem ht_del_hash_table_defined (ht : ht_hash_table) :
  length (items ht) = Z.to_nat (size ht) →
  (ht_del_hash_table ht = Some () ↔
   ∀ index, get_item ht index ≠ Some HT_DELETED_ITEM) ∧
  (ht_del_hash_table ht = None ↔
   ∃ index, get_item ht index = Some HT_DELETED_ITEM).
Proof.
  intros Hlen.
  assert (Hnt : no_tombstone ht ↔ ∀ index, get_item ht index ≠ Some HT_DELETED_ITEM).
  { split.
    - intros H index [_ Hget]%get_item_Some. exact (H _ Hget).
    - intros H x Hx. apply (H (Z.of_nat x)). by rewrite get_item_of_nat. }
  pose proof (ht_del_hash_table_spec ht Hlen) as Hspec.
  split; [by rewrite Hspec|].
  split.
  - intros Hnone.
    destruct (decide (Exists (λ b, b = HT_DELETED_ITEM) (items ht))) as [H|H].
    + apply Exists_exists in H as (b & [x Hx]%list_elem_of_lookup & ->).
      exists (Z.of_nat x). by rewrite get_item_of_nat.
    + assert (ht_del_hash_table ht = Some ()); [|congruence].
      apply Hspec. intros x Hx. apply H, Exists_exists.
      exists HT_DELETED_ITEM. split; [|done]. by eapply list_elem_of_lookup_2.
  - intros [index Hget]. destruct (ht_del_hash_table ht) as [[]|] eqn:Hd; [|done].
    pose proof (proj1 Hnt (proj1 Hspec eq_refl)) as Hn. by destruct (Hn index).
Qed.

Lemma ht_del_hash_table_defined_witness :
  (ht_del_hash_table ht_4_deleted = Some () ↔
   ∀ index, get_item ht_4_deleted index ≠ Some HT_DELETED_ITEM) ∧
  (ht_del_hash_table ht_4_deleted = None ↔
   ∃ index, get_item ht_4_deleted index = Some HT_DELETED_ITEM).
Proof. apply (ht_del_hash_table_defined ht_4_deleted). reflexivity. Defined.

Lemma no_tombstone_new base ht :
  ht_new_sized base = Some ht →
  no_tombstone ht ∧ length (items ht) = Z.to_nat (size ht).
Proof.
  unfold ht_new_sized. intros H. simplify_option_eq. simpl. split.
  - intros x [? _]%lookup_replicate. done.
  - by rewrite length_replicate.
Qed.

Lemma no_tombstone_placed ht item index b ht' :
  no_tombstone ht ∧ length (items ht) = Z.to_nat (size ht) →
  get_item ht index = Some b → placed ht item index b ht' →
  no_tombstone ht' ∧ length (items ht') = Z.to_nat (size ht').
Proof.
  intros [Hnt Hlen] Hget (_ & Hsz & _ & Hit)%placed_cases.
  unfold no_tombstone in *. rewrite Hsz, Hit, length_insert. split; [|done].
  intros x Hx.
  destruct (decide (x = Z.to_nat index)) as [->|Hne].
  - apply get_item_Some in Hget as [_ Hget].
    apply lookup_lt_Some in Hget. by rewrite list_lookup_insert_eq in Hx.
  - rewrite list_lookup_insert_ne in Hx by done. by apply (Hnt x).
Qed.

Lemma ht_insert_no_tombstone fuel :
  preserves (λ ht, no_tombstone ht ∧ length (items ht) = Z.to_nat (size ht))
    (ht_insert fuel).
Proof.
  apply ht_insert_preserves.
  - intros base ht _. apply no_tombstone_new.
  - apply no_tombstone_placed.
Qed.

(** X11.  A table that was only inserted into can be freed: after
    [ht_new_sized] and any sequence of inserts that return,
    [ht_del_hash_table] is defined (inserts, with the resizes they start,
    never write a tombstone). *)
Theorem ht_del_hash_table_after_inserts (fuel : nat) (base : Z)
    (kvs : list (string * string)) (ht0 ht : ht_hash_table) :
  ht_new_sized base = Some ht0 → insert_all fuel kvs ht0 = Some ht →
  ht_del_hash_table ht = Some ().
Proof.
  intros Hnew Hrun.
  assert (H : no_tombstone ht ∧ length (items ht) = Z.to_nat (size ht)).
  { apply no_tombstone_new in Hnew. revert ht0 Hnew Hrun.
    induction kvs as [|[k v] kvs IH]; intros ht0 H0 Hrun; simplify_eq/=; [done|].
    destruct (ht_insert fuel ht0 k v) as [ht1|] eqn:Hins; simplify_eq/=.
    apply (IH ht1); [|done]. by apply (ht_insert_no_tombstone fuel ht0 k v). }
  destruct H as [Hnt Hlen]. by apply ht_del_hash_table_spec.
Qed.

Lemma ht_del_hash_table_after_inserts_witness :
  ∃ ht, insert_all 3 [("cat", "feline"); ("dog", "canine")]%string ht_empty = Some ht ∧
        ht_del_hash_table ht = Some ().
Proof.
  eexists. split; [vm_compute; reflexivity|].
  apply (ht_del_hash_table_after_inserts 3 50
           [("cat", "feline"); ("dog", "canine")]%string ht_empty).
  - vm_compute. reflexivity.
  - vm_compute. reflexivity.
Defined.

(** X12.  After a delete of a key that was in the table, the table can no
    longer be freed: the delete leaves a tombstone in the bucket of the key
    and [ht_del_hash_table] passes it to [free]. *)
Theorem ht_del_hash_table_after_delete (fuel : nat) (ht : ht_hash_table)
    (k v : string) (ht' : ht_hash_table) :
  ht_wf ht → live ht k v → ht_delete fuel ht k = Some ht' →
  ht_del_hash_table ht' = None.
Proof.
  intros Hwf Hl Hdel.
  destruct (ht_delete_spec _ _ _ _ Hwf Hdel) as [Hwf' Hlive].
  unfold ht_delete in Hdel.
  destruct (ht_delete_resize (ht_insert fuel) ht) as [ht1|] eqn:Hres; simplify_eq/=.
  destruct (ht_delete_resize_spec _ (ht_insert_spec fuel) _ _ Hwf Hres)
    as [Hwf1 Hlive1].
  destruct (proj2 (Hlive1 k v) Hl) as [x Hx].
  destruct (ht_delete_scan_inv _ _ _ _ Hdel)
    as (ht2 & n & index & (_ & _ & _ & _ & Htomb) & _ & _ & ->).
  destruct (Htomb _ _ Hx) as [Hsame|[_ Hdeleted]].
  - exfalso. assert (live (set_count ht2 (count ht1 - 1)) k v) as Hk by by exists x.
    apply Hlive in Hk as [? _]. done.
  - destruct (ht_del_hash_table _) as [[]|] eqn:Hd; [|done].
    apply ht_del_hash_table_spec in Hd; [|by apply wf_length].
    by destruct (Hd x).
Qed.

Lemma ht_del_hash_table_after_delete_witness :
  ∃ ht ht', ht_insert 2 ht_empty "a" "x" = Some ht ∧
            ht_delete 4 ht "a" = Some ht' ∧
            ht_del_hash_table ht' = None.
Proof.
  eexists. eexists. split; [vm_compute; reflexivity|].
  split; [vm_compute; reflexivity|].
  eapply (ht_del_hash_table_after_delete 4 _ "a" "x").
  - apply reachable_wf.
    apply (reach_insert 2 ht_empty "a" "x"); [|vm_compute; reflexivity].
    apply reach_new, ht_new_empty.
  - exists 44%nat. vm_compute. reflexivity.
  - vm_compute. reflexivity.
Defined.

(** ** Resizes *)

(** X13.  A resize keeps the contents: on a well-formed table, after
    [ht_resize], [ht_resize_up] or [ht_resize_down] a search returns a
    value for a key exactly when it returned that value before, and the
    table is well formed again. *)
Theorem ht_resize_keeps_contents (fuel : nat) (ht : ht_hash_table) (base : Z)
    (ht' : ht_hash_table) :
  ht_wf ht →
  ht_resize (ht_insert fuel) ht base = Some ht' ∨
  ht_resize_up (ht_insert fuel) ht = Some ht' ∨
  ht_resize_down (ht_insert fuel) ht = Some ht' →
  ht_wf ht' ∧ ∀ k v, ht_finds ht' k v ↔ ht_finds ht k v.
Proof.
  intros Hwf Hres.
  assert (∃ base', ht_resize (ht_insert fuel) ht base' = Some ht') as [base' H].
  { destruct Hres as [H|[H|H]]; [by eexists| |].
    - unfold ht_resize_up in H.
      destruct (chk_int _) as [b|]; simplify_eq/=. by exists b.
    - unfold ht_resize_down in H.
      destruct (c_div _ _) as [b|]; simplify_eq/=. by exists b. }
  destruct (ht_resize_spec _ (ht_insert_spec fuel) _ _ _ Hwf H) as [Hwf' Hlive].
  split; [done|]. intros k v. by rewrite <-!live_iff_finds, Hlive.
Qed.

Lemma ht_resize_keeps_contents_witness :
  ∃ ht', ht_resize_up (ht_insert 2) ht_4 = Some ht' ∧ size ht' = 101 ∧
         ht_wf ht' ∧ ∀ k v, ht_finds ht' k v ↔ ht_finds ht_4 k v.
Proof.
  eexists. split; [vm_compute; reflexivity|]. split; [reflexivity|].
  apply (ht_resize_keeps_contents 2 ht_4 0).
  - apply reachable_wf, reachable_ht_4.
  - right. left. vm_compute. reflexivity.
Defined.

(** X14.  A resize that takes effect (new base size at least 50) returns
    only for a table without a tombstone, and the table it returns has
    none: the old table is freed by [ht_del_hash_table], and the new one is
    filled by inserts. *)
Theorem ht_resize_no_tombstone (fuel : nat) (ht : ht_hash_table) (base : Z)
    (ht' : ht_hash_table) :
  length (items ht) = Z.to_nat (size ht) → HT_INITIAL_BASE_SIZE ≤ base →
  ht_resize (ht_insert fuel) ht base = Some ht' →
  (∀ index, get_item ht index ≠ Some HT_DELETED_ITEM) ∧
  (∀ index, get_item ht' index ≠ Some HT_DELETED_ITEM).
Proof.
  intros Hlen Hbase Hres. split.
  - destruct (ht_resize_inv _ _ _ _ Hres) as [[? _]|(_ & new_ht & _ & _ & Hdel)];
      [lia|].
    apply (ht_del_hash_table_spec _ Hlen) in Hdel.
    intros index [_ Hget]%get_item_Some. exact (Hdel _ Hget).
  - assert (no_tombstone ht' ∧ length (items ht') = Z.to_nat (size ht'))
      as [Hnt _].
    { apply (ht_resize_establishes
        (λ ht, no_tombstone ht ∧ length (items ht) = Z.to_nat (size ht))
        (λ b h _, no_tombstone_new b h)
        (ht_insert fuel) ht base ht' (ht_insert_no_tombstone fuel) Hbase Hres). }
    intros index [_ Hget]%get_item_Some. exact (Hnt _ Hget).
Qed.

Lemma ht_resize_no_tombstone_witness :
  ∃ ht', ht_resize (ht_insert 2) ht_4 100 = Some ht' ∧
         (∀ index, get_item ht_4 index ≠ Some HT_DELETED_ITEM) ∧
         (∀ index, get_item ht' index ≠ Some HT_DELETED_ITEM).
Proof.
  eexists. split; [vm_compute; reflexivity|].
  apply (ht_resize_no_tombstone 2 ht_4 100).
  - reflexivity.
  - vm_compute. discriminate.
  - vm_compute. reflexivity.
Defined.

(** ** Probe sequences *)

Lemma ht_get_hash_range k m ha hb i :
  0 < m → ht_hash k HT_PRIME_1 m = Some ha → ht_hash k HT_PRIME_2 m = Some hb →
  0 ≤ ha → 0 ≤ hb → 0 ≤ i → (i + 1) * m ≤ INT_MAX →
  ht_get_hash k m i = Some ((ha + i * (hb + 1)) mod m).
Proof.
  intros Hm Ha Hb Hha Hhb Hi Hmax.
  pose proof (ht_hash_bound _ _ _ _ Hm Ha).
  pose proof (ht_hash_bound _ _ _ _ Hm Hb).
  unfold ht_get_hash. rewrite Ha, Hb. cbn [mbind option_bind].
  assert (0 ≤ i * (hb + 1) ≤ i * m).
  { split; [apply Z.mul_nonneg_nonneg; lia|].
    apply Z.mul_le_mono_nonneg_l; lia. }
  assert (m ≤ INT_MAX).
  { assert (0 ≤ i * m) by (apply Z.mul_nonneg_nonneg; lia). lia. }
  unfold INT_MAX in *.
  rewrite chk_int_in by (unfold INT_MIN, INT_MAX; lia). cbn [mbind option_bind].
  rewrite chk_int_in by (unfold INT_MIN, INT_MAX; lia). cbn [mbind option_bind].
  rewrite chk_int_in by (unfold INT_MIN, INT_MAX; lia). cbn [mbind option_bind].
  unfold c_rem. destruct (Z.eqb_spec m 0); [lia|].
  by rewrite Z.rem_mod_nonneg by lia.
Qed.

(** X15.  For a key of at most 8 ASCII characters, [ht_get_hash] is
    defined and returns an index inside the array, [0 <= index <
    num_buckets], at every attempt for which the product of [attempt + 1]
    and [num_buckets] fits an [int]. *)
Theorem ht_get_hash_in_range (k : string) (num_buckets attempt : Z) :
  Forall is_ascii (list_ascii_of_string k) → (String.length k ≤ 8)%nat →
  0 < num_buckets → 0 ≤ attempt → (attempt + 1) * num_buckets ≤ INT_MAX →
  ∃ index, ht_get_hash k num_buckets attempt = Some index ∧
           0 ≤ index < num_buckets.
Proof.
  intros Hasc Hlen Hm Hi Hmax.
  assert (num_buckets ≤ INT_MAX).
  { assert (0 ≤ attempt * num_buckets) by (apply Z.mul_nonneg_nonneg; lia). lia. }
  destruct (ht_hash_short_key k num_buckets) as (ha & hb & Ha & Hb & Hha & Hhb);
    [lia|done|done|].
  eexists. split.
  - apply (ht_get_hash_range k num_buckets ha hb attempt); (done || lia).
  - apply Z.mod_pos_bound. done.
Qed.

Lemma ht_get_hash_in_range_witness :
  ∃ index, ht_get_hash "cat" 53 7 = Some index ∧ 0 ≤ index < 53.
Proof.
  apply (ht_get_hash_in_range "cat" 53 7).
  - repeat constructor.
  - simpl. lia.
  - lia.
  - lia.
  - vm_compute. discriminate.
Defined.

(** X16.  The empty key probes the array in order: [ht_get_hash] of the
    empty string is the attempt number modulo the number of buckets (both
    hashes are 0, so the step is 1 and the first index is 0). *)
Theorem ht_get_hash_empty_key (num_buckets attempt : Z) :
  0 < num_buckets → 0 ≤ attempt ≤ INT_MAX →
  ht_get_hash "" num_buckets attempt = Some (attempt mod num_buckets).
Proof.
  intros Hm Hi. unfold ht_get_hash, ht_hash. simpl.
  change (chk_int 0) with (Some 0). cbn [mbind option_bind].
  change (chk_int (0 + 1)) with (Some 1). cbn [mbind option_bind].
  rewrite Z.mul_1_r, (chk_int_in attempt) by (unfold INT_MIN; lia).
  cbn [mbind option_bind]. rewrite Z.add_0_l.
  rewrite (chk_int_in attempt) by (unfold INT_MIN; lia). cbn [mbind option_bind].
  unfold c_rem. destruct (Z.eqb_spec num_buckets 0); [lia|].
  by rewrite Z.rem_mod_nonneg by lia.
Qed.

Lemma ht_get_hash_empty_key_witness :
  ht_get_hash "" 53 60 = Some (60 mod 53).
Proof.
  apply (ht_get_hash_empty_key 53 60).
  - lia.
  - unfold INT_MAX. lia.
Defined.

(** X17.  With a prime number of buckets (at most 46340) and a second
    hash other than [num_buckets - 1], the first [num_buckets] attempts of
    [ht_get_hash] are a permutation of the buckets: every index is returned
    at exactly one of these attempts. *)
Theorem ht_get_hash_permutation (s : string) (m ha hb x : Z) :
  Z.prime m → m ≤ 46340 →
  ht_hash s HT_PRIME_1 m = Some ha → ht_hash s HT_PRIME_2 m = Some hb →
  0 ≤ ha → 0 ≤ hb → hb ≠ m - 1 → 0 ≤ x < m →
  ∃ j, 0 ≤ j < m ∧ ht_get_hash s m j = Some x ∧
       ∀ j', 0 ≤ j' < m → ht_get_hash s m j' = Some x → j' = j.
Proof.
  intros Hp Hm Ha Hb Hha Hhb Hne Hx.
  assert (0 < m) as Hm0 by lia.
  pose proof (ht_hash_bound _ _ _ _ Hm0 Hb) as Hbb.
  destruct (probe_surjective m ha (hb + 1) x Hp ltac:(lia) Hx) as (j & Hj & Hjx).
  assert (Hgj : ht_get_hash s m j = Some x).
  { rewrite (ht_get_hash_mod s m ha hb j) by (done || lia). by rewrite Hjx. }
  exists j. split; [done|]. split; [done|]. intros j' Hj' Hgj'.
  destruct (Z.lt_trichotomy j' j) as [Hlt|[Heq|Hgt]]; [|done|].
  - by destruct (ht_get_hash_distinct s m ha hb j' j x x Hp Ha Hb Hha
      ltac:(lia) ltac:(lia) ltac:(lia) Hgj' Hgj).
  - by destruct (ht_get_hash_distinct s m ha hb j j' x x Hp Ha Hb Hha
      ltac:(lia) ltac:(lia) ltac:(lia) Hgj Hgj').
Qed.

Lemma prime_53 : Z.prime 53.
Proof. apply is_prime_spec. vm_compute. reflexivity. Qed.

Lemma ht_get_hash_permutation_witness :
  ∃ j, 0 ≤ j < 53 ∧ ht_get_hash "a" 53 j = Some 7 ∧
       ∀ j', 0 ≤ j' < 53 → ht_get_hash "a" 53 j' = Some 7 → j' = j.
Proof.
  apply (ht_get_hash_permutation "a" 53 44 44 7).
  - apply prime_53.
  - lia.
  - vm_compute. reflexivity.
  - vm_compute. reflexivity.
  - lia.
  - lia.
  - lia.
  - lia.
Defined.

(** ** Calls that return *)

(** What the termination lemmas need of a reachable table and a short
    ASCII key. *)
Lemma reachable_probe_facts ht k :
  reachable ht → size ht ≤ 46340 →
  Forall is_ascii (list_ascii_of_string k) → (String.length k ≤ 8)%nat →
  length (items ht) = Z.to_nat (size ht) ∧ Z.prime (size ht) ∧
  ∃ ha hb, ht_hash k HT_PRIME_1 (size ht) = Some ha ∧
           ht_hash k HT_PRIME_2 (size ht) = Some hb ∧ 0 ≤ ha ∧ 0 ≤ hb.
Proof.
  intros Hr Hsz Hasc Hlen.
  destruct (size_inv_prime _ (reachable_size_inv _ Hr)) as [Hp H53].
  split; [apply wf_length, reachable_wf, Hr|]. split; [done|].
  destruct (ht_hash_short_key k (size ht)) as (ha & hb & Ha & Hb & Hha & Hhb);
    [unfold INT_MAX; lia|done|done|].
  exists ha, hb. repeat split; (done || lia).
Qed.

Lemma null_bucket ht :
  (∃ index, get_item ht index = Some NULL) → ∃ x : nat, items ht !! x = Some NULL.
Proof. intros [index [_ H]%get_item_Some]. by eexists. Qed.

(** X18.  [ht_insert] returns, with enough fuel for its loop, on every
    table a driver can hold with at most 46340 buckets, one of them [NULL],
    and a load of at most 70 (no resize), for every key of at most 8 ASCII
    characters whose second hash is not [size - 1]. *)
Theorem ht_insert_terminates (ht : ht_hash_table) (k v : string) (load : Z) :
  reachable ht → size ht ≤ 46340 →
  Forall is_ascii (list_ascii_of_string k) → (String.length k ≤ 8)%nat →
  ht_hash k HT_PRIME_2 (size ht) ≠ Some (size ht - 1) →
  (∃ index, get_item ht index = Some NULL) →
  ht_load ht = Some load → load ≤ 70 →
  ∃ fuel ht', ht_insert fuel ht k v = Some ht'.
Proof.
  intros Hr Hsz Hasc Hlen Hstep Hnull Hload Hle.
  destruct (reachable_probe_facts ht k Hr Hsz Hasc Hlen)
    as (Hl & Hp & ha & hb & Ha & Hb & Hha & Hhb).
  apply (ht_insert_returns ht k v ha hb load); try done.
  - congruence.
  - by apply null_bucket.
  - unfold ht_load in Hload.
    destruct (chk_int (count ht * 100)) as [c|] eqn:Hc; [|done].
    apply chk_int_Some in Hc as [_ Hc]. unfold INT_MIN, INT_MAX in *. lia.
Qed.

Lemma ht_insert_terminates_witness :
  ∃ fuel ht', ht_insert fuel ht_4 "cat" "feline" = Some ht'.
Proof.
  apply (ht_insert_terminates ht_4 "cat" "feline" 1).
  - apply reachable_ht_4.
  - vm_compute. discriminate.
  - repeat constructor.
  - simpl. lia.
  - vm_compute. discriminate.
  - exists 0. reflexivity.
  - reflexivity.
  - lia.
Defined.

(** X19.  [ht_search] returns, with enough fuel for its loop, on every
    table a driver can hold with at most 46340 buckets, one of them [NULL],
    for every key of at most 8 ASCII characters whose second hash is not
    [size - 1]; the table is unchanged. *)
Theorem ht_search_terminates (ht : ht_hash_table) (k : string) :
  reachable ht → size ht ≤ 46340 →
  Forall is_ascii (list_ascii_of_string k) → (String.length k ≤ 8)%nat →
  ht_hash k HT_PRIME_2 (size ht) ≠ Some (size ht - 1) →
  (∃ index, get_item ht index = Some NULL) →
  ∃ fuel r, ht_search fuel ht k = Some (r, ht).
Proof.
  intros Hr Hsz Hasc Hlen Hstep Hnull.
  destruct (reachable_probe_facts ht k Hr Hsz Hasc Hlen)
    as (Hl & Hp & ha & hb & Ha & Hb & Hha & Hhb).
  apply (ht_search_returns_null ht k ha hb); try done.
  - congruence.
  - by apply null_bucket.
Qed.

Lemma ht_search_terminates_witness :
  ∃ fuel r, ht_search fuel ht_4 "cat" = Some (r, ht_4).
Proof.
  apply (ht_search_terminates ht_4 "cat").
  - apply reachable_ht_4.
  - vm_compute. discriminate.
  - repeat constructor.
  - simpl. lia.
  - vm_compute. discriminate.
  - exists 0. reflexivity.
Defined.

(** X20.  [ht_delete] returns, with enough fuel for its loop, on every
    table a driver can hold with at most 46340 buckets, one of them [NULL],
    when no resize takes effect (load at least 10, or base size below 100),
    for every key of at most 8 ASCII characters whose second hash is not
    [size - 1]. *)
Theorem ht_delete_terminates (ht : ht_hash_table) (k : string) (load : Z) :
  reachable ht → size ht ≤ 46340 →
  Forall is_ascii (list_ascii_of_string k) → (String.length k ≤ 8)%nat →
  ht_hash k HT_PRIME_2 (size ht) ≠ Some (size ht - 1) →
  (∃ index, get_item ht index = Some NULL) →
  ht_load ht = Some load → 10 ≤ load ∨ base_size ht < 100 →
  ∃ fuel ht', ht_delete fuel ht k = Some ht'.
Proof.
  intros Hr Hsz Hasc Hlen Hstep Hnull Hload Hres.
  destruct (reachable_probe_facts ht k Hr Hsz Hasc Hlen)
    as (Hl & Hp & ha & hb & Ha & Hb & Hha & Hhb).
  destruct (reachable_size_inv _ Hr) as [Hbase _].
  unfold HT_INITIAL_BASE_SIZE in Hbase.
  apply (ht_delete_returns ht k ha hb load); try done.
  - congruence.
  - by apply null_bucket.
  - destruct Hres as [?|Hb100]; [by left|right].
    unfold HT_INITIAL_BASE_SIZE. apply Z.quot_lt_upper_bound; lia.
  - unfold ht_load in Hload.
    destruct (chk_int (count ht * 100)) as [c|] eqn:Hc; [|done].
    apply chk_int_Some in Hc as [_ Hc]. unfold INT_MIN, INT_MAX in *. lia.
Qed.

Lemma ht_delete_terminates_witness :
  ∃ fuel ht', ht_delete fuel ht_4 "cat" = Some ht'.
Proof.
  apply (ht_delete_terminates ht_4 "cat" 1).
  - apply reachable_ht_4.
  - vm_compute. discriminate.
  - repeat constructor.
  - simpl. lia.
  - vm_compute. discriminate.
  - exists 0. reflexivity.
  - reflexivity.
  - right. simpl. lia.
Defined.

(** X21.  Every item of a table a driver can hold is found: for an item
    in some bucket, [ht_search] for its key returns its value with enough
    fuel, whatever the probe step of the key and however full the table. *)
Theorem ht_search_finds_item (ht : ht_hash_table) (index : Z) (it : ht_item) :
  reachable ht → get_item ht index = Some (Ptr it) →
  ∃ fuel, ht_search fuel ht (key it) = Some (Some (value it), ht).
Proof.
  intros Hr Hget.
  apply (ht_search_live ht (key it) (value it)); [by apply reachable_wf|].
  apply live_get_item. exists index. by destruct it.
Qed.

Lemma ht_search_finds_item_witness :
  ∃ fuel, ht_search fuel ht_4 "4" = Some (Some "x"%string, ht_4).
Proof.
  apply (ht_search_finds_item ht_4 52 {| key := "4"; value := "x" |}).
  - apply reachable_ht_4.
  - reflexivity.
Defined.

(** X22.  A new table is empty: after [ht_new_sized] (and so after
    [ht_new]) the search for any key of at most 8 ASCII characters reads
    [NULL] at the first attempt and returns [NULL] without entering its
    loop. *)
Theorem ht_search_new_table (base : Z) (ht : ht_hash_table) (k : string) :
  ht_new_sized base = Some ht →
  Forall is_ascii (list_ascii_of_string k) → (String.length k ≤ 8)%nat →
  ht_search 0 ht k = Some (None, ht).
Proof.
  intros Hnew Hasc Hlen. unfold ht_new_sized in Hnew.
  destruct (next_prime base) as [sz|] eqn:Hnp; simplify_eq/=.
  apply next_prime_spec in Hnp as ([_ Hmax] & Hp & _).
  assert (2 ≤ sz) by (destruct Hp; lia).
  destruct (ht_hash_short_key k sz) as (ha & hb & Ha & Hb & Hha & Hhb);
    [lia|done|done|].
  pose proof (ht_get_hash_range k sz ha hb 0 ltac:(lia) Ha Hb ltac:(lia)
    ltac:(lia) ltac:(lia) ltac:(lia)) as Hidx.
  pose proof (Z.mod_pos_bound (ha + 0 * (hb + 1)) sz ltac:(lia)) as Hrange.
  set (index := (ha + 0 * (hb + 1)) mod sz) in *.
  unfold ht_search. cbn [size]. rewrite Hidx. cbn [mbind option_bind].
  assert (get_item {| base_size := base; size := sz; count := 0;
                      items := replicate (Z.to_nat sz) NULL |} index = Some NULL)
    as ->.
  { apply get_item_Some. split; [lia|]. apply lookup_replicate. split; [done|lia]. }
  done.
Qed.

Lemma ht_search_new_table_witness :
  ht_search 0 ht_empty "cat" = Some (None, ht_empty).
Proof.
  apply (ht_search_new_table 50 ht_empty "cat").
  - vm_compute. reflexivity.
  - repeat constructor.
  - simpl. lia.
Defined.

(** ** Tables built by inserts only *)

Lemma last_value_Some kvs k : is_Some (last_value kvs k) ↔ k ∈ kvs.*1.
Proof.
  induction kvs as [|[k0 v0] kvs IH]; simpl.
  { split; [by intros []|by intros ?%elem_of_nil]. }
  rewrite elem_of_cons, <-IH.
  destruct (last_value kvs k) as [v|]; [by split; [right|]; eauto|].
  destruct (String.eqb_spec k0 k) as [->|Hne].
  - split; [by left|by eauto].
  - split; [by intros []|]. intros [->|[]]; done.
Qed.

Lemma wf_NoDup_keys ht : ht_wf ht → NoDup (key <$> live_list (items ht)).
Proof.
  intros Hwf. apply NoDup_fmap_2_strong; [|by apply wf_NoDup_live_list].
  intros [k v] [k' v'] Hin Hin' Hk. simpl in Hk. subst k'.
  apply elem_of_live_list_live in Hin, Hin'. simpl in Hin, Hin'.
  by rewrite (live_fun _ _ _ _ Hwf Hin Hin').
Qed.

Lemma insert_all_count_inv fuel kvs : ∀ ht ht',
  count_inv ht → insert_all fuel kvs ht = Some ht' → count_inv ht'.
Proof.
  induction kvs as [|[k v] kvs IH]; intros ht ht' Hc Hrun; simplify_eq/=; [done|].
  destruct (ht_insert fuel ht k v) as [ht1|] eqn:Hins; simplify_eq/=.
  apply (IH ht1); [|done]. by apply (ht_insert_count_inv fuel ht k v).
Qed.

(** X23.  In a table that was only inserted into (after [ht_new_sized]
    and any inserts that return, resizes included), the count field is the
    number of buckets that hold an item, and that is the number of distinct
    keys inserted. *)
Theorem insert_all_count (fuel : nat) (base : Z) (kvs : list (string * string))
    (ht0 ht : ht_hash_table) :
  ht_new_sized base = Some ht0 → insert_all fuel kvs ht0 = Some ht →
  count ht = live_entries (items ht) ∧
  count ht = Z.of_nat (length (remove_dups (kvs.*1))).
Proof.
  intros Hnew Hrun.
  assert (Hc : count_inv ht).
  { apply (insert_all_count_inv fuel kvs ht0); [|done].
    unfold ht_new_sized in Hnew. simplify_option_eq.
    unfold count_inv. simpl. by rewrite live_entries_replicate. }
  split; [done|]. rewrite Hc, live_entries_length. f_equal.
  destruct (ht_new_sized_wf _ _ Hnew) as [Hwf0 Hempty].
  destruct (insert_all_spec fuel kvs ht0 ht Hwf0 Hrun) as [Hwf Hlive].
  rewrite <-(length_fmap key). apply Permutation_length, NoDup_Permutation.
  - by apply wf_NoDup_keys.
  - apply NoDup_remove_dups.
  - intros k. rewrite elem_of_remove_dups, <-last_value_Some, list_elem_of_fmap.
    split.
    + intros (it & -> & Hin). apply elem_of_live_list_live, Hlive in Hin.
      destruct (last_value kvs (key it)); [by eexists|]. by apply Hempty in Hin.
    + intros [v Hv]. exists {| key := k; value := v |}. split; [done|].
      apply elem_of_live_list_live, Hlive. simpl. by rewrite Hv.
Qed.

Lemma insert_all_count_witness :
  ∃ ht, insert_all 3 [("cat", "feline"); ("dog", "canine"); ("cat", "lion")]%string
          ht_empty = Some ht ∧
        count ht = live_entries (items ht) ∧ count ht = 2.
Proof.
  eexists. split; [vm_compute; reflexivity|].
  apply (insert_all_count 3 50
    [("cat", "feline"); ("dog", "canine"); ("cat", "lion")]%string ht_empty).
  - vm_compute. reflexivity.
  - vm_compute. reflexivity.
Defined.

(** ** Indices of ASCII keys *)

Lemma round_binary64_pos_nonneg n : 0 ≤ n → 0 ≤ round_binary64_pos n.
Proof.
  intros Hn. unfold round_binary64_pos.
  destruct (Z.ltb_spec n (2 ^ 53)); [done|].
  set (e := Z.log2 n - 52).
  assert (0 ≤ 2 ^ e) by (apply Z.pow_nonneg; lia).
  assert (0 ≤ n / 2 ^ e) by (apply Z_div_nonneg_nonneg; lia).
  repeat case_match; apply Z.mul_nonneg_nonneg; lia.
Qed.

Lemma pow_long_nonneg a e p : 0 ≤ a → pow_long a e = Some p → 0 ≤ p.
Proof.
  intros Ha [-> _]%chk_long_Some. unfold round_binary64.
  assert (0 ≤ a ^ e) as Hp by (apply Z.pow_nonneg; lia).
  rewrite Z.abs_eq by done.
  apply Z.mul_nonneg_nonneg; [|by apply round_binary64_pos_nonneg].
  destruct (Z.sgn_spec (a ^ e)) as [[? ->]|[[? ->]|[? ->]]]; lia.
Qed.

Lemma ht_hash_loop_nonneg a m cs : ∀ hash r,
  0 ≤ a → 0 < m → Forall is_ascii cs → 0 ≤ hash →
  ht_hash_loop a m cs hash = Some r → 0 ≤ r.
Proof.
  induction cs as [|c rest IH]; intros hash r Ha Hm Hasc Hh Hrun; simpl in Hrun.
  - by simplify_eq.
  - apply Forall_cons in Hasc as [Hc Hrest].
    destruct (pow_long _ _) as [p|] eqn:Hp; simplify_eq/=.
    destruct (chk_long (p * _)) as [t|] eqn:Ht; simplify_eq/=.
    destruct (chk_long (hash + t)) as [h|] eqn:Hh'; simplify_eq/=.
    destruct (c_rem h m) as [h'|] eqn:E; simplify_eq/=.
    apply c_rem_Some in E as [_ ->].
    apply chk_long_Some in Ht as [-> _]. apply chk_long_Some in Hh' as [-> _].
    apply pow_long_nonneg in Hp; [|done].
    pose proof (char_val_ascii c Hc).
    apply (IH (Z.rem (hash + p * char_val c) m)); try done.
    apply Z.rem_bound_pos; [|done].
    assert (0 ≤ p * char_val c) by (apply Z.mul_nonneg_nonneg; lia). lia.
Qed.

Lemma ht_hash_ascii_nonneg s a m h :
  0 ≤ a → 0 < m → Forall is_ascii (list_ascii_of_string s) →
  ht_hash s a m = Some h → 0 ≤ h < m.
Proof.
  intros Ha Hm Hasc Hrun. pose proof (ht_hash_bound _ _ _ _ Hm Hrun).
  split; [|lia]. unfold ht_hash in Hrun.
  destruct (ht_hash_loop _ _ _ _) as [r|] eqn:E; simplify_eq/=.
  apply chk_int_Some in Hrun as [-> _].
  by apply (ht_hash_loop_nonneg a m (list_ascii_of_string s) 0 r).
Qed.

(** X24.  For an ASCII key of any length, whenever [ht_get_hash] returns
    (no power or sum overflows), the index is inside the array: [0 <= index
    < num_buckets].  (A character above 127 is negative as a [char] and can
    give a negative index.) *)
Theorem ht_get_hash_ascii_range (k : string) (num_buckets attempt index : Z) :
  Forall is_ascii (list_ascii_of_string k) → 0 < num_buckets → 0 ≤ attempt →
  ht_get_hash k num_buckets attempt = Some index →
  0 ≤ index < num_buckets.
Proof.
  intros Hasc Hm Hi Hrun. unfold ht_get_hash in Hrun.
  destruct (ht_hash k HT_PRIME_1 num_buckets) as [ha|] eqn:Ha; simplify_eq/=.
  destruct (ht_hash k HT_PRIME_2 num_buckets) as [hb|] eqn:Hb; simplify_eq/=.
  apply ht_hash_ascii_nonneg in Ha; [|done..].
  apply ht_hash_ascii_nonneg in Hb; [|done..].
  destruct (chk_int (hb + 1)) as [step|] eqn:Hs; simplify_eq/=.
  destruct (chk_int (attempt * step)) as [off|] eqn:Ho; simplify_eq/=.
  destruct (chk_int (ha + off)) as [sum|] eqn:Hsum; simplify_eq/=.
  apply chk_int_Some in Hs as [-> _]. apply chk_int_Some in Ho as [-> _].
  apply chk_int_Some in Hsum as [-> _]. apply c_rem_Some in Hrun as [_ ->].
  apply Z.rem_bound_pos; [|done].
  assert (0 ≤ attempt * (hb + 1)) by (apply Z.mul_nonneg_nonneg; lia). lia.
Qed.

Lemma ht_get_hash_ascii_range_witness : 0 ≤ 8 < 53.
Proof.
  apply (ht_get_hash_ascii_range "aaaaaaaa" 53 3 8).
  - repeat constructor.
  - lia.
  - lia.
  - vm_compute. reflexivity.
Defined.

(** ** Keys that cannot be hashed *)

Lemma round_binary64_pos_large n : 2 ^ 63 ≤ n → 2 ^ 63 ≤ round_binary64_pos n.
Proof.
  intros Hn. unfold round_binary64_pos.
  destruct (Z.ltb_spec n (2 ^ 53)); [lia|].
  assert (63 ≤ Z.log2 n) as Hlog.
  { rewrite <-(Z.log2_pow2 63) by lia. by apply Z.log2_le_mono. }
  destruct (Z.log2_spec n ltac:(lia)) as [Hlo _].
  set (e := Z.log2 n - 52) in *.
  assert (Z.log2 n = 52 + e) as HL by lia. rewrite HL in Hlo.
  rewrite Z.pow_add_r in Hlo by lia.
  assert (0 < 2 ^ e) as He by (apply Z.pow_pos_nonneg; lia).
  assert (2 ^ 52 ≤ n / 2 ^ e) as Hq.
  { apply Z.div_le_lower_bound; [done|]. lia. }
  assert (2 ^ 63 ≤ 2 ^ 52 * 2 ^ e) as Hbig.
  { rewrite <-Z.pow_add_r by lia. apply Z.pow_le_mono_r; lia. }
  assert (2 ^ 52 * 2 ^ e ≤ n / 2 ^ e * 2 ^ e).
  { apply Z.mul_le_mono_nonneg_r; lia. }
  assert (n / 2 ^ e * 2 ^ e ≤ (n / 2 ^ e + 1) * 2 ^ e).
  { apply Z.mul_le_mono_nonneg_r; lia. }
  repeat case_match; lia.
Qed.

Lemma pow_long_large a e : 131 ≤ a → 9 ≤ e → pow_long a e = None.
Proof.
  intros Ha He. unfold pow_long, round_binary64.
  assert (131 ^ 9 ≤ a ^ e) as Hp.
  { transitivity (131 ^ e); [apply Z.pow_le_mono_r|apply Z.pow_le_mono_l]; lia. }
  assert (2 ^ 63 ≤ a ^ e) as Hbig.
  { etransitivity; [|exact Hp]. by vm_compute. }
  assert (0 < a ^ e) as Hpos.
  { eapply Z.lt_le_trans; [|exact Hbig]. done. }
  rewrite Z.abs_eq, Z.sgn_pos, Z.mul_1_l by lia.
  pose proof (round_binary64_pos_large _ Hbig) as Hr.
  destruct (chk_long _) as [r|] eqn:E; [|done].
  apply chk_long_Some in E as [_ [_ E]]. exfalso. revert Hr E.
  generalize (round_binary64_pos (a ^ e)). intros z Hz Hz'.
  assert (2 ^ 63 ≤ LONG_MAX) as Habs by (etransitivity; [exact Hz|exact Hz']).
  by vm_compute in Habs.
Qed.

Lemma ht_get_hash_long_key k m i :
  (10 ≤ String.length k)%nat → ht_get_hash k m i = None.
Proof.
  intros Hlen. unfold ht_get_hash, ht_hash.
  assert (length (list_ascii_of_string k) = String.length k) as Hl.
  { clear. induction k; simpl; congruence. }
  destruct (list_ascii_of_string k) as [|c rest]; simpl in *; [lia|].
  by rewrite (pow_long_large HT_PRIME_1) by (unfold HT_PRIME_1; lia).
Qed.

(** X25.  A key of 10 or more characters cannot be hashed: [ht_hash]
    starts with [(long)pow(131, len - 1)], which is above [LONG_MAX] from
    [len = 10] on, so the conversion is undefined, and with it
    [ht_get_hash], [ht_insert], [ht_search] and [ht_delete] on any table
    and any characters. *)
Theorem long_key_undefined (fuel : nat) (ht : ht_hash_table) (k v : string) :
  (10 ≤ String.length k)%nat →
  (∀ num_buckets attempt, ht_get_hash k num_buckets attempt = None) ∧
  ht_insert fuel ht k v = None ∧
  ht_search fuel ht k = None ∧
  ht_delete fuel ht k = None.
Proof.
  intros Hlen. split; [|split; [|split]].
  - intros m i. by apply ht_get_hash_long_key.
  - destruct fuel as [|fuel]; [done|]. simpl.
    destruct (ht_insert_resize _ _) as [ht1|]; [|done]. cbn [mbind option_bind].
    unfold ht_insert_place. cbn [key ht_new_item].
    by rewrite ht_get_hash_long_key.
  - unfold ht_search. by rewrite ht_get_hash_long_key.
  - unfold ht_delete.
    destruct (ht_delete_resize _ _) as [ht1|]; [|done]. cbn [mbind option_bind].
    unfold ht_delete_scan. by rewrite ht_get_hash_long_key.
Qed.

Lemma long_key_undefined_witness :
  (∀ num_buckets attempt, ht_get_hash "0123456789" num_buckets attempt = None) ∧
  ht_insert 5 ht_empty "0123456789" "v" = None ∧
  ht_search 5 ht_empty "0123456789" = None ∧
  ht_delete 5 ht_empty "0123456789" = None.
Proof. apply (long_key_undefined 5 ht_empty "0123456789" "v"). simpl. lia. Defined.

(** ** The base size *)

(** The loop of [ht_resize] multiplies the base size of the new table by a
    power of 2 when every insert does. *)
Lemma ht_resize_loop_base ins n ht i new_ht new_ht' :
  (∀ h k v h', ins h k v = Some h' →
     ∃ j : nat, base_size h' = base_size h * 2 ^ Z.of_nat j) →
  ht_resize_loop ins n ht i new_ht = Some new_ht' →
  ∃ j : nat, base_size new_ht' = base_size new_ht * 2 ^ Z.of_nat j.
Proof.
  intros Hins.
  apply (ht_resize_loop_preserves
    (λ h, ∃ j : nat, base_size h = base_size new_ht * 2 ^ Z.of_nat j)).
  - intros h k v h' [j1 Hj1] [j2 Hj2]%Hins. exists (j1 + j2)%nat.
    rewrite Hj2, Hj1, Nat2Z.inj_add, Z.pow_add_r by lia. lia.
  - exists 0%nat. simpl. lia.
Qed.

Lemma ht_resize_base ins ht base ht' :
  (∀ h k v h', ins h k v = Some h' →
     ∃ j : nat, base_size h' = base_size h * 2 ^ Z.of_nat j) →
  HT_INITIAL_BASE_SIZE ≤ base → ht_resize ins ht base = Some ht' →
  ∃ j : nat, base_size ht' = base * 2 ^ Z.of_nat j.
Proof.
  intros Hins Hbase [[? _]|(_ & new_ht & Hnew & Hrun & _)]%ht_resize_inv; [lia|].
  destruct (ht_resize_loop_base _ _ _ _ _ _ Hins Hrun) as [j Hj].
  exists j. rewrite Hj. unfold ht_new_sized in Hnew. by simplify_option_eq.
Qed.

Lemma ht_insert_place_base fuel ht k v ht' :
  ht_insert_place fuel ht k v = Some ht' →
  base_size ht' = base_size ht ∧ size ht' = size ht.
Proof.
  intros (n & index & b & _ & _ & Hp)%ht_insert_place_inv.
  by destruct (placed_cases _ _ _ _ _ Hp) as (_ & ? & ? & _).
Qed.

Lemma ht_insert_base fuel : ∀ ht k v ht',
  ht_insert fuel ht k v = Some ht' →
  ∃ j : nat, base_size ht' = base_size ht * 2 ^ Z.of_nat j.
Proof.
  induction fuel as [|fuel IH]; intros ht k v ht' Hins; [done|].
  apply ht_insert_unfold in Hins as (ht1 & Hres & Hplace). simpl in Hres, Hplace.
  apply ht_insert_place_base in Hplace as [-> _].
  apply ht_insert_resize_cases in Hres as (load & _ & [[_ ->]|[_ Hres]]).
  { exists 0%nat. simpl. lia. }
  destruct (Z.ltb_spec (base_size ht * 2) HT_INITIAL_BASE_SIZE) as [Hlt|Hge].
  - apply ht_resize_small in Hres as ->; [|done]. exists 0%nat. simpl. lia.
  - destruct (ht_resize_base _ _ _ _ IH Hge Hres) as [j Hj].
    exists (S j). rewrite Hj, Nat2Z.inj_succ, Z.pow_succ_r by lia. lia.
Qed.

(** X26.  An insert never lowers the base size: it leaves base size and
    size as they are when the load is at most 70, and otherwise the base
    size it leaves is the old one times a power of 2 (resizes up can nest
    while the new table is filled). *)
Theorem ht_insert_base_size (fuel : nat) (ht : ht_hash_table) (k v : string)
    (ht' : ht_hash_table) :
  ht_insert fuel ht k v = Some ht' →
  (∃ j : nat, base_size ht' = base_size ht * 2 ^ Z.of_nat j) ∧
  (∀ load, ht_load ht = Some load → load ≤ 70 →
     base_size ht' = base_size ht ∧ size ht' = size ht).
Proof.
  intros Hins. split; [by eapply ht_insert_base|].
  intros load Hload Hle.
  apply ht_insert_unfold in Hins as (ht1 & Hres & Hplace).
  rewrite (ht_insert_resize_none _ _ _ Hload Hle) in Hres.
  injection Hres as <-. by eapply ht_insert_place_base.
Qed.

Lemma ht_insert_base_size_witness :
  ∃ ht', ht_insert 2 ht_4 "cat" "feline" = Some ht' ∧
         (∃ j : nat, base_size ht' = base_size ht_4 * 2 ^ Z.of_nat j) ∧
         (∀ load, ht_load ht_4 = Some load → load ≤ 70 →
            base_size ht' = base_size ht_4 ∧ size ht' = size ht_4).
Proof.
  eexists. split; [vm_compute; reflexivity|].
  apply (ht_insert_base_size 2 ht_4 "cat" "feline"). vm_compute. reflexivity.
Defined.

(** X27.  A resize that takes effect (new base size at least 50) leaves a
    table whose base size is the requested one times a power of 2 (the
    requested one unless the inserts into the new table resize it up) and
    whose size is the prime [next_prime] gives for that base size. *)
Theorem ht_resize_base_size (fuel : nat) (ht : ht_hash_table) (base : Z)
    (ht' : ht_hash_table) :
  HT_INITIAL_BASE_SIZE ≤ base → ht_resize (ht_insert fuel) ht base = Some ht' →
  (∃ j : nat, base_size ht' = base * 2 ^ Z.of_nat j) ∧
  next_prime (base_size ht') = Some (size ht').
Proof.
  intros Hbase Hres. split.
  - apply (ht_resize_base (ht_insert fuel) ht base ht'); [|done..].
    apply ht_insert_base.
  - assert (size_inv ht') as [_ H]; [|done].
    apply (ht_resize_establishes size_inv size_inv_new (ht_insert fuel) ht base ht');
      [|done..].
    apply ht_insert_preserves; [apply size_inv_new|apply size_inv_placed].
Qed.

Lemma ht_resize_base_size_witness :
  ∃ ht', ht_resize (ht_insert 2) ht_4 100 = Some ht' ∧
         (∃ j : nat, base_size ht' = 100 * 2 ^ Z.of_nat j) ∧
         next_prime (base_size ht') = Some (size ht').
Proof.
  eexists. split; [vm_compute; reflexivity|].
  apply (ht_resize_base_size 2 ht_4 100).
  - vm_compute. discriminate.
  - vm_compute. reflexivity.
Defined.

(** ** The program of [ht_main.c] *)

(** X28.  [main] creates a table and frees it at once: both calls are
    defined and the program returns [EXIT_SUCCESS]. *)
Theorem main_returns : main = Some EXIT_SUCCESS.
Proof.
  unfold main. rewrite ht_new_empty. cbn [mbind option_bind].
  assert (ht_del_hash_table ht_empty = Some ()) as ->; [|done].
  apply ht_del_hash_table_spec; [done|].
  by apply (no_tombstone_new HT_INITIAL_BASE_SIZE), ht_new_empty.
Qed.
